(** * Message clustering of [script-relatorio-data.py]

    A shallow embedding of the clustering core of the report script
    (normaliser, similarity test, greedy clusterer, template synthesis,
    workbook loader) together with the part of Python's [difflib] that
    [are_similar] runs, and the properties of the specification settled on it.

    Conventions of the embedding.
    - A Python [str] is a list of Unicode code points ([N]); Python integers
      are [Z]; a [dict] is a [gmap]; [d.get(k, v)] is [default v (d !! k)].
    - A Python float is an IEEE 754 binary64 number.  The finite ones are
      rationals ([Q]); the two operations of the script that produce a float,
      the division and the subtraction, give the exact result rounded to the
      nearest float, ties to even ([fl]); comparisons are exact.  Lengths are
      below [2^53], so an [int] enters a division unchanged.  The test
      [var_tokens / len(tokens) >= 0.6] of [sanitize_template] is kept as the
      comparison of the two rationals: the float below [0.6] is
      [0.6 - 6/(5 * 2^53)], so the floats decide alike for every text of
      fewer than [2^50] tokens.
    - Cluster objects are shared between [clusters], [exact_index] and
      [prefix_index]; the embedding keeps them in one store (a list in
      creation order) and the indexes hold positions in that store.
    - The Unicode character database behind [\w] and [str.lower], and the
      [datetime] parsing behind the date of a message, are parameters
      ([UnicodeData], [parse_datetime]); white space and the case-insensitive
      letters of the URL patterns are spelled out. *)

From stdpp Require Import base numbers list gmap sorting strings.
From Stdlib Require Import QArith Qround Qpower Lqa DecimalString.
Local Open Scope Z_scope.

(** ** Floats *)

(** The integer nearest to [x], the even one of the two when [x] lies half
    way. *)
Definition rne (x : Q) : Z :=
  let f := Qfloor x in
  match (x - inject_Z f ?= 1 # 2)%Q with
  | Lt => f
  | Gt => f + 1
  | Eq => if Z.even f then f else f + 1
  end.

(** The binary exponent of [x > 0]: [2^e <= x < 2^(e+1)]. *)
Definition ilog2 (x : Q) : Z :=
  let e0 := Z.log2 (Qnum x) - Z.log2 (Zpos (Qden x)) in
  if Qle_bool (Qpower 2 e0) x then e0 else e0 - 1.

(** Rounding of [x > 0] to 53 significant bits; below [2^-1022] the spacing
    of the floats stays [2^-1074]. *)
Definition fl_pos (x : Q) : Q :=
  let e := Z.max (ilog2 x) (-1022) in
  let ulp := Qpower 2 (e - 52) in
  Qred (inject_Z (rne (x / ulp)) * ulp).

(** The float nearest to the rational [x] (round to nearest, ties to even),
    for [x] within the range of the finite floats. *)
Definition fl (x : Q) : Q :=
  let x := Qred x in
  match Qnum x with
  | 0 => 0%Q
  | Zpos _ => fl_pos x
  | Zneg _ => (- fl_pos (- x))%Q
  end.

(** ** Strings *)

Abbreviation char := N (only parsing).
Abbreviation str := (list N) (only parsing).

(** [len(s)] *)
Definition len {A} (s : list A) : Z := Z.of_nat (length s).

(** [s[i]] for an index [0 <= i]; [None] stands for Python's IndexError. *)
Definition item {A} (s : list A) (i : Z) : option A :=
  if i <? 0 then None else s !! Z.to_nat i.

(** A string literal of ASCII characters as a Python [str]. *)
Definition of_ascii (s : string) : list N :=
  (λ c, Ascii.N_of_ascii c) <$> String.list_ascii_of_string s.

(** [enumerate(l)] *)
Definition enumerate {A} (l : list A) : list (Z * A) := zip (seqZ 0 (len l)) l.

(** [range(lo, hi)] *)
Definition range (lo hi : Z) : list Z := seqZ lo (hi - lo).

(** ** difflib.SequenceMatcher(None, a, b, autojunk=False) *)

Module SequenceMatcher.

(** [__chain_b]: with [isjunk = None] and [autojunk = False] neither the junk
    nor the popular purge runs, so [b2j] maps every element of [b] to the list
    of its positions and [bjunk] stays empty. *)
Definition chain_b_step (b2j : gmap N (list Z)) (p : Z * N) : gmap N (list Z) :=
  let '(i, elt) := p in
  <[elt := default [] (b2j !! elt) ++ [i]]> b2j.

Definition chain_b (b : list N) : gmap N (list Z) :=
  fold_left chain_b_step (enumerate b) ∅.

(** A [Match(a, b, size)] triple. *)
Record Match := mkMatch { m_a : Z; m_b : Z; m_size : Z }.

#[global] Instance Match_eq_dec : EqDecision Match.
Proof. solve_decision. Defined.

(** The inner loop of [find_longest_match] over the positions [j] of [a[i]]
    in [b]: [continue] below [blo], [break] from [bhi] on. *)
Fixpoint flm_inner (i blo bhi : Z) (j2len : gmap Z Z) (js : list Z)
    (newj2len : gmap Z Z) (best : Match) : gmap Z Z * Match :=
  match js with
  | [] => (newj2len, best)
  | j :: js' =>
      if j <? blo then flm_inner i blo bhi j2len js' newj2len best
      else if j >=? bhi then (newj2len, best)
      else
        let k := default 0 (j2len !! (j - 1)) + 1 in
        let best' := if k >? m_size best then mkMatch (i - k + 1) (j - k + 1) k
                     else best in
        flm_inner i blo bhi j2len js' (<[j := k]> newj2len) best'
  end.

(** One iteration of the outer loop [for i in range(alo, ahi)]. *)
Definition flm_row (a : list N) (b2j : gmap N (list Z)) (blo bhi : Z)
    (st : gmap Z Z * Match) (i : Z) : gmap Z Z * Match :=
  let js := match item a i with
            | Some x => default [] (b2j !! x)
            | None => []
            end in
  flm_inner i blo bhi (fst st) js ∅ (snd st).

(** [while besti > alo and bestj > blo and not isbjunk(b[bestj-1]) and
    a[besti-1] == b[bestj-1]]; the loop runs at most [besti - alo] times. *)
Fixpoint extend_left (fuel : nat) (a b : list N) (alo blo : Z) (m : Match) : Match :=
  match fuel with
  | O => m
  | S fuel' =>
      if (m_a m >? alo) && (m_b m >? blo)
         && bool_decide (item a (m_a m - 1) = item b (m_b m - 1))
      then extend_left fuel' a b alo blo
             (mkMatch (m_a m - 1) (m_b m - 1) (m_size m + 1))
      else m
  end.

(** [while besti+bestsize < ahi and bestj+bestsize < bhi and
    not isbjunk(b[bestj+bestsize]) and a[besti+bestsize] == b[bestj+bestsize]] *)
Fixpoint extend_right (fuel : nat) (a b : list N) (ahi bhi : Z) (m : Match) : Match :=
  match fuel with
  | O => m
  | S fuel' =>
      if (m_a m + m_size m <? ahi) && (m_b m + m_size m <? bhi)
         && bool_decide (item a (m_a m + m_size m) = item b (m_b m + m_size m))
      then extend_right fuel' a b ahi bhi (mkMatch (m_a m) (m_b m) (m_size m + 1))
      else m
  end.

(** [find_longest_match(alo, ahi, blo, bhi)].  The two closing loops of the
    method extend the match over junk elements only; [bjunk] is empty here, so
    their conditions are false on entry and they are left out. *)
Definition find_longest_match (a b : list N) (b2j : gmap N (list Z))
    (alo ahi blo bhi : Z) : Match :=
  let best0 := mkMatch alo blo 0 in
  let '(_, best) := fold_left (flm_row a b2j blo bhi) (range alo ahi) (∅, best0) in
  let best := extend_left (Z.to_nat (m_a best - alo)) a b alo blo best in
  extend_right (Z.to_nat (ahi - (m_a best + m_size best))) a b ahi bhi best.

(** The work list of [get_matching_blocks]: [queue.pop()] takes the element
    appended last, so the head of the list is the end of the Python list. *)
Definition region := (Z * Z * Z * Z)%type.

Definition gmb_step (a b : list N) (b2j : gmap N (list Z))
    (r : region) (queue : list region) (blocks : list Match)
    : list region * list Match :=
  let '(alo, ahi, blo, bhi) := r in
  let x := find_longest_match a b b2j alo ahi blo bhi in
  let '(i, j, k) := (m_a x, m_b x, m_size x) in
  if k =? 0 then (queue, blocks)
  else
    let queue := if (alo <? i) && (blo <? j) then (alo, i, blo, j) :: queue
                 else queue in
    let queue := if (i + k <? ahi) && (j + k <? bhi) then (i + k, ahi, j + k, bhi) :: queue
                 else queue in
    (queue, blocks ++ [x]).

(** [while queue: ...], run for at most [fuel] iterations; the pair returned
    carries the queue left over, empty when the loop has ended. *)
Fixpoint gmb_loop (fuel : nat) (a b : list N) (b2j : gmap N (list Z))
    (queue : list region) (blocks : list Match) : list region * list Match :=
  match fuel with
  | O => (queue, blocks)
  | S fuel' =>
      match queue with
      | [] => ([], blocks)
      | r :: queue' =>
          let '(queue'', blocks') := gmb_step a b b2j r queue' blocks in
          gmb_loop fuel' a b b2j queue'' blocks'
      end
  end.

(** Tuple order of [Match], as used by [matching_blocks.sort()]. *)
Definition Match_le (x y : Match) : Prop :=
  m_a x < m_a y ∨ (m_a x = m_a y ∧ (m_b x < m_b y ∨ (m_b x = m_b y ∧ m_size x <= m_size y))).

#[global] Instance Match_le_dec : RelDecision Match_le.
Proof. intros x y. unfold Match_le. apply _. Defined.

(** The pass that merges adjacent blocks. *)
Fixpoint collapse_adjacent (cur : Match) (blocks : list Match) : list Match :=
  match blocks with
  | [] => if m_size cur =? 0 then [] else [cur]
  | x :: rest =>
      if (m_a cur + m_size cur =? m_a x) && (m_b cur + m_size cur =? m_b x)
      then collapse_adjacent (mkMatch (m_a cur) (m_b cur) (m_size cur + m_size x)) rest
      else (if m_size cur =? 0 then [] else [cur]) ++ collapse_adjacent x rest
  end.

(** Iterations granted to the work-list loop; [gmb_loop_ends] shows that the
    loop has ended by then. *)
Definition gmb_fuel (a : list N) : nat := (2 * length a + 1)%nat.

Definition get_matching_blocks (a b : list N) : list Match :=
  let la := len a in
  let lb := len b in
  let '(_, blocks) := gmb_loop (gmb_fuel a) a b (chain_b b) [(0, la, 0, lb)] [] in
  let sorted := merge_sort Match_le blocks in
  collapse_adjacent (mkMatch 0 0 0) sorted ++ [mkMatch la lb 0].

(** [_calculate_ratio(matches, length)]: [2.0 * matches / length], the
    product being exact. *)
Definition calculate_ratio (matches length : Z) : Q :=
  if length =? 0 then 1%Q else fl (Qmake (2 * matches) (Z.to_pos length)).

Definition sum_sizes (blocks : list Match) : Z :=
  foldr (fun x acc => m_size x + acc) 0 blocks.

(** [ratio()] *)
Definition ratio_matches (a b : list N) : Z := sum_sizes (get_matching_blocks a b).

Definition ratio (a b : list N) : Q :=
  calculate_ratio (ratio_matches a b) (len a + len b).

(** [quick_ratio()]: [fullbcount] counts the elements of [b]; the loop over
    [a] keeps [avail] and counts a match while an element is still available. *)
Definition fullbcount_step (m : gmap N Z) (elt : N) : gmap N Z :=
  <[elt := default 0 (m !! elt) + 1]> m.

Definition fullbcount (b : list N) : gmap N Z := fold_left fullbcount_step b ∅.

Definition quick_step (fbc : gmap N Z) (st : gmap N Z * Z) (elt : N) : gmap N Z * Z :=
  let '(avail, matches) := st in
  let numb := match avail !! elt with
              | Some n => n
              | None => default 0 (fbc !! elt)
              end in
  (<[elt := numb - 1]> avail, if numb >? 0 then matches + 1 else matches).

Definition quick_matches (a b : list N) : Z :=
  snd (fold_left (quick_step (fullbcount b)) a (∅, 0)).

Definition quick_ratio (a b : list N) : Q :=
  calculate_ratio (quick_matches a b) (len a + len b).

(** [real_quick_ratio()] *)
Definition real_quick_ratio (a b : list N) : Q :=
  calculate_ratio (Z.min (len a) (len b)) (len a + len b).

End SequenceMatcher.

(** ** are_similar *)

Definition Qltb (x y : Q) : bool := negb (Qle_bool y x).

Definition are_similar (a b : list N) (threshold : Q) : bool :=
  if bool_decide (a = []) || bool_decide (b = []) then false
  else if Qltb (SequenceMatcher.real_quick_ratio a b) threshold then false
  else if Qltb (SequenceMatcher.quick_ratio a b) threshold then false
  else Qle_bool threshold (SequenceMatcher.ratio a b).

(** ** Data model *)

(** A spreadsheet cell as [openpyxl] hands it over with [values_only=True]:
    empty, text, a whole number, a boolean or a date (its proleptic ordinal).
    Cells holding a fraction are outside the embedding. *)
Inductive cell :=
  | CNone
  | CStr (s : list N)
  | CInt (z : Z)
  | CBool (b : bool)
  | CDate (day : Z).

#[global] Instance cell_eq_dec : EqDecision cell.
Proof. solve_decision. Defined.

Record Message := mkMessage {
  source_file : list N;
  body : list N;
  body_normalized : list N;
  status_raw : list N;
  status_mapped : list N;
  date : option Z;
  metadata : gmap (list N) cell
}.

#[global] Instance Message_eq_dec : EqDecision Message.
Proof. solve_decision. Defined.

Record MessageCluster := mkCluster {
  representative : list N;
  representative_raw : list N;
  messages : list Message
}.

#[global] Instance MessageCluster_eq_dec : EqDecision MessageCluster.
Proof. solve_decision. Defined.

(** [MessageCluster.add] *)
Definition add (c : MessageCluster) (message : Message) : MessageCluster :=
  mkCluster (representative c) (representative_raw c) (messages c ++ [message]).

(** [MessageCluster.total] *)
Definition total (c : MessageCluster) : Z := len (messages c).

(** ** cluster_messages *)

(** The state of the loop: the cluster objects in creation order (a cluster
    is referred to by its position here), and the two indexes. *)
Record cstate := mkState {
  clusters : list MessageCluster;
  exact_index : gmap (list N) nat;
  prefix_index : gmap (list N) (list nat)
}.

Definition init_state : cstate := mkState [] ∅ ∅.

(** [cluster.representative] of the cluster object at position [id]. *)
Definition rep_at (cs : list MessageCluster) (id : nat) : list N :=
  match cs !! id with
  | Some c => representative c
  | None => []
  end.

(** [for cluster in candidates: if are_similar(...): assigned_cluster = cluster; break] *)
Definition scan_candidates (cs : list MessageCluster) (normalized : list N)
    (threshold : Q) (candidates : list nat) : option nat :=
  snd <$> list_find (λ id, are_similar normalized (rep_at cs id) threshold = true) candidates.

(** The length test before the full comparison in the second loop: [true]
    when the cluster is skipped.  The quotient of the lengths, the literal
    [0.15] and the difference [threshold - 0.15] are floats. *)
Definition length_skip (normalized rep : list N) (threshold : Q) : bool :=
  if bool_decide (normalized ≠ []) && bool_decide (rep ≠ []) then
    let max_len := Z.max (len rep) (len normalized) in
    negb (max_len =? 0)
    && Qltb (fl (Qmake (Z.min (len rep) (len normalized)) (Z.to_pos max_len)))
            (fl (threshold - fl (15 # 100)))
  else false.

(** [for cluster in clusters: ...] over the clusters not evaluated before. *)
Fixpoint scan_all (normalized : list N) (threshold : Q) (evaluated : list nat)
    (cs : list (nat * MessageCluster)) : option nat :=
  match cs with
  | [] => None
  | (id, cluster) :: rest =>
      if bool_decide (id ∈ evaluated) then scan_all normalized threshold evaluated rest
      else if length_skip normalized (representative cluster) threshold
      then scan_all normalized threshold evaluated rest
      else if are_similar normalized (representative cluster) threshold then Some id
      else scan_all normalized threshold evaluated rest
  end.

(** The search for [assigned_cluster] among the existing clusters: the exact
    index, then the prefix bucket, then all other clusters. *)
Definition find_cluster (st : cstate) (normalized : list N) (threshold : Q) : option nat :=
  let prefix := take 40 normalized in
  let exact := if bool_decide (normalized ≠ []) then exact_index st !! normalized
               else None in
  match exact with
  | Some id => Some id
  | None =>
      let candidates := default [] (prefix_index st !! prefix) in
      match scan_candidates (clusters st) normalized threshold candidates with
      | Some id => Some id
      | None => scan_all normalized threshold candidates
                  (imap (λ id c, (id, c)) (clusters st))
      end
  end.

(** [assigned_cluster in bucket]: identity or dataclass equality. *)
Definition cluster_in_bucket (cs : list MessageCluster) (id : nat) (bucket : list nat) : bool :=
  bool_decide (Exists (λ id', id' = id ∨ cs !! id' = cs !! id) bucket).

(** One iteration of [for msg in messages]; the cluster chosen is returned
    with the new state. *)
Definition cluster_step (threshold : Q) (st : cstate) (msg : Message) : nat * cstate :=
  let normalized := body_normalized msg in
  let prefix := take 40 normalized in
  let '(id, cs) :=
    match find_cluster st normalized threshold with
    | Some id => (id, clusters st)
    | None => (length (clusters st),
               clusters st ++ [mkCluster normalized (body msg) []])
    end in
  let cs := alter (λ c, add c msg) id cs in
  let exact := if bool_decide (normalized ≠ []) && bool_decide (exact_index st !! normalized = None)
               then <[normalized := id]> (exact_index st)
               else exact_index st in
  let bucket := default [] (prefix_index st !! prefix) in
  let bucket := if cluster_in_bucket cs id bucket then bucket else bucket ++ [id] in
  (id, mkState cs exact (<[prefix := bucket]> (prefix_index st))).

(** The loop, with the list of clusters chosen so far. *)
Definition cluster_loop (threshold : Q) (messages : list Message)
    (st : cstate) : list nat * cstate :=
  fold_left (λ '(ids, st) msg,
               let '(id, st') := cluster_step threshold st msg in (ids ++ [id], st'))
            messages ([], st).

(** [clusters.sort(key=lambda c: c.total, reverse=True)]: Python's sort is
    stable, also under [reverse=True]; the stable sorted arrangement of a list
    is unique, and insertion from the right produces it. *)
Fixpoint insert_by_total (c : MessageCluster) (l : list MessageCluster) : list MessageCluster :=
  match l with
  | [] => [c]
  | d :: l' => if total d <=? total c then c :: d :: l' else d :: insert_by_total c l'
  end.

Definition sort_by_total_desc (l : list MessageCluster) : list MessageCluster :=
  foldr insert_by_total [] l.

(** The clusters in creation order, before the final sort. *)
Definition clusters_created (messages : list Message) (threshold : Q) : list MessageCluster :=
  clusters (snd (cluster_loop threshold messages init_state)).

(** The position, in creation order, of the cluster each message was added to. *)
Definition assignment (messages : list Message) (threshold : Q) : list nat :=
  fst (cluster_loop threshold messages init_state).

Definition cluster_messages (messages : list Message) (threshold : Q) : list MessageCluster :=
  sort_by_total_desc (clusters_created messages threshold).

(** ** Text utilities *)

(** [str.isspace] of one character, which is also the class [\s] of [re] on
    [str] patterns: the Unicode white space of CPython. *)
Definition is_space (c : N) : bool :=
  ((9 <=? c) && (c <=? 13) || (28 <=? c) && (c <=? 32)
   || (c =? 133) || (c =? 160) || (c =? 5760)
   || (8192 <=? c) && (c <=? 8202)
   || (c =? 8232) || (c =? 8233) || (c =? 8239) || (c =? 8287) || (c =? 12288))%N.

(** [str.lstrip()], [str.rstrip()] and [str.strip()] *)
Fixpoint lstrip (s : list N) : list N :=
  match s with
  | [] => []
  | c :: s' => if is_space c then lstrip s' else s
  end.

Definition rstrip (s : list N) : list N := reverse (lstrip (reverse s)).

Definition strip (s : list N) : list N := rstrip (lstrip s).

(** [str.split()]: the maximal runs of characters that are not white space;
    [cur] is the run being read. *)
Fixpoint split_go (cur : list N) (s : list N) : list (list N) :=
  match s with
  | [] => if bool_decide (cur = []) then [] else [cur]
  | c :: s' =>
      if is_space c then
        (if bool_decide (cur = []) then split_go [] s' else cur :: split_go [] s')
      else split_go (cur ++ [c]) s'
  end.

Definition split (s : list N) : list (list N) := split_go [] s.

(** [" ".join(tokens)] *)
Fixpoint join (tokens : list (list N)) : list N :=
  match tokens with
  | [] => []
  | [t] => t
  | t :: rest => t ++ 32%N :: join rest
  end.

(** The part of the Unicode character database that the script reads through
    [re] and [str]: [str.isalnum] of a code point (the class [\w] is
    [isalnum] or the underscore) and [str.lower]. *)
Class UnicodeData := {
  isalnum : N → bool;
  lower : list N → list N
}.

(** The ASCII rows of the database. *)
Definition ascii_isalnum (c : N) : bool :=
  ((48 <=? c) && (c <=? 57) || (65 <=? c) && (c <=? 90) || (97 <=? c) && (c <=? 122))%N.

Definition ascii_lower (c : N) : N :=
  if ((65 <=? c) && (c <=? 90))%N then (c + 32)%N else c.

Definition is_ascii (c : N) : Prop := (c < 128)%N.

(** What the database says on ASCII text. *)
Class UnicodeAscii (U : UnicodeData) : Prop := {
  isalnum_ascii : ∀ c, is_ascii c → isalnum c = ascii_isalnum c;
  lower_ascii : ∀ s, Forall is_ascii s → lower s = ascii_lower <$> s
}.

(** An excerpt of the database: the ASCII rows, and the rows of U+0130
    (capital I with dot above: a letter, lowercased to U+0069 U+0307) and of
    U+0307 (combining dot above: not alphanumeric, caseless). *)
Definition excerpt_isalnum (c : N) : bool := ascii_isalnum c || (c =? 304)%N.

Definition excerpt_lower_char (c : N) : list N :=
  if (c =? 304)%N then [105; 775]%N else [ascii_lower c].

Definition excerpt : UnicodeData :=
  {| isalnum := excerpt_isalnum; lower := λ s, s ≫= excerpt_lower_char |}.

(** ** Regular expressions of the script *)

(** [pattern.sub(repl, s)] for a pattern that matches no empty string: at
    every position outside an earlier match the pattern is tried; [matcher]
    gets the character before the position (for [\b]) and the text from the
    position on, and answers the length of the match.  [skip] counts the
    characters of the current match still to be passed over. *)
Fixpoint re_sub (matcher : option N → list N → option nat) (repl : list N)
    (skip : nat) (prev : option N) (s : list N) : list N :=
  match s with
  | [] => []
  | c :: s' =>
      match skip with
      | S k => re_sub matcher repl k (Some c) s'
      | O =>
          match matcher prev s with
          | Some n => repl ++ re_sub matcher repl (pred n) (Some c) s'
          | None => c :: re_sub matcher repl O (Some c) s'
          end
      end
  end.

Definition sub (matcher : option N → list N → option nat) (repl s : list N) : list N :=
  re_sub matcher repl O None s.

(** The length of the longest prefix of characters satisfying [p]. *)
Fixpoint run_length (p : N → bool) (s : list N) : nat :=
  match s with
  | c :: s' => if p c then S (run_length p s') else O
  | [] => O
  end.

(** [\S+] at the end of a pattern: greedy, at least one character. *)
Definition nonspace_plus (s : list N) : option nat :=
  match run_length (λ c, negb (is_space c)) s with
  | O => None
  | n => Some n
  end.

(** The letters of [http] and [s] under [re.IGNORECASE]; the long s (U+017F)
    matches [s]. *)
Definition ci_h (c : N) : bool := ((c =? 104) || (c =? 72))%N.
Definition ci_t (c : N) : bool := ((c =? 116) || (c =? 84))%N.
Definition ci_p (c : N) : bool := ((c =? 112) || (c =? 80))%N.
Definition ci_s (c : N) : bool := ((c =? 115) || (c =? 83) || (c =? 383))%N.

(** [s?] followed by [tail]: the branch with the [s] first, then without. *)
Definition opt_s (tail : list N → option nat) (s : list N) : option nat :=
  let with_s := match s with
                | c :: s' => if ci_s c then S <$> tail s' else None
                | [] => None
                end in
  match with_s with
  | Some n => Some n
  | None => tail s
  end.

Definition http (tail : list N → option nat) (s : list N) : option nat :=
  match s with
  | c1 :: c2 :: c3 :: c4 :: s' =>
      if ci_h c1 && ci_t c2 && ci_t c3 && ci_p c4
      then (λ n, 4 + n)%nat <$> opt_s tail s'
      else None
  | _ => None
  end.

(** The tail [://\S+] of the URL pattern. *)
Definition colon_slashes (s : list N) : option nat :=
  match s with
  | c1 :: c2 :: c3 :: s' =>
      if ((c1 =? 58) && (c2 =? 47) && (c3 =? 47))%N
      then (λ n, 3 + n)%nat <$> nonspace_plus s'
      else None
  | _ => None
  end.

(** [URL_PATTERN = re.compile(r"https?://\S+", re.IGNORECASE)] *)
Definition URL_PATTERN (prev : option N) (s : list N) : option nat :=
  http colon_slashes s.

(** The tail [//\S+] of the variant without colon. *)
Definition slashes (s : list N) : option nat :=
  match s with
  | c1 :: c2 :: s' =>
      if ((c1 =? 47) && (c2 =? 47))%N
      then (λ n, 2 + n)%nat <$> nonspace_plus s'
      else None
  | _ => None
  end.

Section Unicode.
Context {U : UnicodeData}.

(** The class [\w]. *)
Definition is_word (c : N) : bool := isalnum c || (c =? 95)%N.

(** [\b] between [prev] and the first character of [s]. *)
Definition word_boundary (prev : option N) (s : list N) : bool :=
  xorb (from_option is_word false prev) (from_option is_word false (head s)).

(** [URL_PATTERN_ALT = re.compile(r"\bhttps?//\S+", re.IGNORECASE)] *)
Definition URL_PATTERN_ALT (prev : option N) (s : list N) : option nat :=
  if word_boundary prev s then http slashes s else None.

(** [NON_WORD_PATTERN = re.compile(r"[^\w\s]")] *)
Definition NON_WORD_PATTERN (prev : option N) (s : list N) : option nat :=
  match s with
  | c :: _ => if negb (is_word c) && negb (is_space c) then Some 1%nat else None
  | [] => None
  end.

(** [MULTI_WS_PATTERN = re.compile(r"\s+")] *)
Definition MULTI_WS_PATTERN (prev : option N) (s : list N) : option nat :=
  match run_length is_space s with
  | O => None
  | n => Some n
  end.

(** [normalize_body] on a [str] argument, for which [str(text or "")] is the
    argument itself. *)
Definition normalize_body (text : list N) : list N :=
  let raw := strip text in
  if bool_decide (raw = []) then []
  else
    let temp := sub URL_PATTERN [32%N] raw in
    let temp := sub URL_PATTERN_ALT [32%N] temp in
    let temp := sub NON_WORD_PATTERN [32%N] temp in
    lower (strip (sub MULTI_WS_PATTERN [32%N] temp)).

End Unicode.

(** ** Template synthesis *)

(** The placeholder token. *)
Definition variavel : list N := of_ascii "{variavel}".

(** The body of [for idx in range(max_len)] in [body_template], with the
    template tokens built so far; the first branch is the [break]. *)
Fixpoint template_loop (tokens_per_message : list (list (list N))) (idxs : list nat)
    (template_tokens : list (list N)) : list (list N) :=
  match idxs with
  | [] => template_tokens
  | idx :: rest =>
      let tokens_at_idx := (λ tokens : list (list N), tokens !! idx) <$> tokens_per_message in
      let has_missing := bool_decide (Exists (λ token, token = None) tokens_at_idx) in
      let values := remove_dups (omap id tokens_at_idx) in
      if bool_decide (values = []) && has_missing then template_tokens
      else
        let literal := match values with
                       | [v] => if has_missing then None else Some v
                       | _ => None
                       end in
        let template_tokens :=
          match literal with
          | Some v => template_tokens ++ [v]
          | None =>
              if bool_decide (template_tokens = [])
                 || bool_decide (last template_tokens ≠ Some variavel)
              then template_tokens ++ [variavel]
              else template_tokens
          end in
        template_loop tokens_per_message rest template_tokens
  end.

(** [MessageCluster.body_template] *)
Definition body_template (c : MessageCluster) : list N :=
  if bool_decide (messages c = []) then []
  else
    let tokens_per_message :=
      (λ msg, split (strip (body msg)))
        <$> filter (λ msg, strip (body msg) ≠ []) (messages c) in
    match tokens_per_message with
    | [] => []
    | [tokens] => join tokens
    | _ =>
        let max_len := foldr Nat.max O (length <$> tokens_per_message) in
        join (template_loop tokens_per_message (seq 0 max_len) [])
    end.

(** [sanitize_template]; the test against [0.6] is that of the rationals
    (see the conventions). *)
Definition sanitize_template (c : MessageCluster) : list N :=
  let template := strip (body_template c) in
  if bool_decide (template = []) then representative_raw c
  else
    let tokens := split template in
    if bool_decide (tokens = []) then representative_raw c
    else
      let var_tokens := len (filter (λ token, token = variavel) tokens) in
      if var_tokens =? len tokens then representative_raw c
      else if Qle_bool (6 # 10) (Qmake var_tokens (Z.to_pos (len tokens)))
      then representative_raw c
      else template.

(** ** Loading the rows of a workbook *)

(** Truth value of a cell. *)
Definition truthy (v : cell) : bool :=
  match v with
  | CNone => false
  | CStr s => negb (bool_decide (s = []))
  | CInt z => negb (z =? 0)
  | CBool b => b
  | CDate _ => true
  end.

(** [x or y] *)
Definition py_or (x y : cell) : cell := if truthy x then x else y.

(** [str(v)] of a text, number or boolean cell.  The rendering of a date
    cell is [datetime]'s and is given by [str_date]. *)
Definition str_of (str_date : Z → list N) (v : cell) : list N :=
  match v with
  | CNone => of_ascii "None"
  | CStr s => s
  | CInt z => of_ascii (DecimalString.NilEmpty.string_of_int (Z.to_int z))
  | CBool true => of_ascii "True"
  | CBool false => of_ascii "False"
  | CDate d => str_date d
  end.

Definition NORMALIZED_STATUS_DELIVERED : list N := of_ascii "Entregue".
Definition NORMALIZED_STATUS_OTHER : list N :=
  of_ascii "Enviada e N" ++ [227%N] ++ of_ascii "o Entregue".

Section Loader.
Context {U : UnicodeData}.

(** The services of [datetime] behind [str(value)] of a date cell and behind
    [parse_datetime(value).date()]. *)
Context (str_date : Z → list N) (parse_datetime : cell → option Z).

(** [str(value or "")] *)
Definition str_or_empty (v : cell) : list N := str_of str_date (py_or v (CStr [])).

(** [normalize_header] *)
Definition normalize_header (value : cell) : list N :=
  sub MULTI_WS_PATTERN [95%N] (lower (strip (str_or_empty value))).

(** [normalize_body] on a cell. *)
Definition normalize_body_cell (text : cell) : list N :=
  normalize_body (str_or_empty text).

(** [map_status] *)
Definition map_status (value : cell) : list N :=
  if bool_decide (lower (strip (str_or_empty value)) = of_ascii "delivered")
  then NORMALIZED_STATUS_DELIVERED
  else NORMALIZED_STATUS_OTHER.

(** [dict(zip(header, raw_row))]: a later column of the same name wins. *)
Definition row_dict (header : list (list N)) (raw_row : list cell) : gmap (list N) cell :=
  fold_left (λ d '(k, v), <[k := v]> d) (zip header raw_row) ∅.

(** [row.get(key)] *)
Definition get (row : gmap (list N) cell) (key : string) : cell :=
  default CNone (row !! of_ascii key).

(** [extract_date] *)
Definition extract_date (row : gmap (list N) cell) : option Z :=
  let try_key (key : string) (rest : option Z) :=
    match row !! of_ascii key with
    | None => rest
    | Some v => match parse_datetime v with
                | Some d => Some d
                | None => rest
                end
    end in
  foldr try_key None ["date_sent"; "data_envio"; "sent_at"; "date_created"; "data_criacao"]%string.

(** The body of [for raw_row in rows_iter]: [None] when the row is skipped by
    one of the two [continue]s, the message appended otherwise. *)
Definition load_row (path_basename : list N) (header : list (list N)) (raw_row : list cell)
    : option Message :=
  if negb (existsb truthy raw_row) then None
  else
    let row := row_dict header raw_row in
    let body_raw := py_or (get row "body") (get row "texto") in
    if negb (truthy body_raw) then None
    else
      let status_raw := default (CStr []) (row !! of_ascii "status") in
      let metadata : gmap (list N) cell :=
        <[of_ascii "sid" := get row "sid"]>
        (<[of_ascii "date_created" := get row "date_created"]>
        (<[of_ascii "date_sent" := get row "date_sent"]>
        (<[of_ascii "status_original" := status_raw]>
        (<[of_ascii "to" := py_or (get row "to") (get row "destino")]> ∅)))) in
      Some (mkMessage path_basename
              (strip (str_of str_date body_raw))
              (normalize_body_cell body_raw)
              (str_or_empty status_raw)
              (map_status status_raw)
              (extract_date row)
              metadata).

(** [load_messages_from_workbook] on the rows of the sheet: the first row is
    the header, a sheet without rows gives no message. *)
Definition load_messages_from_workbook (path_basename : list N) (rows : list (list cell))
    : list Message :=
  match rows with
  | [] => []
  | header_row :: rows_iter =>
      let header := normalize_header <$> header_row in
      omap (load_row path_basename header) rows_iter
  end.

(** The rows of the sheet that yield no message. *)
Definition dropped_count (path_basename : list N) (rows : list (list cell)) : Z :=
  match rows with
  | [] => 0
  | header_row :: rows_iter =>
      len (filter (λ raw_row, load_row path_basename (normalize_header <$> header_row) raw_row = None)
                  rows_iter)
  end.

End Loader.

(** ** Auxiliary notions for the statements *)

(** The positions of [x] in [b], in increasing order. *)
Definition positions (b : list N) (x : N) : list Z :=
  filter (λ j, item b j = Some x) (seqZ 0 (len b)).

(** [s[lo:hi]] for [0 <= lo <= hi]. *)
Definition slice {A} (s : list A) (lo hi : Z) : list A :=
  take (Z.to_nat (hi - lo)) (drop (Z.to_nat lo) s).

(** Number of occurrences of a character. *)
Definition cnt (c : N) (l : list N) : nat := length (filter (λ y, y = c) l).

(** A block inside the window [alo:ahi] x [blo:bhi] on which [a] and [b] agree. *)
Definition valid_match (a b : list N) (alo ahi blo bhi : Z) (m : SequenceMatcher.Match) : Prop :=
  alo <= SequenceMatcher.m_a m ∧ blo <= SequenceMatcher.m_b m ∧ 0 <= SequenceMatcher.m_size m ∧
  SequenceMatcher.m_a m + SequenceMatcher.m_size m <= ahi ∧
  SequenceMatcher.m_b m + SequenceMatcher.m_size m <= bhi ∧
  ∀ d, 0 <= d < SequenceMatcher.m_size m →
    item a (SequenceMatcher.m_a m + d) = item b (SequenceMatcher.m_b m + d).

(** The entries of [j2len] after row [i]: each is the length of a block
    ending at [a[i]] and [b[j]]. *)
Definition j2len_ok (a b : list N) (alo blo bhi i : Z) (j2len : gmap Z Z) : Prop :=
  ∀ j k, j2len !! j = Some k →
    1 <= k ∧ valid_match a b alo (i + 1) blo bhi (SequenceMatcher.mkMatch (i - k + 1) (j - k + 1) k).

(** The text of a block in [a] and in [b], and of a window of the work list. *)
Definition block_a (a : list N) (m : SequenceMatcher.Match) : list N :=
  slice a (SequenceMatcher.m_a m) (SequenceMatcher.m_a m + SequenceMatcher.m_size m).

Definition block_b (b : list N) (m : SequenceMatcher.Match) : list N :=
  slice b (SequenceMatcher.m_b m) (SequenceMatcher.m_b m + SequenceMatcher.m_size m).

Definition region_a (a : list N) (r : SequenceMatcher.region) : list N :=
  let '(alo, ahi, _, _) := r in slice a alo ahi.

Definition region_b (b : list N) (r : SequenceMatcher.region) : list N :=
  let '(_, _, blo, bhi) := r in slice b blo bhi.

Definition region_ok (a b : list N) (r : SequenceMatcher.region) : Prop :=
  let '(alo, ahi, blo, bhi) := r in
  0 <= alo <= ahi ∧ ahi <= len a ∧ 0 <= blo <= bhi ∧ bhi <= len b.

(** The invariant of the work-list loop: the blocks found and the windows
    still to be searched lie in disjoint parts of [a] and of [b], stated
    through the number of occurrences of every character. *)
Definition gmb_inv (a b : list N) (queue : list SequenceMatcher.region)
    (blocks : list SequenceMatcher.Match) : Prop :=
  Forall (region_ok a b) queue ∧
  Forall (valid_match a b 0 (len a) 0 (len b)) blocks ∧
  ∀ c, (cnt c (concat (block_a a <$> blocks)) + cnt c (concat (region_a a <$> queue)) <= cnt c a)%nat
     ∧ (cnt c (concat (block_b b <$> blocks)) + cnt c (concat (region_b b <$> queue)) <= cnt c b)%nat.

(** A bound on the iterations the work list still needs. *)
Definition queue_measure (queue : list SequenceMatcher.region) : Z :=
  foldr (λ (r : SequenceMatcher.region) acc, let '(alo, ahi, _, _) := r in 2 * (ahi - alo) + 1 + acc)
        0 queue.

(** What [quick_ratio] reads for [elt]: [avail[elt]] when present, the count
    in [b] otherwise. *)
Definition avail_of (fbc avail : gmap N Z) (c : N) : Z :=
  match avail !! c with
  | Some n => n
  | None => default 0 (fbc !! c)
  end.

(** The blocks found by the work-list loop of [get_matching_blocks]. *)
Definition found_blocks (a b : list N) : list SequenceMatcher.Match :=
  snd (SequenceMatcher.gmb_loop (SequenceMatcher.gmb_fuel a) a b (SequenceMatcher.chain_b b)
         [(0, len a, 0, len b)] []).

(** The messages, in processing order, that the loop added to the cluster at
    position [id], read off the list of clusters chosen. *)
Definition members (ms : list Message) (ids : list nat) (id : nat) : list Message :=
  snd <$> filter (λ p, fst p = id) (zip ids ms).

(** The invariant of a cluster in claim C1: every member is similar enough to
    the representative or repeats the normalized body of an earlier member,
    and a member without normalized body only sits under an empty
    representative. *)
Definition cluster_ok (t : Q) (c : MessageCluster) : Prop :=
  ∀ k m, messages c !! k = Some m →
    ((t <= SequenceMatcher.ratio (body_normalized m) (representative c))%Q
     ∨ ∃ k' m', (k' < k)%nat ∧ messages c !! k' = Some m'
                ∧ body_normalized m' = body_normalized m)
    ∧ (body_normalized m = [] → representative c = []).

(** The invariant of [for msg in messages], over the messages [ms] processed
    so far, the clusters [ids] chosen for them and the state reached. *)
Record loop_inv (ms : list Message) (ids : list nat) (st : cstate) : Prop := {
  inv_length : length ids = length ms;
  inv_ids : ∀ i id, ids !! i = Some id → (id < length (clusters st))%nat;
  inv_members : ∀ id c, clusters st !! id = Some c → messages c = members ms ids id;
  inv_rep : ∀ id c, clusters st !! id = Some c →
    ∃ m0, head (messages c) = Some m0 ∧ representative c = body_normalized m0
          ∧ representative_raw c = body m0;
  inv_exact : ∀ i m, ms !! i = Some m → body_normalized m ≠ [] →
    exact_index st !! body_normalized m = ids !! i;
  inv_exact_dom : ∀ n id, exact_index st !! n = Some id →
    n ≠ [] ∧ ∃ i m, ms !! i = Some m ∧ body_normalized m = n ∧ ids !! i = Some id;
  inv_alone : ∀ i j m, ms !! i = Some m → body_normalized m = [] →
    ids !! j = ids !! i → j = i
}.

(** [sum(cluster.total for cluster in clusters)] *)
Definition sum_totals (cs : list MessageCluster) : Z :=
  foldr (λ c acc, total c + acc) 0 cs.

(** The state in which the loop of [cluster_messages] ends. *)
Definition final_state (messages : list Message) (threshold : Q) : cstate :=
  snd (cluster_loop threshold messages init_state).

(** A message of the examples: raw body [b], normalized body [n]. *)
Definition msg_of (b n : string) : Message :=
  mkMessage (of_ascii "relatorio.xlsx") (of_ascii b) (of_ascii n)
            (of_ascii "delivered") NORMALIZED_STATUS_DELIVERED None ∅.

(** The characters a normalized ASCII body is made of, besides the space:
    digits, lower-case letters and the underscore. *)
Definition lower_word (c : N) : bool :=
  ((48 <=? c) && (c <=? 57) || (97 <=? c) && (c <=? 122) || (c =? 95))%N.

(** No two spaces in a row. *)
Fixpoint single_spaced (s : list N) : Prop :=
  match s with
  | c :: s' => (c = 32%N → head s' ≠ Some 32%N) ∧ single_spaced s'
  | [] => True
  end.

(** The shape of a normalized ASCII body: words of [lower_word] characters
    separated by single spaces. *)
Definition normal (y : list N) : Prop :=
  Forall (λ c, lower_word c = true ∨ c = 32%N) y ∧ single_spaced y
  ∧ head y ≠ Some 32%N ∧ last y ≠ Some 32%N.

(** A token of [str.split()]: not empty and free of white space. *)
Definition token_ok (token : list N) : Prop :=
  token ≠ [] ∧ Forall (λ c, is_space c = false) token.

(** The buckets of the prefix index only name clusters that exist. *)
Definition prefix_ok (st : cstate) : Prop :=
  ∀ prefix bucket id, prefix_index st !! prefix = Some bucket → id ∈ bucket →
    (id < length (clusters st))%nat.

(** ** Counting and reporting *)

(** [MessageCluster.counts_totals]: a [defaultdict(int)] of the mapped status. *)
Definition counts_totals (c : MessageCluster) : gmap (list N) Z :=
  fold_left (λ totals msg,
               <[status_mapped msg := default 0 (totals !! status_mapped msg) + 1]> totals)
            (messages c) ∅.

(** [MessageCluster.counts_by_date]: a [defaultdict] of [defaultdict(int)];
    messages without date are passed over. *)
Definition counts_by_date (c : MessageCluster) : gmap Z (gmap (list N) Z) :=
  fold_left (λ counts msg,
               match date msg with
               | None => counts
               | Some d =>
                   let inner := default ∅ (counts !! d) in
                   <[d := <[status_mapped msg := default 0 (inner !! status_mapped msg) + 1]>
                            inner]> counts
               end)
            (messages c) ∅.

(** [sum(d.values())] *)
Definition sum_values {K} `{Countable K} (d : gmap K Z) : Z :=
  map_fold (λ _ v acc, v + acc) 0 d.

(** The two numbers that [print_cluster_details] prints for a cluster. *)
Definition cluster_delivered (c : MessageCluster) : Z :=
  default 0 (counts_totals c !! NORMALIZED_STATUS_DELIVERED).

Definition cluster_other (c : MessageCluster) : Z :=
  sum_values (counts_totals c) - cluster_delivered c.

(** The dictionary that [summarize_overall] returns. *)
Record Overview := mkOverview {
  total_messages : Z;
  total_clusters : Z;
  total_entregue : Z;
  total_nao_entregue : Z;
  dates : gmap Z Z
}.

(** The body of the inner loop of [summarize_overall]. *)
Definition overall_step (acc : gmap Z Z * Z * Z) (msg : Message) : gmap Z Z * Z * Z :=
  let '(date_counts, delivered, sent_not_delivered) := acc in
  let date_counts := match date msg with
                     | Some d => <[d := default 0 (date_counts !! d) + 1]> date_counts
                     | None => date_counts
                     end in
  if bool_decide (status_mapped msg = NORMALIZED_STATUS_DELIVERED)
  then (date_counts, delivered + 1, sent_not_delivered)
  else (date_counts, delivered, sent_not_delivered + 1).

(** [summarize_overall] *)
Definition summarize_overall (cs : list MessageCluster) : Overview :=
  let '(date_counts, delivered, sent_not_delivered) :=
    fold_left (λ acc cluster, fold_left overall_step (messages cluster) acc) cs (∅, 0, 0) in
  mkOverview (sum_totals cs) (len cs) delivered sent_not_delivered date_counts.

(** [collections.Counter(xs)]: the distinct elements in the order of their
    first occurrence, each with its number of occurrences. *)
Fixpoint counter_add (counter : list (list N * Z)) (x : list N) : list (list N * Z) :=
  match counter with
  | [] => [(x, 1)]
  | (y, n) :: rest => if bool_decide (y = x) then (y, n + 1) :: rest
                      else (y, n) :: counter_add rest x
  end.

Definition Counter (xs : list (list N)) : list (list N * Z) := fold_left counter_add xs [].

(** [Counter.most_common(n)] is [sorted(items, key=count, reverse=True)[:n]];
    the sort is stable. *)
Fixpoint insert_by_count (p : list N * Z) (l : list (list N * Z)) : list (list N * Z) :=
  match l with
  | [] => [p]
  | q :: l' => if snd q <=? snd p then p :: q :: l' else q :: insert_by_count p l'
  end.

Definition most_common (n : Z) (counter : list (list N * Z)) : list (list N * Z) :=
  take (Z.to_nat n) (foldr insert_by_count [] counter).

(** [collect_sample_messages] *)
Definition collect_sample_messages (c : MessageCluster) (limit : Z) : list (list N) :=
  let counter := Counter ((λ msg, strip (body msg))
                            <$> filter (λ msg, strip (body msg) ≠ []) (messages c)) in
  fst <$> most_common limit counter.

(** The digits of [format(value, ",")] read from the right: a separator
    after every three digits that have a digit to their left. *)
Fixpoint group3 (sep : N) (rev_digits : list N) : list N :=
  match rev_digits with
  | d1 :: d2 :: d3 :: ((_ :: _) as rest) => d1 :: d2 :: d3 :: sep :: group3 sep rest
  | _ => rev_digits
  end.

(** [f"{value:,}"] *)
Definition format_thousands (value : Z) : list N :=
  match Z.to_int value with
  | Decimal.Pos d => reverse (group3 44%N (reverse (of_ascii (NilEmpty.string_of_uint d))))
  | Decimal.Neg d =>
      45%N :: reverse (group3 44%N (reverse (of_ascii (NilEmpty.string_of_uint d))))
  end.

(** [format_int]: [f"{value:,}".replace(",", ".")] *)
Definition format_int (value : Z) : list N :=
  (λ c, if (c =? 44)%N then 46%N else c) <$> format_thousands value.

(** The number of messages of a list with a given mapped status, and with a
    given date. *)
Definition count_status (s : list N) (ms : list Message) : Z :=
  len (filter (λ m, status_mapped m = s) ms).

Definition count_date (d : Z) (ms : list Message) : Z :=
  len (filter (λ m, date m = Some d) ms).

(** The texts that [collect_sample_messages] counts, and the number of
    occurrences of a text among them. *)
Definition stripped_bodies (c : MessageCluster) : list (list N) :=
  (λ msg, strip (body msg)) <$> filter (λ msg, strip (body msg) ≠ []) (messages c).

Definition occurrences (x : list N) (xs : list (list N)) : Z :=
  len (filter (λ y, y = x) xs).

(** The token lists that [body_template] compares: those of the members
    whose body is not blank. *)
Definition member_tokens (c : MessageCluster) : list (list (list N)) :=
  (λ msg, split (strip (body msg))) <$> filter (λ msg, strip (body msg) ≠ []) (messages c).

(** ** Words in any script *)

(** A character of a word: in the class [\w] and no white space. *)
Definition word_char {U : UnicodeData} (c : N) : Prop :=
  is_word c = true ∧ is_space c = false.

(** What the database says on text in general.  The colon and the slash
    are no word characters.  [str.lower] works on each stretch between two
    spaces by itself (the one rule that looks at the neighbours of a
    character, the final sigma, does not look across a space); it turns a
    word without U+0130 into a word; and lower-casing twice is lower-casing
    once. *)
Class UnicodeWords (U : UnicodeData) : Prop := {
  colon_no_word : isalnum 58%N = false;
  slash_no_word : isalnum 47%N = false;
  lower_empty : lower [] = [];
  lower_at_space : ∀ s1 s2, lower (s1 ++ 32%N :: s2) = lower s1 ++ 32%N :: lower s2;
  lower_of_word : ∀ s, s ≠ [] → Forall (λ c, word_char c ∧ c ≠ 304%N) s →
                       lower s ≠ [] ∧ Forall word_char (lower s);
  lower_idempotent : ∀ s, lower (lower s) = lower s
}.

(** The shape of a normalized body in any script: words separated by single
    spaces. *)
Definition word_normal {U : UnicodeData} (y : list N) : Prop :=
  Forall (λ c, word_char c ∨ c = 32%N) y ∧ single_spaced y
  ∧ head y ≠ Some 32%N ∧ last y ≠ Some 32%N.

(** * Properties *)

Import SequenceMatcher.

(** ** Rounding to the nearest float *)

Lemma rne_bounds (x : Q) : Qfloor x <= rne x <= Qfloor x + 1.
Proof.
  unfold rne. destruct (_ ?= _)%Q; [destruct (Z.even _)|..]; lia.
Qed.

Lemma rne_proper (x y : Q) : (x == y)%Q → rne x = rne y.
Proof.
  intros H. unfold rne. rewrite (Qfloor_comp _ _ H).
  assert ((x - inject_Z (Qfloor y) ?= 1 # 2) = (y - inject_Z (Qfloor y) ?= 1 # 2))%Q as ->;
    [|done].
  apply Qcompare_comp; [|reflexivity]. by rewrite H.
Qed.

Lemma rne_Z (k : Z) : rne (inject_Z k) = k.
Proof.
  unfold rne. rewrite Qfloor_Z.
  assert ((inject_Z k - inject_Z k ?= 1 # 2) = Lt)%Q as ->; [|done].
  apply Qlt_alt. unfold Qminus. by rewrite Qplus_opp_r.
Qed.

Lemma rne_mono (x y : Q) : (x <= y)%Q → rne x <= rne y.
Proof.
  intros Hxy. pose proof (Qfloor_resp_le _ _ Hxy) as Hf.
  pose proof (rne_bounds x). pose proof (rne_bounds y).
  destruct (decide (Qfloor x = Qfloor y)) as [E|]; [|lia].
  unfold rne in *. rewrite <- E in *. clear E H H0 Hf.
  generalize dependent (inject_Z (Qfloor x)). intros f.
  destruct (Qcompare_spec (x - f) (1 # 2)) as [Hx|Hx|Hx];
    destruct (Qcompare_spec (y - f) (1 # 2)) as [Hy|Hy|Hy];
    try destruct (Z.even (Qfloor x)); try lia; exfalso; lra.
Qed.

Lemma pow2_pos (z : Z) : (0 < 2 ^ z)%Q.
Proof. by apply Qpower_0_lt. Qed.

Lemma pow2_add (a b : Z) : (2 ^ (a + b) == 2 ^ a * 2 ^ b)%Q.
Proof. by apply Qpower_plus. Qed.

Lemma pow2_le (a b : Z) : a <= b → (2 ^ a <= 2 ^ b)%Q.
Proof. intros H. by apply Qpower_le_compat_l. Qed.

Lemma pow2_Z (z : Z) : 0 <= z → (2 ^ z == inject_Z (2 ^ z))%Q.
Proof. intros H. symmetry. by apply (Zpower_Qpower 2). Qed.

Lemma pow2_lt_inv (a b : Z) : (2 ^ a < 2 ^ b)%Q → a < b.
Proof. intros H. by apply (Qpower_lt_compat_l_inv 2). Qed.

Lemma pow2_sub (k m : Z) :
  0 <= k → 0 <= m → (2 ^ (k - m) == inject_Z (2 ^ k) / inject_Z (2 ^ m))%Q.
Proof.
  intros Hk Hm. replace (k - m) with (k + - m) by lia.
  rewrite pow2_add, Qpower_opp, !pow2_Z by lia. reflexivity.
Qed.

Lemma ilog2_spec (x : Q) : (0 < x)%Q → (2 ^ ilog2 x <= x ∧ x < 2 ^ (ilog2 x + 1))%Q.
Proof.
  intros Hx. destruct x as [n d]. unfold ilog2. cbn [Qnum Qden].
  assert (0 < n) as Hn. { unfold Qlt in Hx. simpl in Hx. lia. }
  set (a := Z.log2 n). set (b := Z.log2 (Z.pos d)).
  pose proof (Z.log2_spec n Hn) as Ha. fold a in Ha.
  pose proof (Z.log2_spec (Z.pos d) eq_refl) as Hb. fold b in Hb.
  pose proof (Z.log2_nonneg n) as Ha0. fold a in Ha0.
  pose proof (Z.log2_nonneg (Z.pos d)) as Hb0. fold b in Hb0.
  rewrite Z.pow_succ_r in Ha, Hb by done.
  assert (0 < 2 ^ a) as Ha1 by (apply Z.pow_pos_nonneg; lia).
  assert (0 < 2 ^ b) as Hb1 by (apply Z.pow_pos_nonneg; lia).
  assert (n # d < 2 ^ (a - b + 1))%Q as Hup.
  { replace (a - b + 1) with (a + 1 - b) by lia. rewrite pow2_sub by lia.
    apply Qlt_shift_div_l; [unfold Qlt; simpl; lia|]. unfold Qlt, Qmult. simpl.
    rewrite Z.mul_1_r, Z.pow_add_r, Z.pow_1_r by lia. nia. }
  assert (2 ^ (a - b - 1) <= n # d)%Q as Hlow.
  { replace (a - b - 1) with (a - (b + 1)) by lia. rewrite pow2_sub by lia.
    assert (0 < 2 ^ (b + 1)) as Hb2 by (apply Z.pow_pos_nonneg; lia).
    apply Qle_shift_div_r; [unfold Qlt; simpl; lia|]. unfold Qle, Qmult. simpl.
    rewrite Z.mul_1_r, Z.pow_add_r, Z.pow_1_r by lia. nia. }
  destruct (Qle_bool (2 ^ (a - b)) (n # d)) eqn:E.
  - apply Qle_bool_iff in E. done.
  - split; [done|]. replace (a - b - 1 + 1) with (a - b) by lia.
    apply Qnot_le_lt. intros H%Qle_bool_iff. congruence.
Qed.

Lemma fl_pos_eq (x : Q) :
  (fl_pos x == inject_Z (rne (x / 2 ^ (Z.max (ilog2 x) (-1022) - 52)))
               * 2 ^ (Z.max (ilog2 x) (-1022) - 52))%Q.
Proof. unfold fl_pos. apply Qred_correct. Qed.

Lemma fl_pos_nonneg (x : Q) : (0 <= x)%Q → (0 <= fl_pos x)%Q.
Proof.
  intros Hx. rewrite fl_pos_eq. apply Qmult_le_0_compat; [|apply Qlt_le_weak, pow2_pos].
  rewrite <- (rne_Z 0) at 1.
  assert (rne (inject_Z 0) <= rne (x / 2 ^ (Z.max (ilog2 x) (-1022) - 52))) as H.
  { apply rne_mono. apply Qle_shift_div_l; [apply pow2_pos|]. by rewrite Qmult_0_l. }
  unfold Qle. simpl. lia.
Qed.

Lemma fl_pos_mono (x y : Q) : (0 < x)%Q → (x <= y)%Q → (fl_pos x <= fl_pos y)%Q.
Proof.
  intros Hx Hxy. assert (0 < y)%Q as Hy by lra.
  destruct (ilog2_spec x Hx) as [Hx1 Hx2]. destruct (ilog2_spec y Hy) as [Hy1 Hy2].
  assert (ilog2 x <= ilog2 y) as He.
  { assert (ilog2 x < ilog2 y + 1); [|lia]. apply pow2_lt_inv. lra. }
  rewrite !fl_pos_eq.
  set (ex := Z.max (ilog2 x) (-1022)). set (ey := Z.max (ilog2 y) (-1022)).
  pose proof (pow2_pos (ex - 52)) as Hux. pose proof (pow2_pos (ey - 52)) as Huy.
  destruct (decide (ex = ey)) as [E|E].
  - rewrite E. apply Qmult_le_compat_r; [|lra].
    assert (rne (x / 2 ^ (ey - 52)) <= rne (y / 2 ^ (ey - 52))) as H.
    { apply rne_mono. apply Qmult_le_compat_r; [done|].
      apply Qlt_le_weak, Qinv_lt_0_compat, pow2_pos. }
    unfold Qle. simpl. lia.
  - assert (ex < ey) as Hlt by lia. assert (ey = ilog2 y) as Ey by lia.
    apply Qle_trans with (2 ^ ey)%Q.
    + apply Qle_trans with (2 ^ (ex + 1))%Q; [|apply pow2_le; lia].
      assert (2 ^ (ex + 1) == inject_Z (2 ^ 53) * 2 ^ (ex - 52))%Q as ->.
      { rewrite <- pow2_Z, <- pow2_add by lia. by replace (53 + (ex - 52)) with (ex + 1) by lia. }
      apply Qmult_le_compat_r; [|lra].
      assert (rne (x / 2 ^ (ex - 52)) <= 2 ^ 53) as H.
      { rewrite <- (rne_Z (2 ^ 53)). apply rne_mono.
        apply Qle_shift_div_r; [done|].
        rewrite <- pow2_Z, <- pow2_add by lia.
        replace (53 + (ex - 52)) with (ex + 1) by lia.
        apply Qle_trans with (2 ^ (ilog2 x + 1))%Q; [lra|apply pow2_le; lia]. }
      unfold Qle. simpl. lia.
    + assert (2 ^ ey == inject_Z (2 ^ 52) * 2 ^ (ey - 52))%Q as ->.
      { rewrite <- pow2_Z, <- pow2_add by lia. by replace (52 + (ey - 52)) with ey by lia. }
      apply Qmult_le_compat_r; [|lra].
      assert (2 ^ 52 <= rne (y / 2 ^ (ey - 52))) as H.
      { rewrite <- (rne_Z (2 ^ 52)) at 1. apply rne_mono.
        apply Qle_shift_div_l; [done|].
        rewrite <- pow2_Z, <- pow2_add by lia.
        replace (52 + (ey - 52)) with ey by lia. rewrite Ey. done. }
      unfold Qle. simpl. lia.
Qed.

Lemma fl_proper (x y : Q) : (x == y)%Q → fl x = fl y.
Proof. intros H. unfold fl. by rewrite (Qred_complete _ _ H). Qed.

Lemma fl_sign (x : Q) :
  (x == 0 ∧ fl x = 0)%Q
  ∨ (0 < x ∧ fl x = fl_pos (Qred x))%Q
  ∨ (x < 0 ∧ fl x = - fl_pos (- Qred x))%Q.
Proof.
  unfold fl. pose proof (Qred_correct x) as H. destruct (Qred x) as [n d] eqn:E.
  cbn [Qnum]. destruct n as [|p|p].
  - left. split; [|done]. rewrite <- H. done.
  - right. left. split; [|done]. rewrite <- H. done.
  - right. right. split; [|done]. rewrite <- H. done.
Qed.

(** Rounding is monotone. *)
Lemma fl_mono (x y : Q) : (x <= y)%Q → (fl x <= fl y)%Q.
Proof.
  intros Hxy.
  pose proof (Qred_correct x) as Hrx. pose proof (Qred_correct y) as Hry.
  destruct (fl_sign x) as [[Hx ->]|[[Hx ->]|[Hx ->]]];
    destruct (fl_sign y) as [[Hy ->]|[[Hy ->]|[Hy ->]]]; try (exfalso; lra).
  - apply Qle_refl.
  - apply fl_pos_nonneg. lra.
  - apply fl_pos_mono; lra.
  - assert (0 <= fl_pos (- Qred x))%Q by (apply fl_pos_nonneg; lra). lra.
  - assert (0 <= fl_pos (- Qred x))%Q by (apply fl_pos_nonneg; lra).
    assert (0 <= fl_pos (Qred y))%Q by (apply fl_pos_nonneg; lra). lra.
  - apply Qopp_le_compat. apply fl_pos_mono; lra.
Qed.

Lemma fl_1 : fl 1 = 1%Q.
Proof. reflexivity. Qed.

(** ** Examples *)

(** The ratios of [difflib] on small inputs. *)
Example ratio_abcd_bcde :
  ratio (of_ascii "abcd") (of_ascii "bcde") = (3 # 4)%Q
  ∧ quick_ratio (of_ascii "abcd") (of_ascii "bcde") = (3 # 4)%Q
  ∧ real_quick_ratio (of_ascii "abcd") (of_ascii "bcde") = 1%Q.
Proof. split_and!; by vm_compute. Qed.

(** The floats of the length test: [0.15] and [0.45] are not the rationals
    15/100 and 45/100, their difference is the float above [0.3], and so
    at the threshold [0.45] a pair of lengths 3 and 10 is skipped. *)
Example float_length_test :
  fl (15 # 100) = (5404319552844595 # 36028797018963968)%Q
  ∧ fl (45 # 100) = (8106479329266893 # 18014398509481984)%Q
  ∧ fl (3 # 10) = (5404319552844595 # 18014398509481984)%Q
  ∧ fl (fl (45 # 100) - fl (15 # 100)) = (1351079888211149 # 4503599627370496)%Q
  ∧ length_skip (of_ascii "abc") (of_ascii "abcdefghij") (fl (45 # 100)) = true.
Proof. split_and!; by vm_compute. Qed.

Example matching_blocks_abxcd_abcd :
  get_matching_blocks (of_ascii "abxcd") (of_ascii "abcd")
  = [mkMatch 0 0 2; mkMatch 3 2 2; mkMatch 5 4 0].
Proof. by vm_compute. Qed.

(** The messages of the examples carry the normalized body that
    [normalize_body] computes from their raw body. *)
Example msg_of_normalized :
  Forall (λ m, normalize_body (U := excerpt) (body m) = body_normalized m)
    [msg_of "Buy now: http://x.co/a1" "buy now"; msg_of "Buy now!" "buy now";
     msg_of "Buy nowadays" "buy nowadays"; msg_of "!!!" ""; msg_of "???" "";
     msg_of "Promo A: http://x.co/a" "promo a"; msg_of "PROMO B!" "promo b";
     msg_of "promo b" "promo b";
     msg_of "zzzdefgzzz" "zzzdefgzzz"; msg_of "abcdefghij" "abcdefghij";
     msg_of "abcdefxxxx" "abcdefxxxx"; msg_of "yyyyefghij" "yyyyefghij"].
Proof. repeat constructor. Qed.

(** Three messages that differ in their link only: one cluster of three,
    shown with the varying link as placeholder. *)
Example buy_now_scenario :
  let ms := [msg_of "Buy now: http://x.co/a1" "buy now";
             msg_of "Buy now: http://x.co/b2" "buy now";
             msg_of "Buy now: http://x.co/c3" "buy now"] in
  cluster_messages ms (fl (7 # 10)) = [mkCluster (of_ascii "buy now") (of_ascii "Buy now: http://x.co/a1") ms]
  ∧ sanitize_template (mkCluster (of_ascii "buy now") (of_ascii "Buy now: http://x.co/a1") ms)
    = of_ascii "Buy now: {variavel}".
Proof. split; by vm_compute. Qed.

(** ** Facts on indexing and on [find_longest_match] *)

Lemma len_app {A} (l k : list A) : len (l ++ k) = len l + len k.
Proof. unfold len. rewrite length_app. lia. Qed.

Lemma len_nonneg {A} (l : list A) : 0 <= len l.
Proof. unfold len. lia. Qed.

Lemma item_Some {A} (s : list A) i x :
  item s i = Some x ↔ 0 <= i ∧ s !! Z.to_nat i = Some x.
Proof.
  unfold item. destruct (Z.ltb_spec i 0); split; try (intros [? ?]); try done; try lia.
Qed.

Lemma item_lt_len {A} (s : list A) i x : item s i = Some x → 0 <= i < len s.
Proof.
  intros [? H]%item_Some. apply lookup_lt_Some in H. unfold len. lia.
Qed.

Lemma item_is_Some {A} (s : list A) i : 0 <= i < len s → is_Some (item s i).
Proof.
  intros [? ?]. unfold item. destruct (Z.ltb_spec i 0); [lia|].
  apply lookup_lt_is_Some. unfold len in *. lia.
Qed.

Lemma item_app_l {A} (s t : list A) i : i < len s → item (s ++ t) i = item s i.
Proof.
  intros. unfold item. destruct (Z.ltb_spec i 0); [done|].
  apply lookup_app_l. unfold len in *. lia.
Qed.

Lemma item_app_last {A} (s : list A) x : item (s ++ [x]) (len s) = Some x.
Proof.
  unfold item, len. destruct (Z.ltb_spec (Z.of_nat (length s)) 0); [lia|].
  rewrite Nat2Z.id. by rewrite lookup_app_r, Nat.sub_diag.
Qed.

Lemma enumerate_snoc {A} (l : list A) x :
  enumerate (l ++ [x]) = enumerate l ++ [(len l, x)].
Proof.
  unfold enumerate. rewrite len_app. change (len [x]) with 1.
  rewrite seqZ_app by (pose proof (len_nonneg l); lia).
  rewrite zip_with_app by (rewrite length_seqZ; unfold len; lia).
  done.
Qed.

Lemma filter_ext_elem_of {A} (P Q : A → Prop) `{!∀ x, Decision (P x), !∀ x, Decision (Q x)}
    (l : list A) :
  (∀ x, x ∈ l → P x ↔ Q x) → filter P l = filter Q l.
Proof.
  induction l as [|y l IH]; intros Hl; [done|].
  rewrite !filter_cons. rewrite IH by (intros; apply Hl; by right).
  assert (P y ↔ Q y) as Hy by (apply Hl; by left).
  destruct (decide (P y)), (decide (Q y)); tauto || done.
Qed.

Lemma positions_snoc b e x :
  positions (b ++ [e]) x = positions b x ++ (if decide (e = x) then [len b] else []).
Proof.
  unfold positions. rewrite len_app. change (len [e]) with 1.
  rewrite seqZ_app by (pose proof (len_nonneg b); lia).
  rewrite filter_app. f_equal.
  - apply filter_ext_elem_of. intros j Hj%elem_of_seqZ.
    rewrite item_app_l by lia. done.
  - change (seqZ (0 + len b) 1) with [len b].
    rewrite filter_cons, filter_nil. rewrite item_app_last.
    destruct (decide (e = x)); subst.
    + rewrite decide_True; done.
    + rewrite decide_False; congruence.
Qed.

Lemma chain_b_lookup b x : default [] (chain_b b !! x) = positions b x.
Proof.
  induction b as [|e b IH] using rev_ind.
  - done.
  - unfold chain_b. rewrite enumerate_snoc, fold_left_app. simpl.
    fold (chain_b b). rewrite positions_snoc.
    destruct (decide (e = x)) as [->|Hne].
    + rewrite lookup_insert_eq. simpl. by rewrite IH.
    + rewrite lookup_insert_ne by done. rewrite IH. by rewrite app_nil_r.
Qed.

Lemma elem_of_positions b x j : j ∈ positions b x ↔ item b j = Some x.
Proof.
  unfold positions. rewrite list_elem_of_filter, elem_of_seqZ. split; [tauto|].
  intros H. split; [done|]. apply item_lt_len in H. lia.
Qed.

Lemma valid_match_mono a b alo ahi ahi' blo bhi m :
  ahi <= ahi' → valid_match a b alo ahi blo bhi m → valid_match a b alo ahi' blo bhi m.
Proof. unfold valid_match. intros ? (?&?&?&?&?&?). repeat split; auto with lia. Qed.

Lemma flm_inner_valid a b alo ahi blo bhi i j2len js newj2len best :
  alo <= i < ahi →
  (∀ j, j ∈ js → item a i = item b j) →
  j2len_ok a b alo blo bhi (i - 1) j2len →
  j2len_ok a b alo blo bhi i newj2len →
  valid_match a b alo ahi blo bhi best →
  let r := flm_inner i blo bhi j2len js newj2len best in
  j2len_ok a b alo blo bhi i (fst r) ∧ valid_match a b alo ahi blo bhi (snd r).
Proof.
  intros Hi. revert newj2len best.
  induction js as [|j js IH]; intros newj2len best Hjs Hprev Hnew Hbest; simpl; [done|].
  assert (∀ j', j' ∈ js → item a i = item b j') as Hjs' by (intros; apply Hjs; by right).
  destruct (Z.ltb_spec j blo); [by apply IH|].
  destruct (Z.geb_spec j bhi); [done|].
  assert (Hk : 1 <= default 0 (j2len !! (j - 1)) + 1 ∧
     valid_match a b alo (i + 1) blo bhi
       (mkMatch (i - (default 0 (j2len !! (j - 1)) + 1) + 1)
                (j - (default 0 (j2len !! (j - 1)) + 1) + 1)
                (default 0 (j2len !! (j - 1)) + 1))).
  { destruct (j2len !! (j - 1)) as [k0|] eqn:Hk0; simpl.
    - destruct (Hprev _ _ Hk0) as [? (?&?&?&?&?&Heq)]. simpl in *.
      split; [lia|]. unfold valid_match; simpl. repeat split; try lia.
      intros d Hd. destruct (decide (d = k0)) as [->|].
      + replace (i - (k0 + 1) + 1 + k0) with i by lia.
        replace (j - (k0 + 1) + 1 + k0) with j by lia. apply Hjs. by left.
      + specialize (Heq d ltac:(lia)).
        replace (i - (k0 + 1) + 1 + d) with (i - 1 - k0 + 1 + d) by lia.
        replace (j - (k0 + 1) + 1 + d) with (j - 1 - k0 + 1 + d) by lia. done.
    - split; [lia|]. unfold valid_match; simpl. repeat split; try lia.
      intros d Hd. replace d with 0 by lia.
      replace (i - (0 + 1) + 1 + 0) with i by lia.
      replace (j - (0 + 1) + 1 + 0) with j by lia.
      apply Hjs. by left. }
  set (k := default 0 (j2len !! (j - 1)) + 1) in *.
  apply IH; [done|done| |].
  - intros j' k' Hl. destruct (decide (j = j')) as [->|].
    + rewrite lookup_insert_eq in Hl. by inversion Hl; subst.
    + rewrite lookup_insert_ne in Hl by done. by apply Hnew.
  - destruct (Z.gtb_spec k (m_size best)); [|done].
    apply (valid_match_mono _ _ _ (i + 1)); [lia|]. apply Hk.
Qed.

Lemma flm_rows_valid a b alo ahi blo bhi n lo st :
  (∀ x j, j ∈ default [] (chain_b b !! x) → item b j = Some x) →
  0 <= alo → alo <= lo → lo + Z.of_nat n <= ahi → ahi <= len a →
  j2len_ok a b alo blo bhi (lo - 1) (fst st) →
  valid_match a b alo ahi blo bhi (snd st) →
  valid_match a b alo ahi blo bhi
    (snd (fold_left (flm_row a (chain_b b) blo bhi) (seqZ lo (Z.of_nat n)) st)).
Proof.
  intros Hb2j. revert lo st. induction n as [|n IH]; intros lo st H0 Hlo Hhi Hlen Hj Hbest.
  - done.
  - rewrite seqZ_cons by lia. 
    replace (Z.pred (Z.of_nat (S n))) with (Z.of_nat n) by lia. simpl.
    assert (alo <= lo < ahi) as Hi by lia.
    assert (is_Some (item a lo)) as [x Hx] by (apply item_is_Some; lia).
    pose proof (flm_inner_valid a b alo ahi blo bhi lo (fst st)
                  (default [] (chain_b b !! x)) ∅ (snd st) Hi) as Hinner.
    simpl in Hinner. destruct Hinner as [Hj' Hbest']; [| done | | done |].
    { intros j Hjx. rewrite Hx. symmetry. by apply Hb2j. }
    { intros j k Hl. by rewrite lookup_empty in Hl. }
    apply IH; try lia.
    + unfold flm_row. rewrite Hx.
      replace (Z.succ lo - 1) with lo by lia. done.
    + unfold flm_row. rewrite Hx. done.
Qed.

Lemma extend_left_valid a b alo ahi blo bhi fuel m :
  0 <= alo → 0 <= blo →
  valid_match a b alo ahi blo bhi m →
  valid_match a b alo ahi blo bhi (extend_left fuel a b alo blo m).
Proof.
  intros Ha Hb. revert m. induction fuel as [|fuel IH]; intros m Hm; simpl; [done|].
  destruct (Z.gtb_spec (m_a m) alo); simpl; [|done].
  destruct (Z.gtb_spec (m_b m) blo); simpl; [|done].
  case_bool_decide as Heq; simpl; [|done].
  apply IH. destruct Hm as (?&?&?&?&?&Hd). unfold valid_match; simpl.
  repeat split; try lia. intros d Hdr.
  destruct (decide (d = 0)) as [->|].
  - by rewrite !Z.add_0_r.
  - specialize (Hd (d - 1) ltac:(lia)).
    replace (m_a m - 1 + d) with (m_a m + (d - 1)) by lia.
    replace (m_b m - 1 + d) with (m_b m + (d - 1)) by lia. done.
Qed.

Lemma extend_right_valid a b alo ahi blo bhi fuel m :
  valid_match a b alo ahi blo bhi m →
  valid_match a b alo ahi blo bhi (extend_right fuel a b ahi bhi m).
Proof.
  revert m. induction fuel as [|fuel IH]; intros m Hm; simpl; [done|].
  destruct (Z.ltb_spec (m_a m + m_size m) ahi); simpl; [|done].
  destruct (Z.ltb_spec (m_b m + m_size m) bhi); simpl; [|done].
  case_bool_decide as Heq; simpl; [|done].
  apply IH. destruct Hm as (?&?&?&?&?&Hd). unfold valid_match; simpl.
  repeat split; try lia. intros d Hdr.
  destruct (decide (d = m_size m)) as [->|]; [done|]. apply Hd. lia.
Qed.

Lemma chain_b_sound b x j : j ∈ default [] (chain_b b !! x) → item b j = Some x.
Proof. rewrite chain_b_lookup. apply elem_of_positions. Qed.

Lemma find_longest_match_valid a b alo ahi blo bhi :
  0 <= alo <= ahi → ahi <= len a → 0 <= blo <= bhi →
  valid_match a b alo ahi blo bhi (find_longest_match a b (chain_b b) alo ahi blo bhi).
Proof.
  intros Ha Hla Hb. unfold find_longest_match.
  pose proof (flm_rows_valid a b alo ahi blo bhi (Z.to_nat (ahi - alo)) alo
                (∅, mkMatch alo blo 0) (chain_b_sound b)) as H.
  rewrite Z2Nat.id in H by lia. fold (range alo ahi) in H.
  destruct (fold_left _ (range alo ahi) _) as [j2len best]. simpl in H.
  apply extend_right_valid, extend_left_valid; try lia.
  apply H; try lia.
  - intros j k Hl. by rewrite lookup_empty in Hl.
  - unfold valid_match; simpl. repeat split; lia.
Qed.

(** ** The two closing loops of [find_longest_match] *)

(** With the iterations granted, each loop stops because its condition has
    become false. *)
Lemma extend_left_done fuel a b alo blo m :
  (Z.to_nat (m_a m - alo) <= fuel)%nat →
  let r := extend_left fuel a b alo blo m in
  (m_a r >? alo) && (m_b r >? blo)
  && bool_decide (item a (m_a r - 1) = item b (m_b r - 1)) = false.
Proof.
  revert m. induction fuel as [|fuel IH]; intros m Hf; cbv zeta.
  - simpl. destruct (Z.gtb_spec (m_a m) alo); [lia|done].
  - simpl. destruct ((m_a m >? alo) && (m_b m >? blo)
                     && bool_decide (item a (m_a m - 1) = item b (m_b m - 1))) eqn:E; [|done].
    apply IH. simpl. lia.
Qed.

Lemma extend_right_done fuel a b ahi bhi m :
  (Z.to_nat (ahi - (m_a m + m_size m)) <= fuel)%nat →
  let r := extend_right fuel a b ahi bhi m in
  (m_a r + m_size r <? ahi) && (m_b r + m_size r <? bhi)
  && bool_decide (item a (m_a r + m_size r) = item b (m_b r + m_size r)) = false.
Proof.
  revert m. induction fuel as [|fuel IH]; intros m Hf; cbv zeta.
  - simpl. destruct (Z.ltb_spec (m_a m + m_size m) ahi); [lia|done].
  - simpl. destruct ((m_a m + m_size m <? ahi) && (m_b m + m_size m <? bhi)
                     && bool_decide (item a (m_a m + m_size m) = item b (m_b m + m_size m)))
      eqn:E; [|done].
    apply IH. simpl. lia.
Qed.

(** ** Slices and occurrence counts *)

Lemma slice_split {A} (s : list A) lo mid hi :
  0 <= lo <= mid → mid <= hi → slice s lo hi = slice s lo mid ++ slice s mid hi.
Proof.
  intros ??. unfold slice.
  replace (Z.to_nat (hi - lo)) with (Z.to_nat (mid - lo) + Z.to_nat (hi - mid))%nat by lia.
  rewrite <- take_take_drop, drop_drop.
  by replace (Z.to_nat lo + Z.to_nat (mid - lo))%nat with (Z.to_nat mid) by lia.
Qed.

Lemma slice_full {A} (s : list A) : slice s 0 (len s) = s.
Proof. unfold slice, len. simpl. rewrite drop_0. apply take_ge. lia. Qed.

Lemma length_slice {A} (s : list A) lo hi :
  0 <= lo <= hi → hi <= len s → Z.of_nat (length (slice s lo hi)) = hi - lo.
Proof.
  intros ??. unfold slice, len in *. rewrite length_take, length_drop. lia.
Qed.

Lemma slice_lookup {A} (s : list A) lo hi n :
  0 <= lo → Z.of_nat n < hi - lo → slice s lo hi !! n = item s (lo + Z.of_nat n).
Proof.
  intros ??. unfold slice, item.
  destruct (Z.ltb_spec (lo + Z.of_nat n) 0); [lia|].
  rewrite lookup_take_lt by lia. rewrite lookup_drop. f_equal. lia.
Qed.

Lemma valid_match_slices a b alo ahi blo bhi m :
  0 <= alo → 0 <= blo →
  valid_match a b alo ahi blo bhi m →
  slice a (m_a m) (m_a m + m_size m) = slice b (m_b m) (m_b m + m_size m).
Proof.
  intros ?? (?&?&?&?&?&Hd).
  apply list_eq. intros n.
  destruct (decide (Z.of_nat n < m_size m)).
  - rewrite !slice_lookup by lia. apply Hd. lia.
  - unfold slice. rewrite !lookup_take_ge; [done| lia | lia].
Qed.

Lemma cnt_nil c : cnt c [] = 0%nat.
Proof. done. Qed.

Lemma cnt_cons c x l : cnt c (x :: l) = ((if decide (x = c) then 1 else 0) + cnt c l)%nat.
Proof. unfold cnt. rewrite filter_cons. by destruct (decide (x = c)). Qed.

Lemma cnt_app c l k : cnt c (l ++ k) = (cnt c l + cnt c k)%nat.
Proof. unfold cnt. by rewrite filter_app, length_app. Qed.

#[global] Instance cnt_Permutation c : Proper ((≡ₚ) ==> (=)) (cnt c).
Proof. intros l k H. unfold cnt. by rewrite H. Qed.

Lemma cnt_pos_elem_of c l : (0 < cnt c l)%nat ↔ c ∈ l.
Proof.
  induction l as [|x l IH].
  - rewrite cnt_nil. split; [lia|]. by intros ?%elem_of_nil.
  - rewrite cnt_cons, elem_of_cons. destruct (decide (x = c)); subst.
    + split; [by left | lia].
    + rewrite <- IH. split; [intros; right; lia|]. intros [?|?]; [congruence|lia].
Qed.

(** A list whose every character occurs at least as often in [l] is no
    longer than [l]. *)
Lemma cnt_le_length s l : (∀ c, (cnt c s <= cnt c l)%nat) → (length s <= length l)%nat.
Proof.
  revert l. induction s as [|e s IH]; intros l H; simpl; [lia|].
  assert (e ∈ l) as Hel.
  { apply cnt_pos_elem_of. specialize (H e). rewrite cnt_cons, decide_True in H by done. lia. }
  apply elem_of_Permutation in Hel as [l' Hl'].
  rewrite Hl'. simpl. apply le_n_S, IH. intros c. specialize (H c).
  rewrite Hl', !cnt_cons in H. lia.
Qed.

(** ** The work list of [get_matching_blocks] *)

Lemma queue_measure_cons alo ahi blo bhi queue :
  queue_measure ((alo, ahi, blo, bhi) :: queue) = 2 * (ahi - alo) + 1 + queue_measure queue.
Proof. done. Qed.

Lemma queue_measure_nonneg a b queue :
  Forall (region_ok a b) queue → 0 <= queue_measure queue.
Proof.
  induction 1 as [|[[[alo ahi] blo] bhi] q Hr _ IH]; [done|].
  rewrite queue_measure_cons. unfold region_ok in Hr. lia.
Qed.

Lemma gmb_step_inv a b r queue blocks :
  gmb_inv a b (r :: queue) blocks →
  let res := gmb_step a b (chain_b b) r queue blocks in
  gmb_inv a b (fst res) (snd res) ∧ queue_measure (fst res) < queue_measure (r :: queue).
Proof.
  destruct r as [[[alo ahi] blo] bhi]. intros (Hq & Hb & Hc).
  apply Forall_cons in Hq as [Hr Hq]. unfold region_ok in Hr.
  pose proof (find_longest_match_valid a b alo ahi blo bhi
                ltac:(lia) ltac:(lia) ltac:(lia)) as Hx.
  unfold gmb_step. set (x := find_longest_match a b (chain_b b) alo ahi blo bhi) in *.
  pose proof Hx as (?&?&?&?&?&Hd).
  destruct (Z.eqb_spec (m_size x) 0) as [Hk|Hk]; cbn [fst snd].
  { split; [|rewrite queue_measure_cons; lia].
    split_and!; [done|done|]. intros c. destruct (Hc c) as [Hca Hcb].
    rewrite fmap_cons, concat_cons, cnt_app in Hca, Hcb. lia. }
  assert (valid_match a b 0 (len a) 0 (len b) x) as Hx'.
  { unfold valid_match. split_and!; auto with lia. }
  assert (block_a a x = block_b b x) as Hab
    by (apply (valid_match_slices a b alo ahi blo bhi); [lia|lia|done]).
  assert (Ha3 : slice a alo ahi = slice a alo (m_a x) ++ block_a a x
                 ++ slice a (m_a x + m_size x) ahi).
  { unfold block_a. rewrite <- !slice_split by lia. done. }
  assert (Hb3 : slice b blo bhi = slice b blo (m_b x) ++ block_b b x
                 ++ slice b (m_b x + m_size x) bhi).
  { unfold block_b. rewrite <- !slice_split by lia. done. }
  split.
  - split_and!.
    + destruct (Z.ltb_spec alo (m_a x)), (Z.ltb_spec blo (m_b x)),
        (Z.ltb_spec (m_a x + m_size x) ahi), (Z.ltb_spec (m_b x + m_size x) bhi);
        simpl; repeat (apply Forall_cons; split); try done; unfold region_ok; lia.
    + apply Forall_app. split; [done|]. by apply Forall_singleton.
    + intros c. destruct (Hc c) as [Hca Hcb].
      rewrite fmap_cons, concat_cons, cnt_app in Hca, Hcb.
      cbn [region_a region_b] in Hca, Hcb.
      rewrite Ha3 in Hca. rewrite Hb3 in Hcb. rewrite !cnt_app in Hca, Hcb.
      rewrite !fmap_app, !concat_app, !cnt_app.
      change (concat (block_a a <$> [x])) with (block_a a x ++ []).
      change (concat (block_b b <$> [x])) with (block_b b x ++ []).
      rewrite !app_nil_r.
      destruct (Z.ltb_spec alo (m_a x)), (Z.ltb_spec blo (m_b x)),
        (Z.ltb_spec (m_a x + m_size x) ahi), (Z.ltb_spec (m_b x + m_size x) bhi);
        cbn [andb]; rewrite ?fmap_cons, ?concat_cons, ?cnt_app; cbn [region_a region_b]; lia.
  - destruct (Z.ltb_spec alo (m_a x)), (Z.ltb_spec blo (m_b x)),
        (Z.ltb_spec (m_a x + m_size x) ahi), (Z.ltb_spec (m_b x + m_size x) bhi);
        cbn [andb]; rewrite ?queue_measure_cons; lia.
Qed.

Lemma gmb_loop_spec a b fuel queue blocks :
  gmb_inv a b queue blocks →
  queue_measure queue <= Z.of_nat fuel →
  let res := gmb_loop fuel a b (chain_b b) queue blocks in
  fst res = [] ∧ gmb_inv a b [] (snd res).
Proof.
  revert queue blocks. induction fuel as [|fuel IH]; intros queue blocks Hinv Hfuel.
  - destruct queue as [|[[[alo ahi] blo] bhi] q]; simpl; [done|].
    exfalso. destruct Hinv as (Hq & _ & _). apply Forall_cons in Hq as [Hr Hq].
    pose proof (queue_measure_nonneg _ _ _ Hq). unfold region_ok in Hr.
    rewrite queue_measure_cons in Hfuel. lia.
  - destruct queue as [|r q]; simpl; [done|].
    pose proof (gmb_step_inv a b r q blocks Hinv) as [Hinv' Hlt].
    destruct (gmb_step a b (chain_b b) r q blocks) as [q' bl']. simpl in *.
    apply IH; [done|lia].
Qed.

(** The work-list loop of [get_matching_blocks] has ended within the
    iterations granted. *)
Lemma gmb_loop_ends a b :
  fst (gmb_loop (gmb_fuel a) a b (chain_b b) [(0, len a, 0, len b)] []) = [].
Proof.
  apply gmb_loop_spec.
  - split_and!.
    + apply Forall_singleton. unfold region_ok, len. lia.
    + constructor.
    + intros c. simpl. rewrite !app_nil_r, !slice_full. lia.
  - unfold gmb_fuel, len. simpl. lia.
Qed.

(** ** The counting loop of [quick_ratio] *)

Lemma fullbcount_fold b m c :
  default 0 (fold_left fullbcount_step b m !! c) = default 0 (m !! c) + Z.of_nat (cnt c b).
Proof.
  revert m. induction b as [|e b IH]; intros m; simpl; [rewrite cnt_nil; lia|].
  rewrite IH, cnt_cons. unfold fullbcount_step.
  destruct (decide (e = c)) as [->|].
  - rewrite lookup_insert_eq. simpl. lia.
  - rewrite lookup_insert_ne by done. lia.
Qed.

Lemma fullbcount_lookup b c : default 0 (fullbcount b !! c) = Z.of_nat (cnt c b).
Proof. unfold fullbcount. rewrite fullbcount_fold, lookup_empty. simpl. lia. Qed.

Lemma avail_of_insert fbc avail e n c :
  avail_of fbc (<[e := n]> avail) c = if decide (e = c) then n else avail_of fbc avail c.
Proof.
  unfold avail_of. destruct (decide (e = c)) as [->|].
  - by rewrite lookup_insert_eq.
  - by rewrite lookup_insert_ne.
Qed.

Lemma quick_step_snd_mono fbc x st : snd st <= snd (fold_left (quick_step fbc) x st).
Proof.
  revert st. induction x as [|e x IH]; intros [avail m]; simpl; [lia|].
  etrans; [|apply IH]. simpl. destruct (_ >? 0); lia.
Qed.

(** A text all of whose characters are in [x] and still available is matched
    in full by the counting loop of [quick_ratio]. *)
Lemma quick_loop_lower fbc x s st :
  (∀ c, (cnt c s <= cnt c x)%nat) →
  (∀ c, c ∈ s → Z.of_nat (cnt c s) <= avail_of fbc (fst st) c) →
  snd st + len s <= snd (fold_left (quick_step fbc) x st).
Proof.
  revert s st. induction x as [|e x IH]; intros s [avail m] Hx Hav.
  - pose proof (cnt_le_length s [] Hx). simpl in *. unfold len. lia.
  - simpl. fold (avail_of fbc avail e). set (numb := avail_of fbc avail e).
    destruct (decide (e ∈ s)) as [Hes|Hes].
    + pose proof Hes as [s' Hs']%elem_of_Permutation.
      assert (1 <= numb).
      { specialize (Hav e Hes). apply cnt_pos_elem_of in Hes. simpl in Hav. lia. }
      destruct (Z.gtb_spec numb 0); [|lia].
      etrans; [|apply (IH s')].
      * simpl. unfold len. rewrite Hs'. simpl. lia.
      * intros c. specialize (Hx c). rewrite Hs', !cnt_cons in Hx. lia.
      * intros c Hc. simpl. rewrite avail_of_insert.
        assert (c ∈ s) as Hcs by (rewrite Hs'; by right).
        specialize (Hav c Hcs). simpl in Hav. rewrite Hs', cnt_cons in Hav.
        destruct (decide (e = c)); [subst; fold numb in Hav|]; lia.
    + assert (cnt e s = 0%nat) as He0.
      { destruct (cnt e s) eqn:E; [done|]. exfalso. apply Hes, cnt_pos_elem_of. lia. }
      etrans; [|apply (IH s)].
      * simpl. destruct (numb >? 0); lia.
      * intros c. specialize (Hx c). rewrite cnt_cons in Hx.
        destruct (decide (e = c)); [subst|]; lia.
      * intros c Hc. simpl. rewrite avail_of_insert.
        destruct (decide (e = c)); [subst; done|]. by apply Hav.
Qed.

Lemma quick_matches_lower a b s :
  (∀ c, (cnt c s <= cnt c a)%nat) → (∀ c, (cnt c s <= cnt c b)%nat) →
  len s <= quick_matches a b.
Proof.
  intros Ha Hb. unfold quick_matches.
  pose proof (quick_loop_lower (fullbcount b) a s (∅, 0) Ha) as H. simpl in H.
  apply H. intros c _. unfold avail_of. rewrite lookup_empty, fullbcount_lookup.
  specialize (Hb c). lia.
Qed.

(** ** The matches counted by [ratio] *)

Lemma sum_sizes_app l k : sum_sizes (l ++ k) = sum_sizes l + sum_sizes k.
Proof. induction l as [|x l IH]; simpl; [done|]. fold (sum_sizes (l ++ k)). fold (sum_sizes l). lia. Qed.

#[global] Instance sum_sizes_Permutation : Proper ((≡ₚ) ==> (=)) sum_sizes.
Proof.
  intros l k H. induction H as [|x l k _ IH|x y l|l k m _ IH1 _ IH2]; simpl.
  - done.
  - fold (sum_sizes l). fold (sum_sizes k). lia.
  - fold (sum_sizes l). lia.
  - congruence.
Qed.

Lemma sum_sizes_collapse cur blocks :
  sum_sizes (collapse_adjacent cur blocks) = m_size cur + sum_sizes blocks.
Proof.
  revert cur. induction blocks as [|x rest IH]; intros cur; simpl.
  - destruct (Z.eqb_spec (m_size cur) 0); simpl; lia.
  - fold (sum_sizes rest). destruct (_ && _).
    + rewrite IH. simpl. lia.
    + rewrite sum_sizes_app, IH. destruct (Z.eqb_spec (m_size cur) 0); simpl; lia.
Qed.

Lemma ratio_matches_found a b : ratio_matches a b = sum_sizes (found_blocks a b).
Proof.
  unfold ratio_matches, get_matching_blocks, found_blocks.
  destruct (gmb_loop _ _ _ _ _ _) as [q blocks]. simpl.
  rewrite sum_sizes_app, sum_sizes_collapse, merge_sort_Permutation. simpl. lia.
Qed.

Lemma found_blocks_inv a b : gmb_inv a b [] (found_blocks a b).
Proof.
  unfold found_blocks. apply gmb_loop_spec.
  - split_and!.
    + apply Forall_singleton. unfold region_ok, len. lia.
    + constructor.
    + intros c. simpl. rewrite !app_nil_r, !slice_full. lia.
  - unfold gmb_fuel, len. simpl. lia.
Qed.

Lemma sum_sizes_content a b blocks :
  Forall (valid_match a b 0 (len a) 0 (len b)) blocks →
  sum_sizes blocks = len (concat (block_a a <$> blocks))
  ∧ concat (block_a a <$> blocks) = concat (block_b b <$> blocks).
Proof.
  induction 1 as [|x l Hx _ [IH1 IH2]]; [done|].
  rewrite !fmap_cons, !concat_cons, len_app. simpl. fold (sum_sizes l).
  assert (block_a a x = block_b b x) as Hab
    by (apply (valid_match_slices a b 0 (len a) 0 (len b)); [lia|lia|done]).
  rewrite <- Hab, <- IH2, <- IH1. split; [|done].
  destruct Hx as (?&?&?&?&?&?). unfold block_a, len at 1.
  rewrite length_slice; lia.
Qed.

(** The matches of [ratio] are bounded by those of [quick_ratio] and of
    [real_quick_ratio]. *)
Lemma ratio_matches_bounds a b :
  0 <= ratio_matches a b ∧ ratio_matches a b <= quick_matches a b
  ∧ ratio_matches a b <= Z.min (len a) (len b).
Proof.
  rewrite ratio_matches_found.
  destruct (found_blocks_inv a b) as (_ & Hv & Hc).
  destruct (sum_sizes_content a b _ Hv) as [-> Heq].
  assert (∀ c, (cnt c (concat (block_a a <$> found_blocks a b)) <= cnt c a)%nat) as Ha.
  { intros c. destruct (Hc c) as [H _]. simpl in H. lia. }
  assert (∀ c, (cnt c (concat (block_a a <$> found_blocks a b)) <= cnt c b)%nat) as Hb.
  { intros c. destruct (Hc c) as [_ H]. rewrite <- Heq in H. simpl in H. lia. }
  split_and!.
  - apply len_nonneg.
  - by apply quick_matches_lower.
  - pose proof (cnt_le_length _ _ Ha). pose proof (cnt_le_length _ _ Hb).
    unfold len. lia.
Qed.

(** ** are_similar *)

Lemma calculate_ratio_mono m1 m2 length :
  m1 <= m2 → (calculate_ratio m1 length <= calculate_ratio m2 length)%Q.
Proof.
  intros H. unfold calculate_ratio. destruct (length =? 0); [apply Qle_refl|].
  apply fl_mono. unfold Qle. simpl. nia.
Qed.

Lemma Qltb_false_iff x y : Qltb x y = false ↔ (y <= x)%Q.
Proof. unfold Qltb. rewrite negb_false_iff. apply Qle_bool_iff. Qed.

Lemma ratio_le_quick a b : (ratio a b <= quick_ratio a b)%Q.
Proof. apply calculate_ratio_mono, ratio_matches_bounds. Qed.

Lemma ratio_le_real_quick a b : (ratio a b <= real_quick_ratio a b)%Q.
Proof. apply calculate_ratio_mono, ratio_matches_bounds. Qed.

Lemma are_similar_true a b t :
  are_similar a b t = true ↔ a ≠ [] ∧ b ≠ [] ∧ (t <= ratio a b)%Q.
Proof.
  unfold are_similar.
  destruct (decide (a = [])) as [->|Ha].
  { rewrite bool_decide_eq_true_2 by done. cbn [orb]. split; [done|]. by intros (?&_). }
  destruct (decide (b = [])) as [->|Hb].
  { rewrite (bool_decide_eq_true_2 ([] = [])) by done. rewrite orb_true_r.
    split; [done|]. by intros (_&?&_). }
  rewrite !bool_decide_eq_false_2 by done. simpl.
  destruct (Qltb (real_quick_ratio a b) t) eqn:E1.
  { split; [done|]. intros (_&_&H). apply not_false_iff_true in E1. destruct E1.
    apply Qltb_false_iff. eapply Qle_trans; [exact H|]. apply ratio_le_real_quick. }
  destruct (Qltb (quick_ratio a b) t) eqn:E2.
  { split; [done|]. intros (_&_&H). apply not_false_iff_true in E2. destruct E2.
    apply Qltb_false_iff. eapply Qle_trans; [exact H|]. apply ratio_le_quick. }
  rewrite Qle_bool_iff. tauto.
Qed.

(** C3: for non-empty [a] and [b], [are_similar a b t] holds exactly when the
    full [ratio()] of [SequenceMatcher(None, a, b, autojunk=False)] is at
    least [t]; the tests on [real_quick_ratio()] and [quick_ratio()] before it
    never change the answer. *)
Theorem C3_are_similar_iff_full_ratio (a b : list N) (t : Q) :
  a ≠ [] → b ≠ [] → (0 < t)%Q → (t <= 1)%Q →
  (are_similar a b t = true ↔ (t <= ratio a b)%Q)
  ∧ are_similar a b t = Qle_bool t (ratio a b).
Proof.
  intros Ha Hb _ _.
  assert (are_similar a b t = true ↔ (t <= ratio a b)%Q) as H.
  { rewrite are_similar_true. tauto. }
  split; [done|].
  apply eq_true_iff_eq. by rewrite H, Qle_bool_iff.
Qed.

Lemma C3_witness :
  (are_similar (of_ascii "abcd") (of_ascii "bcde") (fl (7 # 10)) = true
   ↔ (7 # 10 <= ratio (of_ascii "abcd") (of_ascii "bcde"))%Q)
  ∧ are_similar (of_ascii "abcd") (of_ascii "bcde") (fl (7 # 10))
    = Qle_bool (fl (7 # 10)) (ratio (of_ascii "abcd") (of_ascii "bcde")).
Proof.
  apply (C3_are_similar_iff_full_ratio (of_ascii "abcd") (of_ascii "bcde") (fl (7 # 10)));
    [done | done | reflexivity | by vm_compute].
Defined.

(** ** A string against itself *)

Lemma flm_inner_app i blo bhi j2len js1 js2 newj2len best :
  (∀ j, j ∈ js1 → j < bhi) →
  flm_inner i blo bhi j2len (js1 ++ js2) newj2len best
  = flm_inner i blo bhi j2len js2
      (fst (flm_inner i blo bhi j2len js1 newj2len best))
      (snd (flm_inner i blo bhi j2len js1 newj2len best)).
Proof.
  revert newj2len best. induction js1 as [|j js1 IH]; intros newj2len best H; simpl; [done|].
  assert (∀ j', j' ∈ js1 → j' < bhi) by (intros; apply H; by right).
  destruct (j <? blo); [by apply IH|].
  destruct (Z.geb_spec j bhi); [|by apply IH].
  specialize (H j ltac:(by left)). lia.
Qed.

(** Positions whose block cannot beat the best one leave it unchanged. *)
Lemma flm_inner_no_update i bhi j2len js newj2len best bound :
  (∀ j, j ∈ js → 0 <= j < bhi ∧ j ≠ i ∧ default 0 (j2len !! (j - 1)) + 1 <= m_size best) →
  (∀ j k, j2len !! j = Some k → 1 <= k ∧ k <= bound ∧ k <= j + 1) →
  (∀ j k, newj2len !! j = Some k → 1 <= k ∧ k <= bound + 1 ∧ k <= j + 1) →
  0 <= bound →
  let r := flm_inner i 0 bhi j2len js newj2len best in
  snd r = best ∧ fst r !! i = newj2len !! i
  ∧ ∀ j k, fst r !! j = Some k → 1 <= k ∧ k <= bound + 1 ∧ k <= j + 1.
Proof.
  intros Hjs Hprev. revert newj2len.
  induction js as [|j js IH]; intros newj2len Hnew Hbound; simpl; [done|].
  destruct (Hjs j ltac:(by left)) as (Hj & Hne & Hk).
  destruct (Z.ltb_spec j 0) as [?|_]; [lia|]. destruct (Z.geb_spec j bhi) as [?|_]; [lia|].
  destruct (Z.gtb_spec (default 0 (j2len !! (j - 1)) + 1) (m_size best)) as [?|_]; [lia|].
  destruct (IH ltac:(intros; apply Hjs; by right) (<[j := default 0 (j2len !! (j - 1)) + 1]> newj2len))
    as (R1 & R2 & R3); [|done|].
  { intros j' k'. destruct (decide (j = j')) as [->|].
    - rewrite lookup_insert_eq. intros [= <-].
      destruct (j2len !! (j' - 1)) as [k0|] eqn:E; simpl; [|lia].
      apply Hprev in E. lia.
    - rewrite lookup_insert_ne by done. apply Hnew. }
  split_and!; [done| |done]. by rewrite R2, lookup_insert_ne.
Qed.

Lemma positions_split b x i :
  item b i = Some x →
  positions b x = filter (λ j, item b j = Some x) (seqZ 0 i) ++ i ::
                  filter (λ j, item b j = Some x) (seqZ (i + 1) (len b - i - 1)).
Proof.
  intros Hi. pose proof (item_lt_len _ _ _ Hi). unfold positions.
  replace (len b) with (i + (1 + (len b - i - 1))) at 1 by lia.
  rewrite seqZ_app by lia. rewrite filter_app. f_equal.
  rewrite seqZ_app by lia. rewrite filter_app.
  change (seqZ (0 + i) 1) with [0 + i]. rewrite Z.add_0_l.
  rewrite filter_cons_True by done. rewrite filter_nil. done.
Qed.

(** One row of the search of [x] against itself: the diagonal grows by one. *)
Lemma flm_row_diag x i j2len :
  0 <= i < len x →
  (∀ j k, j2len !! j = Some k → 1 <= k ∧ k <= i ∧ k <= j + 1) →
  (0 < i → j2len !! (i - 1) = Some i) →
  let r := flm_row x (chain_b x) 0 (len x) (j2len, mkMatch 0 0 i) i in
  snd r = mkMatch 0 0 (i + 1) ∧ fst r !! i = Some (i + 1)
  ∧ ∀ j k, fst r !! j = Some k → 1 <= k ∧ k <= i + 1 ∧ k <= j + 1.
Proof.
  intros Hi Hprev Hdiag. unfold flm_row. cbn [fst snd].
  destruct (item_is_Some x i Hi) as [c Hc]. rewrite Hc, chain_b_lookup.
  rewrite (positions_split x c i Hc).
  set (js1 := filter _ (seqZ 0 i)). set (js2 := filter _ (seqZ (i + 1) _)).
  assert (Hk : ∀ j, default 0 (j2len !! (j - 1)) + 1 <= i + 1
                 ∧ (0 <= j → default 0 (j2len !! (j - 1)) + 1 <= j + 1)).
  { intros j. destruct (j2len !! (j - 1)) as [k0|] eqn:E; simpl; [|lia].
    apply Hprev in E. lia. }
  rewrite flm_inner_app.
  2:{ intros j [_ Hj%elem_of_seqZ]%list_elem_of_filter. lia. }
  destruct (flm_inner_no_update i (len x) j2len js1 ∅ (mkMatch 0 0 i) i) as (E1 & E2 & E3);
    [ | done | | lia | ].
  { intros j [_ Hj%elem_of_seqZ]%list_elem_of_filter. split_and!; try lia.
    simpl. destruct (Hk j) as [_ Hkj]. specialize (Hkj ltac:(lia)). lia. }
  { intros j k. by rewrite lookup_empty. }
  rewrite E1. set (new1 := fst (flm_inner i 0 (len x) j2len js1 ∅ (mkMatch 0 0 i))) in *.
  simpl. destruct (Z.ltb_spec i 0); [lia|]. destruct (Z.geb_spec i (len x)); [lia|].
  assert (default 0 (j2len !! (i - 1)) + 1 = i + 1) as Hki.
  { destruct (decide (i = 0)) as [->|].
    - destruct (j2len !! (0 - 1)) as [k0|] eqn:E; simpl; [|done].
      apply Hprev in E. lia.
    - rewrite Hdiag by lia. done. }
  rewrite Hki. destruct (Z.gtb_spec (i + 1) i); [|lia].
  replace (i - (i + 1) + 1) with 0 by lia.
  destruct (flm_inner_no_update i (len x) j2len js2 (<[i := i + 1]> new1) (mkMatch 0 0 (i + 1)) i)
    as (F1 & F2 & F3); [ | done | | lia | ].
  { intros j [_ Hj%elem_of_seqZ]%list_elem_of_filter. split_and!; try lia.
    simpl. apply Hk. }
  { intros j k. destruct (decide (i = j)) as [->|].
    - rewrite lookup_insert_eq. intros [= <-]. lia.
    - rewrite lookup_insert_ne by done. apply E3. }
  split_and!; [done| |done]. by rewrite F2, lookup_insert_eq.
Qed.

Lemma flm_rows_diag x n lo j2len :
  0 <= lo → lo + Z.of_nat n = len x →
  (∀ j k, j2len !! j = Some k → 1 <= k ∧ k <= lo ∧ k <= j + 1) →
  (0 < lo → j2len !! (lo - 1) = Some lo) →
  snd (fold_left (flm_row x (chain_b x) 0 (len x)) (seqZ lo (Z.of_nat n))
         (j2len, mkMatch 0 0 lo)) = mkMatch 0 0 (len x).
Proof.
  revert lo j2len. induction n as [|n IH]; intros lo j2len Hlo Hn Hprev Hdiag.
  - simpl. f_equal. lia.
  - rewrite seqZ_cons by lia.
    replace (Z.pred (Z.of_nat (S n))) with (Z.of_nat n) by lia. cbn [fold_left].
    destruct (flm_row_diag x lo j2len ltac:(lia) Hprev Hdiag) as (E1 & E2 & E3).
    destruct (flm_row x (chain_b x) 0 (len x) (j2len, mkMatch 0 0 lo) lo) as [j2len' best'].
    simpl in E1, E2, E3. subst best'.
    replace (Z.succ lo) with (lo + 1) by lia.
    apply IH; try lia; [done|]. intros _. by replace (lo + 1 - 1) with lo by lia.
Qed.

Lemma find_longest_match_self x :
  find_longest_match x x (chain_b x) 0 (len x) 0 (len x) = mkMatch 0 0 (len x).
Proof.
  unfold find_longest_match, range.
  pose proof (flm_rows_diag x (length x) 0 ∅ ltac:(lia) ltac:(unfold len; lia)) as H.
  rewrite Z.sub_0_r. fold (len x) in H.
  destruct (fold_left _ _ _) as [j2len best]. simpl in H.
  rewrite H; [|intros j k; by rewrite lookup_empty|lia]. simpl.
  replace (Z.to_nat (len x - (0 + len x))) with 0%nat by lia. done.
Qed.

Lemma found_blocks_self x : sum_sizes (found_blocks x x) = len x.
Proof.
  unfold found_blocks, gmb_fuel.
  replace (2 * length x + 1)%nat with (S (2 * length x)) by lia.
  cbn [gmb_loop]. unfold gmb_step. rewrite find_longest_match_self. cbn [m_a m_b m_size].
  destruct (Z.eqb_spec (len x) 0) as [E|E].
  - destruct (2 * length x)%nat; simpl; lia.
  - change (0 <? 0) with false. rewrite Z.add_0_l, Z.ltb_irrefl. cbn [andb app].
    destruct (2 * length x)%nat; simpl; lia.
Qed.

(** The full ratio of a string against itself is 1. *)
Lemma ratio_self x : (ratio x x == 1)%Q.
Proof.
  unfold ratio. rewrite ratio_matches_found, found_blocks_self.
  unfold calculate_ratio. destruct (Z.eqb_spec (len x + len x) 0); [reflexivity|].
  pose proof (len_nonneg x). rewrite (fl_proper _ 1); [reflexivity|].
  unfold Qeq. simpl. rewrite Z2Pos.id by lia. lia.
Qed.

(** ** The search for a cluster *)

Lemma are_similar_nil_l b t : are_similar [] b t = false.
Proof. done. Qed.

Lemma scan_all_Some n t ev l id :
  scan_all n t ev l = Some id →
  ∃ c, (id, c) ∈ l ∧ (id ∉ ev) ∧ length_skip n (representative c) t = false
       ∧ are_similar n (representative c) t = true.
Proof.
  induction l as [|[id' c'] l IH]; simpl; [done|]. intros H.
  assert (scan_all n t ev l = Some id → ∃ c, (id, c) ∈ (id', c') :: l ∧ (id ∉ ev)
            ∧ length_skip n (representative c) t = false
            ∧ are_similar n (representative c) t = true) as IH'.
  { intros (c & ? & ?)%IH. exists c. split; [by right|done]. }
  case_bool_decide as Hev; [by apply IH'|].
  destruct (length_skip n (representative c') t) eqn:Hs; [by apply IH'|].
  destruct (are_similar n (representative c') t) eqn:Ha; [|by apply IH'].
  injection H as <-. exists c'. split; [by left|done].
Qed.

Lemma scan_all_nil t ev l : scan_all [] t ev l = None.
Proof.
  induction l as [|[id c] l IH]; simpl; [done|].
  by case_bool_decide.
Qed.

Lemma scan_candidates_Some cs n t cands id :
  scan_candidates cs n t cands = Some id →
  id ∈ cands ∧ are_similar n (rep_at cs id) t = true.
Proof.
  unfold scan_candidates. destruct (list_find _ cands) as [[i x]|] eqn:E; [|done].
  simpl. intros [= <-]. apply list_find_Some in E as (Hl & Hx & _).
  split; [by eapply list_elem_of_lookup_2|done].
Qed.

Lemma rep_at_ne_nil cs id : rep_at cs id ≠ [] → ∃ c, cs !! id = Some c ∧ rep_at cs id = representative c.
Proof. unfold rep_at. destruct (cs !! id) as [c|]; [eauto|done]. Qed.

Lemma find_cluster_nil st t : find_cluster st [] t = None.
Proof.
  unfold find_cluster. rewrite bool_decide_eq_false_2 by (by intros ?).
  destruct (scan_candidates _ _ _ _) as [id|] eqn:E.
  - apply scan_candidates_Some in E as [_ E]. by rewrite are_similar_nil_l in E.
  - apply scan_all_nil.
Qed.

Lemma find_cluster_Some st n t id :
  find_cluster st n t = Some id →
  n ≠ [] ∧ (exact_index st !! n = Some id
            ∨ ∃ c, clusters st !! id = Some c ∧ are_similar n (representative c) t = true).
Proof.
  intros H. assert (n ≠ []) as Hn.
  { intros ->. by rewrite find_cluster_nil in H. }
  split; [done|]. unfold find_cluster in H.
  rewrite bool_decide_eq_true_2 in H by done.
  destruct (exact_index st !! n) as [id'|]; [left; congruence|]. right.
  destruct (scan_candidates _ _ _ _) as [id'|] eqn:E.
  - injection H as ->. apply scan_candidates_Some in E as [_ E].
    destruct (rep_at_ne_nil (clusters st) id) as (c & Hc & Hr).
    { intros Hr. rewrite Hr in E. apply are_similar_true in E as (_ & ? & _). done. }
    exists c. by rewrite <- Hr.
  - apply scan_all_Some in H as (c & Hel & _ & _ & Ha).
    apply elem_of_lookup_imap in Hel as (i & c' & [= -> ->] & Hl). eauto.
Qed.

(** The two outcomes of one iteration. *)
Lemma cluster_step_found t st msg id :
  find_cluster st (body_normalized msg) t = Some id →
  fst (cluster_step t st msg) = id
  ∧ clusters (snd (cluster_step t st msg)) = alter (λ c, add c msg) id (clusters st)
  ∧ exact_index (snd (cluster_step t st msg))
    = if bool_decide (body_normalized msg ≠ [])
         && bool_decide (exact_index st !! body_normalized msg = None)
      then <[body_normalized msg := id]> (exact_index st) else exact_index st.
Proof. intros H. unfold cluster_step. rewrite H. done. Qed.

Lemma cluster_step_new t st msg :
  find_cluster st (body_normalized msg) t = None →
  fst (cluster_step t st msg) = length (clusters st)
  ∧ clusters (snd (cluster_step t st msg))
    = clusters st ++ [mkCluster (body_normalized msg) (body msg) [msg]]
  ∧ exact_index (snd (cluster_step t st msg))
    = if bool_decide (body_normalized msg ≠ [])
         && bool_decide (exact_index st !! body_normalized msg = None)
      then <[body_normalized msg := length (clusters st)]> (exact_index st)
      else exact_index st.
Proof.
  intros H. unfold cluster_step. rewrite H. cbn [fst snd clusters exact_index].
  split_and!; [done| |done].
  rewrite <- (Nat.add_0_r (length (clusters st))).
  rewrite (alter_app_r (λ c, add c msg) (clusters st)). done.
Qed.

Lemma cluster_loop_snoc t ms msg st :
  cluster_loop t (ms ++ [msg]) st
  = (fst (cluster_loop t ms st) ++ [fst (cluster_step t (snd (cluster_loop t ms st)) msg)],
     snd (cluster_step t (snd (cluster_loop t ms st)) msg)).
Proof.
  unfold cluster_loop. rewrite fold_left_app. simpl.
  destruct (fold_left _ ms _) as [ids st']. simpl.
  by destruct (cluster_step t st' msg).
Qed.

(** ** The members of a cluster *)

Lemma members_snoc ms ids m id0 id :
  length ids = length ms →
  members (ms ++ [m]) (ids ++ [id0]) id
  = members ms ids id ++ (if decide (id0 = id) then [m] else []).
Proof.
  intros Hlen. unfold members.
  rewrite zip_with_app by done. rewrite filter_app, fmap_app. f_equal.
  simpl. rewrite filter_cons, filter_nil. simpl. by destruct (decide (id0 = id)).
Qed.

Lemma elem_of_members ms ids id m :
  m ∈ members ms ids id ↔ ∃ i, ids !! i = Some id ∧ ms !! i = Some m.
Proof.
  unfold members. rewrite list_elem_of_fmap. split.
  - intros ([id' m'] & -> & [Hid Hel]%list_elem_of_filter). simpl in *. subst id'.
    apply list_elem_of_lookup in Hel as [i Hi].
    apply lookup_zip_with_Some in Hi as (x & y & [= <- <-] & ? & ?). eauto.
  - intros (i & Hi & Hm). exists (id, m). split; [done|].
    apply list_elem_of_filter. split; [done|].
    apply list_elem_of_lookup. exists i. apply lookup_zip_with_Some. eauto.
Qed.

Lemma members_fresh ms ids id :
  (∀ i id', ids !! i = Some id' → id' ≠ id) → members ms ids id = [].
Proof.
  intros H. destruct (members ms ids id) as [|m l] eqn:E; [done|].
  assert (m ∈ members ms ids id) as (i & Hi & _)%elem_of_members by (rewrite E; by left).
  by destruct (H i id Hi).
Qed.

(** ** The invariant of the loop *)

Lemma loop_inv_init : loop_inv [] [] init_state.
Proof. split; try done. Qed.

Lemma find_cluster_exact st n t id :
  n ≠ [] → exact_index st !! n = Some id → find_cluster st n t = Some id.
Proof.
  intros Hn He. unfold find_cluster. rewrite bool_decide_eq_true_2 by done. by rewrite He.
Qed.

Lemma cluster_step_exact t st msg :
  exact_index (snd (cluster_step t st msg))
  = if bool_decide (body_normalized msg ≠ [])
       && bool_decide (exact_index st !! body_normalized msg = None)
    then <[body_normalized msg := fst (cluster_step t st msg)]> (exact_index st)
    else exact_index st.
Proof.
  destruct (find_cluster st (body_normalized msg) t) as [id|] eqn:E.
  - destruct (cluster_step_found _ _ _ _ E) as (-> & _ & ->). done.
  - destruct (cluster_step_new _ _ _ E) as (-> & _ & ->). done.
Qed.

(** The cluster chosen for a message with a normalized body is the one the
    exact index names afterwards. *)
Lemma cluster_step_exact_self t st msg :
  body_normalized msg ≠ [] →
  exact_index (snd (cluster_step t st msg)) !! body_normalized msg
  = Some (fst (cluster_step t st msg)).
Proof.
  intros Hn. rewrite cluster_step_exact. rewrite bool_decide_eq_true_2 by done. simpl.
  case_bool_decide as He; [by rewrite lookup_insert_eq|].
  destruct (exact_index st !! body_normalized msg) as [id|] eqn:E; [|done].
  f_equal. symmetry.
  by destruct (cluster_step_found t st msg id (find_cluster_exact _ _ t _ Hn E)) as (-> & _).
Qed.

Lemma cluster_step_exact_other t st msg n :
  n ≠ body_normalized msg →
  exact_index (snd (cluster_step t st msg)) !! n = exact_index st !! n.
Proof.
  intros Hn. rewrite cluster_step_exact. destruct (_ && _); [|done].
  by rewrite lookup_insert_ne.
Qed.

Lemma cluster_step_exact_old t st msg n id :
  exact_index st !! n = Some id →
  exact_index (snd (cluster_step t st msg)) !! n = Some id.
Proof.
  intros He. rewrite cluster_step_exact.
  destruct (bool_decide (body_normalized msg ≠ [])); simpl; [|done].
  case_bool_decide as E; [|done].
  rewrite lookup_insert_ne; [done|]. intros <-. congruence.
Qed.

Lemma find_cluster_lookup ms ids st n t id :
  loop_inv ms ids st → find_cluster st n t = Some id →
  ∃ c, clusters st !! id = Some c.
Proof.
  intros Hinv [Hn [He|(c & Hc & _)]]%find_cluster_Some; [|eauto].
  apply (inv_exact_dom _ _ _ Hinv) in He as (_ & i & m & _ & _ & Hi).
  apply (inv_ids _ _ _ Hinv) in Hi. by apply lookup_lt_is_Some.
Qed.

(** The cluster found for a message with a normalized body never holds a
    message without one. *)
Lemma find_cluster_not_alone ms ids st n t id i m :
  loop_inv ms ids st → find_cluster st n t = Some id →
  ms !! i = Some m → body_normalized m = [] → ids !! i ≠ Some id.
Proof.
  intros Hinv [Hn [He|(c & Hc & Hs)]]%find_cluster_Some Hm Hnil Hi.
  - apply (inv_exact_dom _ _ _ Hinv) in He as (_ & i' & m' & Hm' & Hn' & Hi').
    assert (i' = i) as -> by (apply (inv_alone _ _ _ Hinv i i' m); congruence).
    congruence.
  - apply are_similar_true in Hs as (_ & Hr & _).
    destruct (inv_rep _ _ _ Hinv id c Hc) as (m0 & Hh & Hrep & _).
    assert (m0 ∈ members ms ids id) as (i0 & Hi0 & Hm0)%elem_of_members.
    { rewrite <- (inv_members _ _ _ Hinv id c Hc). by apply head_Some_elem_of. }
    assert (i0 = i) as -> by (apply (inv_alone _ _ _ Hinv i i0 m); congruence).
    congruence.
Qed.

Lemma loop_inv_step t ms ids st msg :
  loop_inv ms ids st →
  loop_inv (ms ++ [msg]) (ids ++ [fst (cluster_step t st msg)]) (snd (cluster_step t st msg)).
Proof.
  intros Hinv.
  pose proof (inv_length _ _ _ Hinv) as Hlen.
  destruct (find_cluster st (body_normalized msg) t) as [id0|] eqn:Hfind.
  - (* an existing cluster *)
    destruct (cluster_step_found t st msg id0 Hfind) as (Hid & Hcs & _).
    destruct (find_cluster_lookup _ _ _ _ _ _ Hinv Hfind) as [c0 Hc0].
    pose proof (find_cluster_Some _ _ _ _ Hfind) as [Hn _].
    rewrite Hid. split.
    + rewrite !length_app. simpl. lia.
    + intros i id [[_ Hi]|[_ <-]]%lookup_snoc_Some; rewrite Hcs, length_alter.
      * by apply (inv_ids _ _ _ Hinv i).
      * by eapply lookup_lt_Some.
    + intros id c. rewrite Hcs, members_snoc by done.
      destruct (decide (id0 = id)) as [<-|Hne].
      * rewrite list_lookup_alter_eq, Hc0. intros [= <-]. simpl.
        by rewrite (inv_members _ _ _ Hinv id0 c0).
      * rewrite list_lookup_alter_ne by done. intros Hc. rewrite app_nil_r.
        by apply (inv_members _ _ _ Hinv).
    + intros id c. rewrite Hcs.
      destruct (decide (id0 = id)) as [<-|Hne].
      * rewrite list_lookup_alter_eq, Hc0. intros [= <-]. simpl.
        destruct (inv_rep _ _ _ Hinv id0 c0 Hc0) as (m0 & Hh & ? & ?).
        exists m0. split; [|done]. destruct (messages c0); [done|]. done.
      * rewrite list_lookup_alter_ne by done. by apply (inv_rep _ _ _ Hinv).
    + intros i m [[Hi Hm]|[-> <-]]%lookup_snoc_Some Hnm.
      * rewrite lookup_app_l by lia.
        pose proof (inv_exact _ _ _ Hinv i m Hm Hnm) as He.
        destruct (ids !! i) as [idi|] eqn:Ei.
        -- by apply cluster_step_exact_old.
        -- apply lookup_ge_None in Ei. lia.
      * rewrite <- Hlen, lookup_app_r, Nat.sub_diag by lia. simpl.
        rewrite cluster_step_exact_self by done. by rewrite Hid.
    + intros n' id He.
      destruct (decide (n' = body_normalized msg)) as [->|Hne].
      * rewrite cluster_step_exact_self in He by done. rewrite Hid in He.
        injection He as <-. split; [done|]. exists (length ms), msg.
        split_and!; [by rewrite lookup_app_r, Nat.sub_diag by lia|done|].
        by rewrite <- Hlen, lookup_app_r, Nat.sub_diag by lia.
      * rewrite cluster_step_exact_other in He by done.
        apply (inv_exact_dom _ _ _ Hinv) in He as (? & i & m & Hm & ? & Hi).
        split; [done|]. exists i, m. split_and!; [|done|].
        -- rewrite lookup_app_l; [done|]. by eapply lookup_lt_Some.
        -- rewrite lookup_app_l; [done|]. by eapply lookup_lt_Some.
    + intros i j m [[Hi Hm]|[-> <-]]%lookup_snoc_Some Hnil; [|done].
      rewrite (lookup_app_l ids _ i) by lia.
      destruct (decide (j < length ids)%nat) as [Hj|Hj].
      * rewrite lookup_app_l by done. by apply (inv_alone _ _ _ Hinv i j m).
      * intros Hij. exfalso.
        destruct (decide (j = length ids)) as [->|].
        -- rewrite lookup_app_r, Nat.sub_diag in Hij by lia. simpl in Hij.
           by apply (find_cluster_not_alone _ _ _ _ _ _ i m Hinv Hfind).
        -- rewrite lookup_ge_None_2 in Hij by (rewrite length_app; simpl; lia).
           symmetry in Hij. apply lookup_ge_None in Hij. lia.
  - (* a new cluster *)
    destruct (cluster_step_new t st msg Hfind) as (Hid & Hcs & _).
    assert (∀ i id, ids !! i = Some id → id ≠ length (clusters st)) as Hfresh.
    { intros i id Hi%(inv_ids _ _ _ Hinv). lia. }
    rewrite Hid. split.
    + rewrite !length_app. simpl. lia.
    + intros i id [[_ Hi]|[_ <-]]%lookup_snoc_Some; rewrite Hcs, length_app; simpl.
      * apply (inv_ids _ _ _ Hinv) in Hi. lia.
      * lia.
    + intros id c. rewrite Hcs, members_snoc by done.
      intros [[Hi Hc]|[-> <-]]%lookup_snoc_Some.
      * rewrite decide_False by lia. rewrite app_nil_r. by apply (inv_members _ _ _ Hinv id).
      * rewrite decide_True by done. by rewrite members_fresh.
    + intros id c. rewrite Hcs.
      intros [[Hi Hc]|[-> <-]]%lookup_snoc_Some; [by apply (inv_rep _ _ _ Hinv id)|].
      by exists msg.
    + intros i m [[Hi Hm]|[-> <-]]%lookup_snoc_Some Hnm.
      * rewrite lookup_app_l by lia.
        pose proof (inv_exact _ _ _ Hinv i m Hm Hnm) as He.
        destruct (ids !! i) as [idi|] eqn:Ei.
        -- by apply cluster_step_exact_old.
        -- apply lookup_ge_None in Ei. lia.
      * rewrite <- Hlen, lookup_app_r, Nat.sub_diag by lia. simpl.
        rewrite cluster_step_exact_self by done. by rewrite Hid.
    + intros n' id He.
      destruct (decide (n' = body_normalized msg ∧ body_normalized msg ≠ [])) as [[-> Hn]|Hne].
      * rewrite cluster_step_exact_self in He by done. rewrite Hid in He.
        injection He as <-. split; [done|]. exists (length ms), msg.
        split_and!; [by rewrite lookup_app_r, Nat.sub_diag by lia|done|].
        by rewrite <- Hlen, lookup_app_r, Nat.sub_diag by lia.
      * assert (exact_index st !! n' = Some id) as He'.
        { rewrite cluster_step_exact in He.
          destruct (decide (body_normalized msg = [])) as [Hn|Hn].
          - by rewrite (bool_decide_eq_false_2 (body_normalized msg ≠ [])) in He by (by intros ?).
          - destruct (_ && _); [|done]. rewrite lookup_insert_ne in He; [done|].
            intros <-. by apply Hne. }
        apply (inv_exact_dom _ _ _ Hinv) in He' as (? & i & m & Hm & ? & Hi).
        split; [done|]. exists i, m. split_and!; [|done|].
        -- rewrite lookup_app_l; [done|]. by eapply lookup_lt_Some.
        -- rewrite lookup_app_l; [done|]. by eapply lookup_lt_Some.
    + intros i j m Hm Hnil Hij.
      assert (∀ k, (k < length ids)%nat →
                (ids ++ [length (clusters st)]) !! k ≠ Some (length (clusters st))) as Hold.
      { intros k Hk. rewrite lookup_app_l by done. intros E. by eapply Hfresh. }
      assert (∀ k id, (ids ++ [length (clusters st)]) !! k = Some id →
                (k < length ids)%nat ∨ k = length ids ∧ id = length (clusters st)) as Hcase.
      { intros k id [[? _]|[-> <-]]%lookup_snoc_Some; [by left|by right]. }
      destruct (decide (i < length ids)%nat) as [Hi|Hi],
               (decide (j < length ids)%nat) as [Hj|Hj].
      * rewrite !lookup_app_l in Hij by done. rewrite lookup_app_l in Hm by lia.
        by apply (inv_alone _ _ _ Hinv i j m).
      * exfalso. destruct ((ids ++ [length (clusters st)]) !! j) as [idj|] eqn:Ej.
        -- destruct (Hcase _ _ Ej) as [?|[-> ->]]; [lia|]. by apply (Hold i Hi).
        -- symmetry in Hij. apply lookup_ge_None in Hij. rewrite length_app in Hij. lia.
      * exfalso. destruct ((ids ++ [length (clusters st)]) !! i) as [idi|] eqn:Ei.
        -- destruct (Hcase _ _ Ei) as [?|[-> ->]]; [lia|]. by apply (Hold j Hj).
        -- apply lookup_lt_Some in Hm. rewrite length_app in Hm. simpl in Hm.
           apply lookup_ge_None in Ei. rewrite length_app in Ei. simpl in Ei. lia.
      * apply lookup_lt_Some in Hm. rewrite length_app in Hm. simpl in Hm.
        assert (i = length ids) as -> by lia.
        rewrite (lookup_app_r ids _ (length ids)), Nat.sub_diag in Hij by lia.
        simpl in Hij. destruct (Hcase j _ Hij) as [?|[-> _]]; [lia|done].
Qed.

Lemma cluster_loop_inv t ms :
  loop_inv ms (fst (cluster_loop t ms init_state)) (snd (cluster_loop t ms init_state)).
Proof.
  induction ms as [|msg ms IH] using rev_ind; [apply loop_inv_init|].
  rewrite cluster_loop_snoc. by apply loop_inv_step.
Qed.

(** ** The prefix index *)

Lemma cluster_step_prefix t st msg :
  ∃ bucket, prefix_index (snd (cluster_step t st msg))
            = <[take 40 (body_normalized msg) := bucket]> (prefix_index st)
    ∧ ∀ id, id ∈ bucket →
        id ∈ default [] (prefix_index st !! take 40 (body_normalized msg))
        ∨ id = fst (cluster_step t st msg).
Proof.
  unfold cluster_step.
  destruct (find_cluster st (body_normalized msg) t) as [id0|]; cbn [fst snd prefix_index];
    (eexists; split; [done|]); intros id; destruct (cluster_in_bucket _ _ _);
    rewrite ?elem_of_app, ?list_elem_of_singleton; tauto.
Qed.

Lemma cluster_step_length t st msg :
  (length (clusters st) <= length (clusters (snd (cluster_step t st msg))))%nat.
Proof.
  destruct (find_cluster st (body_normalized msg) t) as [id0|] eqn:E.
  - destruct (cluster_step_found t st msg id0 E) as (_ & -> & _). by rewrite length_alter.
  - destruct (cluster_step_new t st msg E) as (_ & -> & _). rewrite length_app. lia.
Qed.

Lemma prefix_ok_step t ms ids st msg :
  loop_inv ms ids st → prefix_ok st → prefix_ok (snd (cluster_step t st msg)).
Proof.
  intros Hinv Hok prefix bucket id Hb Hid.
  pose proof (loop_inv_step t ms ids st msg Hinv) as Hinv'.
  pose proof (cluster_step_length t st msg) as Hlen.
  destruct (cluster_step_prefix t st msg) as (bucket' & Hp & Hin).
  rewrite Hp in Hb.
  destruct (decide (take 40 (body_normalized msg) = prefix)) as [<-|Hne].
  - rewrite lookup_insert_eq in Hb. injection Hb as <-.
    destruct (Hin id Hid) as [Hold| ->].
    + destruct (prefix_index st !! take 40 (body_normalized msg)) as [b|] eqn:E;
        [|by apply elem_of_nil in Hold].
      specialize (Hok _ _ _ E Hold). lia.
    + apply (inv_ids _ _ _ Hinv' (length ids)).
      by rewrite lookup_app_r, Nat.sub_diag by lia.
  - rewrite lookup_insert_ne in Hb by done. specialize (Hok _ _ _ Hb Hid). lia.
Qed.

(** Throughout the loop the candidates read from a bucket are clusters of
    the store, so [rep_at] always reads a representative. *)
Lemma cluster_loop_prefix_ok t ms : prefix_ok (snd (cluster_loop t ms init_state)).
Proof.
  induction ms as [|msg ms IH] using rev_ind.
  - intros prefix bucket id Hb. cbn in Hb. by rewrite lookup_empty in Hb.
  - rewrite cluster_loop_snoc. cbn [snd].
    by eapply prefix_ok_step; [apply cluster_loop_inv|].
Qed.

(** ** The final sort *)

Lemma insert_by_total_Permutation c l : insert_by_total c l ≡ₚ c :: l.
Proof.
  induction l as [|d l IH]; simpl; [done|].
  destruct (total d <=? total c); [done|]. rewrite IH. apply Permutation_swap.
Qed.

Lemma sort_by_total_desc_Permutation l : sort_by_total_desc l ≡ₚ l.
Proof.
  induction l as [|c l IH]; simpl; [done|].
  fold (sort_by_total_desc l). by rewrite insert_by_total_Permutation, IH.
Qed.

Lemma insert_by_total_sorted c l :
  StronglySorted (λ x y, total y <= total x) l →
  StronglySorted (λ x y, total y <= total x) (insert_by_total c l).
Proof.
  induction 1 as [|d l Hs IH Hd]; simpl.
  - repeat constructor.
  - destruct (Z.leb_spec (total d) (total c)).
    + constructor; [by constructor|]. constructor; [done|].
      eapply Forall_impl; [exact Hd|]. simpl. intros; lia.
    + constructor; [done|]. rewrite insert_by_total_Permutation.
      constructor; [lia|done].
Qed.

Lemma sort_by_total_desc_sorted l :
  StronglySorted (λ x y, total y <= total x) (sort_by_total_desc l).
Proof.
  induction l as [|c l IH]; simpl; [constructor|]. by apply insert_by_total_sorted.
Qed.

Lemma insert_by_total_stable k c l :
  filter (λ x, total x = k) (insert_by_total c l) = filter (λ x, total x = k) (c :: l).
Proof.
  induction l as [|d l IH]; simpl; [done|].
  destruct (Z.leb_spec (total d) (total c)); [done|].
  rewrite (filter_cons _ d), IH, !(filter_cons _ c), (filter_cons _ d).
  destruct (decide (total d = k)), (decide (total c = k)); try done. lia.
Qed.

Lemma sort_by_total_desc_stable k l :
  filter (λ x, total x = k) (sort_by_total_desc l) = filter (λ x, total x = k) l.
Proof.
  induction l as [|c l IH]; simpl; [done|]. fold (sort_by_total_desc l).
  by rewrite insert_by_total_stable, !filter_cons, IH.
Qed.

(** C7: the list returned by [cluster_messages] is in descending order of
    member count, and the clusters of any one member count appear in it in
    the order in which they were created. *)
Theorem C7_sorted_desc_stable (ms : list Message) (t : Q) :
  StronglySorted (λ x y, total y <= total x) (cluster_messages ms t)
  ∧ cluster_messages ms t ≡ₚ clusters_created ms t
  ∧ ∀ k, filter (λ x, total x = k) (cluster_messages ms t)
         = filter (λ x, total x = k) (clusters_created ms t).
Proof.
  unfold cluster_messages. split_and!.
  - apply sort_by_total_desc_sorted.
  - apply sort_by_total_desc_Permutation.
  - intros k. apply sort_by_total_desc_stable.
Qed.

(** ** Claims on the clusters *)

Lemma cluster_loop_ok t ms :
  (t <= 1)%Q →
  Forall (cluster_ok t) (clusters (snd (cluster_loop t ms init_state))).
Proof.
  intros Ht. induction ms as [|msg ms IH] using rev_ind; [constructor|].
  rewrite cluster_loop_snoc. cbn [snd].
  pose proof (cluster_loop_inv t ms) as Hinv.
  set (ids := fst (cluster_loop t ms init_state)) in *.
  set (st := snd (cluster_loop t ms init_state)) in *.
  destruct (find_cluster st (body_normalized msg) t) as [id0|] eqn:Hfind.
  - destruct (cluster_step_found t st msg id0 Hfind) as (_ & -> & _).
    destruct (find_cluster_lookup _ _ _ _ _ _ Hinv Hfind) as [c0 Hc0].
    apply Forall_lookup. intros id c.
    destruct (decide (id0 = id)) as [<-|Hne].
    + rewrite list_lookup_alter_eq, Hc0. intros [= <-].
      pose proof (proj1 (Forall_lookup _ _) IH id0 c0 Hc0) as Hok.
      intros k m [[Hk Hm]|[-> <-]]%lookup_snoc_Some; simpl.
      * destruct (Hok k m Hm) as [[?|(k' & m' & ? & Hm' & ?)] ?]; split; try done; [by left|].
        right. exists k', m'. split_and!; [done| |done]. rewrite lookup_app_l; [done|].
        by eapply lookup_lt_Some.
      * destruct (find_cluster_Some _ _ _ _ Hfind) as [Hn [He|(c & Hc & Hs)]].
        -- split; [|done]. right.
           apply (inv_exact_dom _ _ _ Hinv) in He as (_ & i & m' & Hm' & Hn' & Hi).
           assert (m' ∈ messages c0) as [k' Hk']%list_elem_of_lookup.
           { rewrite (inv_members _ _ _ Hinv id0 c0 Hc0). apply elem_of_members. eauto. }
           exists k', m'. split_and!; [by eapply lookup_lt_Some| |done].
           rewrite lookup_app_l; [done|]. by eapply lookup_lt_Some.
        -- split; [|done]. left. rewrite Hc0 in Hc. injection Hc as <-.
           by apply are_similar_true in Hs as (_ & _ & ?).
    + rewrite list_lookup_alter_ne by done. by apply (proj1 (Forall_lookup _ _) IH).
  - destruct (cluster_step_new t st msg Hfind) as (_ & -> & _).
    apply Forall_app. split; [done|]. apply Forall_singleton.
    intros k m. destruct k; simpl; [|done]. intros [= <-]. split; [|done].
    left. rewrite ratio_self. done.
Qed.

(** C1: after [cluster_messages], in every cluster each member's normalized
    body has full ratio at least the threshold against the representative, or
    equals the normalized body of an earlier member of the cluster; and a
    member with empty normalized body only occurs in a cluster whose
    representative is empty. *)
Theorem C1_members_similar_or_exact (ms : list Message) (t : Q) :
  (0 < t)%Q → (t <= 1)%Q →
  Forall (cluster_ok t) (cluster_messages ms t).
Proof.
  intros _ Ht. unfold cluster_messages.
  rewrite sort_by_total_desc_Permutation. by apply cluster_loop_ok.
Qed.

Lemma C1_witness :
  Forall (cluster_ok (fl (7 # 10)))
    (cluster_messages [msg_of "Buy now: http://x.co/a1" "buy now";
                       msg_of "Buy now!" "buy now";
                       msg_of "Buy nowadays" "buy nowadays";
                       msg_of "!!!" ""] (fl (7 # 10))).
Proof.
  apply C1_members_similar_or_exact; [reflexivity | by vm_compute].
Defined.

(** ** Every message in one cluster *)

Lemma sum_totals_concat cs : sum_totals cs = len (concat (messages <$> cs)).
Proof.
  induction cs as [|c cs IH]; [done|].
  rewrite fmap_cons, concat_cons, len_app. simpl. fold (sum_totals cs). by rewrite IH.
Qed.

Lemma concat_alter_add msg id cs :
  (id < length cs)%nat →
  concat (messages <$> alter (λ c, add c msg) id cs) ≡ₚ concat (messages <$> cs) ++ [msg].
Proof.
  revert id. induction cs as [|c cs IH]; intros id Hid; [simpl in Hid; lia|].
  destruct id as [|id].
  - change (alter (λ c, add c msg) 0%nat (c :: cs)) with (add c msg :: cs).
    rewrite !fmap_cons, !concat_cons. cbn [add messages].
    rewrite <- !app_assoc. apply Permutation_app_head. apply Permutation_app_comm.
  - change (alter (λ c, add c msg) (S id) (c :: cs))
      with (c :: alter (λ c, add c msg) id cs).
    rewrite !fmap_cons, !concat_cons, IH by (simpl in Hid; lia). by rewrite app_assoc.
Qed.

Lemma cluster_loop_messages t ms :
  concat (messages <$> clusters_created ms t) ≡ₚ ms.
Proof.
  unfold clusters_created.
  induction ms as [|msg ms IH] using rev_ind; [done|].
  rewrite cluster_loop_snoc. cbn [snd].
  pose proof (cluster_loop_inv t ms) as Hinv.
  destruct (find_cluster (snd (cluster_loop t ms init_state)) (body_normalized msg) t)
    as [id0|] eqn:Hfind.
  - destruct (cluster_step_found t _ msg id0 Hfind) as (_ & -> & _).
    destruct (find_cluster_lookup _ _ _ _ _ _ Hinv Hfind) as [c0 Hc0].
    rewrite concat_alter_add by (by eapply lookup_lt_Some). by rewrite IH.
  - destruct (cluster_step_new t _ msg Hfind) as (_ & -> & _).
    rewrite fmap_app, concat_app. simpl. by rewrite IH.
Qed.

(** The clusters returned hold the input messages, each one once, so their
    member counts add up to the number of messages; the cluster at a position
    of creation holds the messages the loop chose it for, and the loop
    chooses one cluster for each message. *)
Lemma cluster_messages_partition (ms : list Message) (t : Q) :
  concat (messages <$> cluster_messages ms t) ≡ₚ ms
  ∧ sum_totals (cluster_messages ms t) = len ms
  ∧ length (assignment ms t) = length ms
  ∧ ∀ id c, clusters_created ms t !! id = Some c →
            messages c = members ms (assignment ms t) id.
Proof.
  assert (concat (messages <$> cluster_messages ms t) ≡ₚ ms) as Hperm.
  { unfold cluster_messages. rewrite sort_by_total_desc_Permutation.
    apply cluster_loop_messages. }
  pose proof (cluster_loop_inv t ms) as Hinv.
  split_and!.
  - done.
  - rewrite sum_totals_concat. unfold len. by rewrite Hperm.
  - apply (inv_length _ _ _ Hinv).
  - apply (inv_members _ _ _ Hinv).
Qed.

(** ** Messages with the same normalized body *)

(** C10: two messages with the same non-empty normalized body are put in the
    same cluster, the one the exact-match index holds for that body. *)
Theorem C10_same_body_same_cluster (ms : list Message) (t : Q) (i j : nat) (mi mj : Message) :
  (i < j)%nat → ms !! i = Some mi → ms !! j = Some mj →
  body_normalized mi = body_normalized mj → body_normalized mi ≠ [] →
  ∃ id c, assignment ms t !! i = Some id ∧ assignment ms t !! j = Some id
          ∧ exact_index (final_state ms t) !! body_normalized mi = Some id
          ∧ clusters_created ms t !! id = Some c
          ∧ mi ∈ messages c ∧ mj ∈ messages c.
Proof.
  intros _ Hi Hj Heq Hn.
  pose proof (cluster_loop_inv t ms) as Hinv.
  fold (assignment ms t) in Hinv. fold (final_state ms t) in Hinv.
  pose proof (inv_exact _ _ _ Hinv i mi Hi Hn) as Ei.
  pose proof (inv_exact _ _ _ Hinv j mj Hj ltac:(congruence)) as Ej.
  rewrite <- Heq in Ej.
  destruct (assignment ms t !! i) as [id|] eqn:Ea.
  2:{ apply lookup_ge_None in Ea. apply lookup_lt_Some in Hi.
      rewrite (inv_length _ _ _ Hinv) in Ea. lia. }
  pose proof (inv_ids _ _ _ Hinv i id Ea) as Hlt.
  apply lookup_lt_is_Some in Hlt as [c Hc].
  exists id, c. split_and!; try done; try congruence.
  - rewrite (inv_members _ _ _ Hinv id c Hc). apply elem_of_members. eauto.
  - rewrite (inv_members _ _ _ Hinv id c Hc). apply elem_of_members.
    exists j. split; [congruence|done].
Qed.

Lemma C10_witness :
  ∃ id c,
    assignment [msg_of "Promo A: http://x.co/a" "promo a"; msg_of "PROMO B!" "promo b";
                msg_of "promo b" "promo b"] (fl (7 # 10)) !! 1%nat = Some id
    ∧ assignment [msg_of "Promo A: http://x.co/a" "promo a"; msg_of "PROMO B!" "promo b";
                  msg_of "promo b" "promo b"] (fl (7 # 10)) !! 2%nat = Some id
    ∧ exact_index (final_state [msg_of "Promo A: http://x.co/a" "promo a";
                                msg_of "PROMO B!" "promo b";
                                msg_of "promo b" "promo b"] (fl (7 # 10)))
        !! body_normalized (msg_of "PROMO B!" "promo b") = Some id
    ∧ clusters_created [msg_of "Promo A: http://x.co/a" "promo a"; msg_of "PROMO B!" "promo b";
                        msg_of "promo b" "promo b"] (fl (7 # 10)) !! id = Some c
    ∧ msg_of "PROMO B!" "promo b" ∈ messages c ∧ msg_of "promo b" "promo b" ∈ messages c.
Proof.
  apply (C10_same_body_same_cluster _ (fl (7 # 10)) 1 2); [lia | done | done | done | done].
Defined.

(** ** Messages without normalized body *)

Lemma members_app ms1 ms2 ids1 ids2 id :
  length ids1 = length ms1 →
  members (ms1 ++ ms2) (ids1 ++ ids2) id = members ms1 ids1 id ++ members ms2 ids2 id.
Proof.
  intros Hlen. unfold members. rewrite zip_with_app by done.
  by rewrite filter_app, fmap_app.
Qed.

Lemma members_only ms ids id i m :
  length ids = length ms → ms !! i = Some m → ids !! i = Some id →
  (∀ j, ids !! j = Some id → j = i) →
  members ms ids id = [m].
Proof.
  intros Hlen Hm Hi Honly.
  rewrite <- (take_drop_middle ms i m Hm), <- (take_drop_middle ids i id Hi).
  pose proof (lookup_lt_Some _ _ _ Hm). pose proof (lookup_lt_Some _ _ _ Hi).
  rewrite members_app by (rewrite !length_take; lia).
  rewrite (members_fresh (take i ms)).
  2:{ intros j id' Hj <-. apply lookup_take_Some in Hj as [Hj ?].
      apply Honly in Hj. lia. }
  change (id :: drop (S i) ids) with ([id] ++ drop (S i) ids).
  change (m :: drop (S i) ms) with ([m] ++ drop (S i) ms).
  rewrite members_app by done.
  rewrite (members_fresh (drop (S i) ms)).
  2:{ intros j id' Hj <-. rewrite lookup_drop in Hj. apply Honly in Hj. lia. }
  unfold members. simpl. rewrite filter_cons_True by done. done.
Qed.

(** C2, as the code has it: a message whose normalized body is empty is
    never matched to an existing cluster, and it opens a cluster of its own,
    with empty representative, that no other message joins. *)
Theorem C2_empty_body_own_cluster (ms : list Message) (t : Q) (i : nat) (m : Message) :
  ms !! i = Some m → body_normalized m = [] →
  (∀ st, find_cluster st (body_normalized m) t = None)
  ∧ ∃ id, assignment ms t !! i = Some id
          ∧ clusters_created ms t !! id = Some (mkCluster [] (body m) [m])
          ∧ mkCluster [] (body m) [m] ∈ cluster_messages ms t
          ∧ ∀ j, assignment ms t !! j = Some id → j = i.
Proof.
  intros Hm Hnil. split.
  { intros st. rewrite Hnil. apply find_cluster_nil. }
  pose proof (cluster_loop_inv t ms) as Hinv.
  fold (assignment ms t) in Hinv.
  destruct (assignment ms t !! i) as [id|] eqn:Ea.
  2:{ apply lookup_ge_None in Ea. apply lookup_lt_Some in Hm.
      rewrite (inv_length _ _ _ Hinv) in Ea. lia. }
  pose proof (inv_ids _ _ _ Hinv i id Ea) as Hlt.
  apply lookup_lt_is_Some in Hlt as [c Hc].
  assert (∀ j, assignment ms t !! j = Some id → j = i) as Honly.
  { intros j Hj. apply (inv_alone _ _ _ Hinv i j m); congruence. }
  assert (messages c = [m]) as Hmsgs.
  { rewrite (inv_members _ _ _ Hinv id c Hc).
    apply (members_only ms _ id i m); auto. apply (inv_length _ _ _ Hinv). }
  assert (c = mkCluster [] (body m) [m]) as ->.
  { destruct (inv_rep _ _ _ Hinv id c Hc) as (m0 & Hh & Hr & Hraw).
    rewrite Hmsgs in Hh. injection Hh as <-. destruct c; simpl in *. congruence. }
  exists id. split_and!; try done.
  unfold cluster_messages. rewrite sort_by_total_desc_Permutation.
  by eapply list_elem_of_lookup_2.
Qed.

Lemma C2_witness :
  (∀ st, find_cluster st (body_normalized (msg_of "???" "")) (fl (7 # 10)) = None)
  ∧ ∃ id, assignment [msg_of "!!!" ""; msg_of "???" ""] (fl (7 # 10)) !! 1%nat = Some id
          ∧ clusters_created [msg_of "!!!" ""; msg_of "???" ""] (fl (7 # 10)) !! id
            = Some (mkCluster [] (body (msg_of "???" "")) [msg_of "???" ""])
          ∧ mkCluster [] (body (msg_of "???" "")) [msg_of "???" ""]
            ∈ cluster_messages [msg_of "!!!" ""; msg_of "???" ""] (fl (7 # 10))
          ∧ ∀ j, assignment [msg_of "!!!" ""; msg_of "???" ""] (fl (7 # 10)) !! j = Some id
                 → j = 1%nat.
Proof.
  apply (C2_empty_body_own_cluster [msg_of "!!!" ""; msg_of "???" ""] (fl (7 # 10)) 1);
    reflexivity.
Defined.

(** Two messages without normalized body end in two clusters, not in one. *)
Lemma C2_counterexample :
  assignment [msg_of "!!!" ""; msg_of "???" ""] (fl (7 # 10)) = [0; 1]%nat
  ∧ cluster_messages [msg_of "!!!" ""; msg_of "???" ""] (fl (7 # 10))
    = [mkCluster [] (of_ascii "!!!") [msg_of "!!!" ""];
       mkCluster [] (of_ascii "???") [msg_of "???" ""]].
Proof. by vm_compute. Qed.

(** ** The threshold *)

Lemma are_similar_antitone a b t1 t2 :
  (t1 <= t2)%Q → are_similar a b t2 = true → are_similar a b t1 = true.
Proof.
  intros Ht. rewrite !are_similar_true. intros (? & ? & H). split_and!; [done|done|].
  by eapply Qle_trans.
Qed.

Lemma Qltb_true_iff x y : Qltb x y = true ↔ (x < y)%Q.
Proof.
  unfold Qltb. rewrite negb_true_iff. split.
  - intros H. apply Qnot_le_lt. intros Hle%Qle_bool_iff. congruence.
  - intros H. apply not_true_iff_false. intros Hle%Qle_bool_iff.
    by apply (Qlt_not_le _ _ H).
Qed.

Lemma length_skip_monotone n rep t1 t2 :
  (t1 <= t2)%Q → length_skip n rep t1 = true → length_skip n rep t2 = true.
Proof.
  intros Ht. unfold length_skip. destruct (_ && _); [|done].
  destruct (negb _); [|done]. simpl. rewrite !Qltb_true_iff. intros H.
  eapply Qlt_le_trans; [exact H|]. apply fl_mono. unfold Qminus. by apply Qplus_le_l.
Qed.

Lemma scan_all_None_monotone n t1 t2 ev l :
  (t1 <= t2)%Q → scan_all n t1 ev l = None → scan_all n t2 ev l = None.
Proof.
  intros Ht. induction l as [|[id c] l IH]; simpl; [done|].
  case_bool_decide as Hev; [done|].
  destruct (length_skip n (representative c) t1) eqn:E1.
  { by rewrite (length_skip_monotone _ _ _ _ Ht E1). }
  destruct (are_similar n (representative c) t1) eqn:E2; [done|]. intros Hrest.
  destruct (length_skip n (representative c) t2); [by apply IH|].
  destruct (are_similar n (representative c) t2) eqn:E3; [|by apply IH].
  apply (are_similar_antitone _ _ _ _ Ht) in E3. congruence.
Qed.

Lemma scan_candidates_None_monotone cs n t1 t2 cands :
  (t1 <= t2)%Q → scan_candidates cs n t1 cands = None → scan_candidates cs n t2 cands = None.
Proof.
  intros Ht. unfold scan_candidates. rewrite !fmap_None, !list_find_None.
  intros H. eapply Forall_impl; [exact H|]. simpl.
  intros id H1 H2. by apply H1, (are_similar_antitone _ _ _ _ Ht).
Qed.

(** C5, as the code has it: raising the threshold never lets a pair or a
    message match that did not match before.  From the same clusters and
    indexes, a message that finds no cluster at the lower threshold finds
    none at the higher one. *)
Theorem C5_threshold_monotone_step (t1 t2 : Q) :
  (t1 <= t2)%Q →
  (∀ a b, are_similar a b t2 = true → are_similar a b t1 = true)
  ∧ (∀ st n, find_cluster st n t1 = None → find_cluster st n t2 = None).
Proof.
  intros Ht. split; [intros a b; by apply are_similar_antitone|].
  intros st n. unfold find_cluster.
  destruct (if bool_decide (n ≠ []) then exact_index st !! n else None); [done|].
  destruct (scan_candidates (clusters st) n t1 _) eqn:E1; [done|].
  rewrite (scan_candidates_None_monotone _ _ _ _ _ Ht E1).
  by apply scan_all_None_monotone.
Qed.

Lemma C5_witness :
  (∀ a b, are_similar a b (fl (7 # 10)) = true → are_similar a b (1 # 2) = true)
  ∧ (∀ st n, find_cluster st n (1 # 2) = None → find_cluster st n (fl (7 # 10)) = None).
Proof. apply C5_threshold_monotone_step. by vm_compute. Defined.

(** At threshold 0.35 the four messages give three clusters, at 0.5 two: at
    0.5 the second message no longer joins the first, and the last two join
    it instead of opening clusters of their own. *)
Lemma C5_counterexample :
  (fl (35 # 100) <= 1 # 2)%Q
  ∧ assignment [msg_of "zzzdefgzzz" "zzzdefgzzz"; msg_of "abcdefghij" "abcdefghij";
                msg_of "abcdefxxxx" "abcdefxxxx"; msg_of "yyyyefghij" "yyyyefghij"] (fl (35 # 100))
    = [0; 0; 1; 2]%nat
  ∧ assignment [msg_of "zzzdefgzzz" "zzzdefgzzz"; msg_of "abcdefghij" "abcdefghij";
                msg_of "abcdefxxxx" "abcdefxxxx"; msg_of "yyyyefghij" "yyyyefghij"] (1 # 2)
    = [0; 1; 1; 1]%nat
  ∧ length (cluster_messages
              [msg_of "zzzdefgzzz" "zzzdefgzzz"; msg_of "abcdefghij" "abcdefghij";
               msg_of "abcdefxxxx" "abcdefxxxx"; msg_of "yyyyefghij" "yyyyefghij"] (fl (35 # 100)))
    = 3%nat
  ∧ length (cluster_messages
              [msg_of "zzzdefgzzz" "zzzdefgzzz"; msg_of "abcdefghij" "abcdefghij";
               msg_of "abcdefxxxx" "abcdefxxxx"; msg_of "yyyyefghij" "yyyyefghij"] (1 # 2))
    = 2%nat.
Proof. split_and!; by vm_compute. Qed.

(** ** Stripping and substitution *)

Lemma lstrip_drop s : ∃ k, lstrip s = drop k s.
Proof.
  induction s as [|c s [k IH]]; [by exists 0%nat|]. simpl.
  destruct (is_space c); [by exists (S k)|by exists 0%nat].
Qed.

Lemma rstrip_take s : ∃ k, rstrip s = take k s.
Proof.
  unfold rstrip. destruct (lstrip_drop (reverse s)) as [k ->].
  exists (length s - k)%nat. rewrite drop_reverse. by rewrite reverse_involutive.
Qed.

Lemma head_lstrip s c : head (lstrip s) = Some c → is_space c = false.
Proof.
  induction s as [|d s IH]; simpl; [done|].
  destruct (is_space d) eqn:E; [done|]. simpl. by intros [= <-].
Qed.

Lemma last_rstrip s c : last (rstrip s) = Some c → is_space c = false.
Proof. unfold rstrip. rewrite last_reverse. apply head_lstrip. Qed.

Lemma lstrip_id s : (∀ c, head s = Some c → is_space c = false) → lstrip s = s.
Proof. destruct s as [|c s]; [done|]. simpl. intros H. by rewrite (H c). Qed.

Lemma rstrip_id s : (∀ c, last s = Some c → is_space c = false) → rstrip s = s.
Proof.
  intros H. unfold rstrip. rewrite lstrip_id; [by rewrite reverse_involutive|].
  intros c. rewrite head_reverse. apply H.
Qed.

Lemma strip_id s :
  (∀ c, head s = Some c → is_space c = false) →
  (∀ c, last s = Some c → is_space c = false) → strip s = s.
Proof. intros H1 H2. unfold strip. rewrite lstrip_id by done. by apply rstrip_id. Qed.

Lemma strip_Forall (P : N → Prop) s : Forall P s → Forall P (strip s).
Proof.
  intros H. unfold strip. destruct (rstrip_take (lstrip s)) as [k ->].
  destruct (lstrip_drop s) as [k' ->]. by apply Forall_take, Forall_drop.
Qed.

Lemma head_take_Some {A} (l : list A) k x : head (take k l) = Some x → head l = Some x.
Proof. destruct l, k; simpl; done. Qed.

Lemma head_strip s c : head (strip s) = Some c → is_space c = false.
Proof.
  unfold strip. destruct (rstrip_take (lstrip s)) as [k ->].
  intros H%head_take_Some. by apply head_lstrip in H.
Qed.

Lemma last_strip s c : last (strip s) = Some c → is_space c = false.
Proof. apply last_rstrip. Qed.

Lemma single_spaced_drop k s : single_spaced s → single_spaced (drop k s).
Proof.
  revert s. induction k as [|k IH]; intros s; [by rewrite drop_0|].
  destruct s as [|c s]; [done|]. simpl. intros [_ ?]. by apply IH.
Qed.

Lemma single_spaced_take k s : single_spaced s → single_spaced (take k s).
Proof.
  revert s. induction k as [|k IH]; intros s; [by rewrite take_0|].
  destruct s as [|c s]; [done|]. simpl. intros [Hc Hs]. split; [|by apply IH].
  intros -> Hh. apply head_take_Some in Hh. by apply Hc.
Qed.

Lemma strip_single_spaced s : single_spaced s → single_spaced (strip s).
Proof.
  intros H. unfold strip. destruct (rstrip_take (lstrip s)) as [k ->].
  destruct (lstrip_drop s) as [k' ->]. by apply single_spaced_take, single_spaced_drop.
Qed.

Lemma re_sub_Forall (P : N → Prop) m repl k prev s :
  Forall P repl → Forall P s → Forall P (re_sub m repl k prev s).
Proof.
  intros Hr Hs. revert k prev. induction Hs as [|c s Hc Hs IH]; intros k prev; simpl; [done|].
  destruct k; [|by apply IH]. destruct (m prev (c :: s)).
  - apply Forall_app. split; [done|apply IH].
  - constructor; [done|apply IH].
Qed.

(** A pattern that matches at no position leaves the text as it is. *)
Lemma re_sub_no_match m repl prev s :
  (∀ p s1 s2, s = s1 ++ s2 → m p s2 = None) → re_sub m repl 0 prev s = s.
Proof.
  revert prev. induction s as [|c s IH]; intros prev H; simpl; [done|].
  rewrite (H prev [] (c :: s)) by done. f_equal. apply IH.
  intros p s1 s2 ->. by apply (H p (c :: s1) s2).
Qed.

Lemma run_length_drop_head p s d :
  head (drop (run_length p s) s) = Some d → p d = false.
Proof.
  induction s as [|c s IH]; simpl; [done|].
  destruct (p c) eqn:E; simpl; [done|]. by intros [= <-].
Qed.

Lemma ws_prev_irrelevant repl k p p' s :
  re_sub MULTI_WS_PATTERN repl k p s = re_sub MULTI_WS_PATTERN repl k p' s.
Proof.
  destruct s as [|c s]; [done|]. destruct k; [|done]. cbn [re_sub].
  by change (MULTI_WS_PATTERN p' (c :: s)) with (MULTI_WS_PATTERN p (c :: s)).
Qed.

Lemma ws_skip repl p s :
  re_sub MULTI_WS_PATTERN repl (run_length is_space s) p s
  = re_sub MULTI_WS_PATTERN repl 0 p (drop (run_length is_space s) s).
Proof.
  revert p. induction s as [|c s IH]; intros p; [done|].
  cbn [run_length]. destruct (is_space c) eqn:E; [|done].
  cbn [re_sub drop]. rewrite IH. apply ws_prev_irrelevant.
Qed.

(** Collapsing white space: the result has single spaces only. *)
Lemma ws_collapse (Q : N → Prop) n s p :
  (length s <= n)%nat →
  (∀ c, Q c → is_space c = false) →
  Forall (λ c, is_space c = true ∨ Q c) s →
  let out := re_sub MULTI_WS_PATTERN [32%N] 0 p s in
  Forall (λ c, c = 32%N ∨ Q c) out ∧ single_spaced out
  ∧ (∀ d, head s = Some d → is_space d = false → head out = Some d)
  ∧ (s = [] → out = []).
Proof.
  intros Hn HQ. cbv zeta. revert s p Hn.
  induction n as [|n IH]; intros s p Hn Hs.
  { destruct s; [|simpl in Hn; lia]. simpl. done. }
  destruct s as [|c s]; [simpl; done|].
  apply Forall_cons in Hs as [Hc Hs]. simpl in Hn.
  destruct (is_space c) eqn:E.
  - assert (re_sub MULTI_WS_PATTERN [32%N] 0 p (c :: s)
            = 32%N :: re_sub MULTI_WS_PATTERN [32%N] 0 (Some c)
                        (drop (run_length is_space s) s)) as ->.
    { cbn [re_sub]. unfold MULTI_WS_PATTERN at 1. cbn [run_length]. rewrite E.
      cbn [pred]. by rewrite ws_skip. }
    destruct (IH (drop (run_length is_space s) s) (Some c)) as (F1 & F2 & F3 & F4).
    { rewrite length_drop. lia. }
    { by apply Forall_drop. }
    split_and!; [constructor; [by left|done]| |by intros d [= <-] ?; congruence|done].
    split; [|done]. intros _.
    destruct (drop (run_length is_space s) s) as [|d s'] eqn:Ed.
    + by rewrite F4.
    + assert (is_space d = false) as Hd.
      { apply (run_length_drop_head is_space s). by rewrite Ed. }
      rewrite (F3 d eq_refl Hd). intros [= ->]. done.
  - assert (re_sub MULTI_WS_PATTERN [32%N] 0 p (c :: s)
            = c :: re_sub MULTI_WS_PATTERN [32%N] 0 (Some c) s) as ->.
    { cbn [re_sub]. unfold MULTI_WS_PATTERN at 1. cbn [run_length]. by rewrite E. }
    destruct (IH s (Some c)) as (F1 & F2 & F3 & F4); [lia|done|].
    split_and!; [| |by intros d [= <-] _|done].
    + constructor; [|done]. destruct Hc as [?|?]; [congruence|by right].
    + split; [|done]. intros ->. done.
Qed.

(** ** Normalized ASCII bodies *)

Ltac char_prop :=
  repeat rewrite ?andb_true_iff, ?orb_true_iff, ?andb_false_iff, ?orb_false_iff,
    ?N.leb_le, ?N.leb_gt, ?N.eqb_eq, ?N.eqb_neq in *.

Lemma lower_word_facts c :
  lower_word c = true →
  is_ascii c ∧ ascii_lower c = c ∧ is_space c = false ∧ c ≠ 58%N ∧ c ≠ 47%N ∧ c ≠ 32%N
  ∧ ascii_isalnum c || (c =? 95)%N = true.
Proof.
  unfold lower_word, is_ascii. intros H. char_prop.
  split_and!; try lia.
  - unfold ascii_lower. destruct ((65 <=? c) && (c <=? 90))%N eqn:E; [|done]. char_prop. lia.
  - apply not_true_iff_false. unfold is_space. intros Hs. char_prop. lia.
  - unfold ascii_isalnum. char_prop. lia.
Qed.

Lemma ascii_lower_word c :
  is_ascii c → ascii_isalnum c || (c =? 95)%N = true → is_space c = false →
  lower_word (ascii_lower c) = true.
Proof.
  unfold is_ascii, ascii_isalnum, lower_word, ascii_lower. intros Ha H _.
  destruct ((65 <=? c) && (c <=? 90))%N eqn:E; char_prop; lia.
Qed.

Lemma ascii_lower_space c : ascii_lower c = 32%N ↔ c = 32%N.
Proof.
  unfold ascii_lower. destruct ((65 <=? c) && (c <=? 90))%N eqn:E; [|done]. char_prop. lia.
Qed.

Lemma single_spaced_fmap (f : N → N) s :
  (∀ c, f c = 32%N ↔ c = 32%N) → single_spaced s → single_spaced (f <$> s).
Proof.
  intros Hf. induction s as [|c s IH]; [done|]. cbn [single_spaced]. rewrite fmap_cons.
  intros [Hc Hs]. cbn [single_spaced]. split; [|by apply IH].
  intros Hfc. apply (proj1 (Hf c)) in Hfc. specialize (Hc Hfc).
  destruct s as [|d s]; [done|].
  simpl in *. intros [= Hd]. apply (proj1 (Hf d)) in Hd. by subst.
Qed.

Lemma colon_slashes_None s : Forall (λ c, c ≠ 58%N) s → colon_slashes s = None.
Proof.
  destruct s as [|c1 [|c2 [|c3 s]]]; try done. intros [H _]%Forall_cons. simpl.
  by destruct (N.eqb_spec c1 58).
Qed.

Lemma slashes_None s : Forall (λ c, c ≠ 47%N) s → slashes s = None.
Proof.
  destruct s as [|c1 [|c2 s]]; try done. intros [H _]%Forall_cons. simpl.
  by destruct (N.eqb_spec c1 47).
Qed.

Lemma http_None tail s :
  (∀ s1 s2, s = s1 ++ s2 → tail s2 = None) → http tail s = None.
Proof.
  intros H. destruct s as [|c1 [|c2 [|c3 [|c4 s]]]]; try done. simpl.
  destruct (_ && _); [|done]. unfold opt_s.
  rewrite (H [c1; c2; c3; c4] s eq_refl).
  destruct s as [|c s]; [done|]. destruct (ci_s c); [|done].
  by rewrite (H [c1; c2; c3; c4; c] s eq_refl).
Qed.

Lemma Forall_app_r {A} (P : A → Prop) l1 l2 : Forall P (l1 ++ l2) → Forall P l2.
Proof. by intros [_ ?]%Forall_app. Qed.

Section Normalize.
Context {U : UnicodeData} {HA : UnicodeAscii U}.

Lemma is_word_ascii c : is_ascii c → is_word c = ascii_isalnum c || (c =? 95)%N.
Proof. intros Hc. unfold is_word. by rewrite isalnum_ascii. Qed.

Lemma non_word_sub prev s :
  Forall (λ c, is_space c = true ∨ (is_word c = true ∧ is_space c = false))
         (re_sub NON_WORD_PATTERN [32%N] 0 prev s).
Proof.
  revert prev. induction s as [|c s IH]; intros prev; [constructor|].
  cbn [re_sub NON_WORD_PATTERN].
  destruct (is_word c) eqn:Ew, (is_space c) eqn:Es; simpl; constructor; auto.
Qed.

(** On ASCII text [normalize_body] yields words of digits, lower-case letters
    and underscores separated by single spaces. *)
Lemma normalize_body_normal x : Forall is_ascii x → normal (normalize_body x).
Proof.
  intros Hx. unfold normalize_body.
  case_bool_decide as Hraw; [by split_and!|].
  set (x3 := sub URL_PATTERN_ALT [32%N] (sub URL_PATTERN [32%N] (strip x))).
  set (x4 := sub NON_WORD_PATTERN [32%N] x3).
  assert (Forall is_ascii [32%N]) as H32 by (apply Forall_singleton; by compute).
  assert (Forall is_ascii x4) as Ha4.
  { unfold x4, x3, sub. by repeat apply re_sub_Forall; try apply strip_Forall. }
  assert (Forall (λ c, is_space c = true
                       ∨ (is_ascii c ∧ is_word c = true ∧ is_space c = false)) x4) as H4.
  { pose proof (non_word_sub None x3) as Hw. fold (sub NON_WORD_PATTERN [32%N] x3) in Hw.
    fold x4 in Hw. eapply Forall_impl; [exact (proj2 (Forall_and _ _) (conj Ha4 Hw))|].
    simpl. intros c [? [?|[? ?]]]; auto. }
  destruct (ws_collapse (λ c, is_ascii c ∧ is_word c = true ∧ is_space c = false)
              (length x4) x4 None (le_n _) ltac:(by intros c (_&_&?)) H4)
    as (F1 & F2 & _ & _).
  fold (sub MULTI_WS_PATTERN [32%N] x4) in F1, F2.
  set (x6 := strip (sub MULTI_WS_PATTERN [32%N] x4)).
  assert (Forall (λ c, c = 32%N ∨ is_ascii c ∧ is_word c = true ∧ is_space c = false) x6) as H6
    by (by apply strip_Forall).
  assert (single_spaced x6) as S6 by (by apply strip_single_spaced).
  rewrite lower_ascii.
  2:{ eapply Forall_impl; [exact H6|]. simpl. intros c [->|[? _]]; [by compute|done]. }
  split_and!.
  - apply Forall_fmap. eapply Forall_impl; [exact H6|]. simpl.
    intros c [->|(Hc & Hw & Hs)]; [by right|]. left.
    rewrite is_word_ascii in Hw by done. by apply ascii_lower_word.
  - apply single_spaced_fmap; [apply ascii_lower_space|done].
  - destruct x6 as [|c x6'] eqn:E6; [done|]. simpl. intros [= Hc].
    apply (proj1 (ascii_lower_space c)) in Hc. subst c. assert (head x6 = Some 32%N) as Hh by (by rewrite E6).
    by apply head_strip in Hh.
  - rewrite fmap_last. destruct (last x6) as [c|] eqn:El; [|done]. simpl.
    intros [= Hc]. apply (proj1 (ascii_lower_space c)) in Hc. subst c.
    by apply last_strip in El.
Qed.

End Normalize.

(** ** Normalized bodies in any script *)

Section NormalizeWords.
Context {U : UnicodeData} {HW : UnicodeWords U}.

Lemma word_char_facts (c : N) :
  word_char c → is_space c = false ∧ c ≠ 32%N ∧ c ≠ 58%N ∧ c ≠ 47%N.
Proof.
  intros [Hw Hs]. split; [done|]. split_and!; intros ->.
  - done.
  - unfold is_word in Hw. by rewrite colon_no_word in Hw.
  - unfold is_word in Hw. by rewrite slash_no_word in Hw.
Qed.

Lemma single_spaced_app_space (w s : list N) :
  Forall (λ c, c ≠ 32%N) w →
  single_spaced (w ++ 32%N :: s) ↔ head s ≠ Some 32%N ∧ single_spaced s.
Proof.
  induction 1 as [|c w Hc _ IH].
  - simpl. split; [intros [H ?]; split; [by apply H|done]|intros [? ?]; by split].
  - rewrite <- app_comm_cons. cbn [single_spaced]. rewrite IH. tauto.
Qed.

Lemma single_spaced_no_space (w : list N) : Forall (λ c, c ≠ 32%N) w → single_spaced w.
Proof. induction 1 as [|c w Hc _ IH]; [done|]. by split. Qed.

(** The text up to the first space. *)
Lemma first_space (z : list N) :
  Forall (λ c, c ≠ 32%N) z
  ∨ ∃ w z', z = w ++ 32%N :: z' ∧ Forall (λ c, c ≠ 32%N) w.
Proof.
  induction z as [|c z IH]; [left; constructor|].
  destruct (decide (c = 32%N)) as [->|Hc].
  - right. exists [], z. split; [done|constructor].
  - destruct IH as [IH|(w & z' & -> & Hw)].
    + left. by constructor.
    + right. exists (c :: w), z'. split; [done|by constructor].
Qed.

(** Lower-casing keeps the shape. *)
Lemma lower_word_normal (n : nat) (z : list N) :
  (length z <= n)%nat →
  Forall (λ c, (word_char c ∧ c ≠ 304%N) ∨ c = 32%N) z → single_spaced z →
  head z ≠ Some 32%N → last z ≠ Some 32%N →
  word_normal (lower z) ∧ (z ≠ [] → lower z ≠ []).
Proof.
  revert z. induction n as [|n IH]; intros z Hn Hz Hss Hh Hl.
  { destruct z; [|simpl in Hn; lia]. rewrite lower_empty. by split_and!. }
  destruct (first_space z) as [Hno|(w & z' & -> & Hw)].
  - destruct (decide (z = [])) as [->|Hne].
    { rewrite lower_empty. by split_and!. }
    destruct (lower_of_word z Hne) as [Hne' Hlow].
    { eapply Forall_impl; [exact (proj2 (Forall_and _ _) (conj Hz Hno))|].
      simpl. intros c [[?|?] ?]; [done|congruence]. }
    assert (Forall (λ c, c ≠ 32%N) (lower z)) as Hno'.
    { eapply Forall_impl; [exact Hlow|]. intros c Hc. apply (word_char_facts c Hc). }
    split; [|done]. split_and!.
    + eapply Forall_impl; [exact Hlow|]. by left.
    + by apply single_spaced_no_space.
    + intros Hhd. apply head_Some_elem_of in Hhd.
      by apply (proj1 (Forall_forall _ _) Hno' 32%N).
    + intros Hla. apply last_Some_elem_of in Hla.
      by apply (proj1 (Forall_forall _ _) Hno' 32%N).
  - apply Forall_app in Hz as [Hzw Hz']. apply Forall_cons in Hz' as [_ Hz'].
    apply (single_spaced_app_space w z' Hw) in Hss as [Hh' Hss'].
    assert (w ≠ []) as Hwne. { intros ->. by apply Hh. }
    assert (z' ≠ []) as Hz'ne.
    { intros ->. apply Hl. by rewrite last_app. }
    assert (last z' ≠ Some 32%N) as Hl'.
    { intros E. apply Hl. rewrite last_app, last_cons, E. done. }
    destruct (IH z') as [(F1 & F2 & F3 & F4) Hne']; [|done..|].
    { rewrite length_app in Hn. simpl in Hn. lia. }
    specialize (Hne' Hz'ne).
    destruct (lower_of_word w Hwne) as [Hwne' Hlow].
    { eapply Forall_impl; [exact (proj2 (Forall_and _ _) (conj Hzw Hw))|].
      simpl. intros c [[?|?] ?]; [done|congruence]. }
    assert (Forall (λ c, c ≠ 32%N) (lower w)) as Hno'.
    { eapply Forall_impl; [exact Hlow|]. intros c Hc. apply (word_char_facts c Hc). }
    rewrite lower_at_space. split; [|by destruct (lower w)]. split_and!.
    + apply Forall_app. split; [eapply Forall_impl; [exact Hlow|]; by left|].
      constructor; [by right|done].
    + by apply single_spaced_app_space.
    + destruct (lower w) as [|c lw] eqn:E; [done|]. simpl. intros [= ->].
      by apply Forall_cons in Hno' as [? _].
    + rewrite last_app, last_cons. destruct (last (lower z')) as [c|] eqn:E; [done|].
      by apply last_None in E.
Qed.

Lemma ws_fixed_words (p : option N) (s : list N) :
  Forall (λ c, word_char c ∨ c = 32%N) s → single_spaced s →
  re_sub MULTI_WS_PATTERN [32%N] 0 p s = s.
Proof.
  intros Hs. revert p. induction Hs as [|c s Hc Hs IH]; intros p Hsp; [done|].
  destruct Hsp as [Hsp Hss]. cbn [re_sub]. unfold MULTI_WS_PATTERN at 1. cbn [run_length].
  destruct Hc as [Hc| ->].
  - destruct (word_char_facts c Hc) as (-> & _). f_equal. by apply IH.
  - change (is_space 32) with true. cbv iota.
    assert (run_length is_space s = 0%nat) as ->.
    { destruct s as [|d s]; [done|]. simpl.
      apply Forall_cons in Hs as [[Hd| ->] _]; [|by destruct Hsp].
      by destruct (word_char_facts d Hd) as (-> & _). }
    simpl. f_equal. by apply IH.
Qed.

(** A text of that shape which lower-casing leaves alone is left unchanged
    by [normalize_body]. *)
Lemma normalize_body_fixed_words (y : list N) :
  word_normal y → lower y = y → normalize_body y = y.
Proof.
  intros (Hy & Hss & Hh & Hl) Hlow. unfold normalize_body.
  assert (∀ c, c ∈ y → c ≠ 32%N → word_char c) as Hin.
  { intros c Hc Hne. by destruct (proj1 (Forall_forall _ _) Hy c Hc). }
  assert (strip y = y) as Hstrip.
  { apply strip_id.
    - intros c Hc. apply (word_char_facts c), Hin; [by apply head_Some_elem_of|congruence].
    - intros c Hc. apply (word_char_facts c), Hin; [by apply last_Some_elem_of|congruence]. }
  rewrite Hstrip. case_bool_decide as Hnil; [done|].
  assert (sub URL_PATTERN [32%N] y = y) as ->.
  { apply re_sub_no_match. intros p s1 s2 ->. apply http_None. intros s3 s4 ->.
    apply colon_slashes_None. apply Forall_app_r, Forall_app_r in Hy.
    eapply Forall_impl; [exact Hy|]. simpl. intros c [Hc| ->]; [|done].
    apply (word_char_facts c Hc). }
  assert (sub URL_PATTERN_ALT [32%N] y = y) as ->.
  { apply re_sub_no_match. intros p s1 s2 ->. unfold URL_PATTERN_ALT.
    destruct (word_boundary p s2); [|done]. apply http_None. intros s3 s4 ->.
    apply slashes_None. apply Forall_app_r, Forall_app_r in Hy.
    eapply Forall_impl; [exact Hy|]. simpl. intros c [Hc| ->]; [|done].
    apply (word_char_facts c Hc). }
  assert (sub NON_WORD_PATTERN [32%N] y = y) as ->.
  { apply re_sub_no_match. intros p s1 s2 ->. destruct s2 as [|c s2]; [done|]. simpl.
    apply Forall_app_r, Forall_cons in Hy as [[[Hc _]| ->] _].
    - by rewrite Hc.
    - change (is_space 32) with true. by rewrite andb_false_r. }
  unfold sub. by rewrite ws_fixed_words, Hstrip.
Qed.

(** Before the lower-casing, [normalize_body] has words separated by single
    spaces, and a character that the text does not have has not come in. *)
Lemma normalize_body_cased (P : N → Prop) (x : list N) :
  P 32%N → Forall P x →
  let z := strip (sub MULTI_WS_PATTERN [32%N]
             (sub NON_WORD_PATTERN [32%N]
                (sub URL_PATTERN_ALT [32%N] (sub URL_PATTERN [32%N] (strip x))))) in
  Forall (λ c, (word_char c ∧ P c) ∨ c = 32%N) z ∧ single_spaced z
  ∧ head z ≠ Some 32%N ∧ last z ≠ Some 32%N.
Proof.
  intros H32 Hx.
  set (x3 := sub URL_PATTERN_ALT [32%N] (sub URL_PATTERN [32%N] (strip x))).
  set (x4 := sub NON_WORD_PATTERN [32%N] x3).
  assert (Forall P [32%N]) as HP32 by (by apply Forall_singleton).
  assert (Forall P x4) as Ha4.
  { unfold x4, x3, sub. by repeat apply re_sub_Forall; try apply strip_Forall. }
  assert (Forall (λ c, is_space c = true ∨ (word_char c ∧ P c)) x4) as H4.
  { pose proof (non_word_sub None x3) as Hw. fold (sub NON_WORD_PATTERN [32%N] x3) in Hw.
    fold x4 in Hw. eapply Forall_impl; [exact (proj2 (Forall_and _ _) (conj Ha4 Hw))|].
    simpl. intros c [? [?|[? ?]]]; [by left|right; by split]. }
  destruct (ws_collapse (λ c, word_char c ∧ P c)
              (length x4) x4 None (le_n _) ltac:(by intros c [[_ ?] _]) H4)
    as (F1 & F2 & _ & _).
  fold (sub MULTI_WS_PATTERN [32%N] x4) in F1, F2.
  cbv zeta. fold x3. fold x4. split_and!.
  - apply strip_Forall. eapply Forall_impl; [exact F1|]. simpl. tauto.
  - by apply strip_single_spaced.
  - intros Hhd. by apply head_strip in Hhd.
  - intros Hla. by apply last_strip in Hla.
Qed.

(** C6, as the code has it: on every text without the capital I with dot
    above (U+0130), whatever its script, normalizing a second time changes
    nothing. *)
Theorem C6_normalize_body_idempotent (x : list N) :
  Forall (λ c, c ≠ 304%N) x → normalize_body (normalize_body x) = normalize_body x.
Proof.
  intros Hx.
  assert (normalize_body [] = []) as Hnil.
  { unfold normalize_body. change (strip []) with (@nil N). by rewrite bool_decide_eq_true_2. }
  destruct (decide (strip x = [])) as [Hraw|Hraw].
  { assert (normalize_body x = []) as ->; [|done].
    unfold normalize_body. by rewrite bool_decide_eq_true_2. }
  destruct (normalize_body_cased (λ c, c ≠ 304%N) x) as (F1 & F2 & F3 & F4); [done..|].
  cbv zeta in *.
  assert (normalize_body x
          = lower (strip (sub MULTI_WS_PATTERN [32%N]
                     (sub NON_WORD_PATTERN [32%N]
                        (sub URL_PATTERN_ALT [32%N] (sub URL_PATTERN [32%N] (strip x)))))))
    as ->.
  { unfold normalize_body. by rewrite bool_decide_eq_false_2. }
  apply normalize_body_fixed_words; [|apply lower_idempotent].
  exact (proj1 (lower_word_normal _ _ (le_n _) F1 F2 F3 F4)).
Qed.

End NormalizeWords.

(** ** The excerpt of the character database *)

(** The excerpt of the database agrees with the ASCII rows. *)
Lemma excerpt_ascii : UnicodeAscii excerpt.
Proof.
  split.
  - intros c Hc. simpl. unfold excerpt_isalnum, is_ascii in *.
    destruct (N.eqb_spec c 304); [lia|]. by rewrite orb_false_r.
  - intros s Hs. simpl. induction Hs as [|c s Hc Hs IH]; [done|].
    rewrite fmap_cons, <- IH. cbn [mbind list_bind]. unfold excerpt_lower_char at 1.
    unfold is_ascii in Hc. destruct (N.eqb_spec c 304); [lia|]. done.
Qed.

(** The excerpt of the database has the properties of the whole. *)
Lemma excerpt_lower_char_word (c : N) :
  word_char (U := excerpt) c → c ≠ 304%N →
  excerpt_lower_char c = [ascii_lower c] ∧ word_char (U := excerpt) (ascii_lower c).
Proof.
  intros [Hw Hs] Hc. unfold excerpt_lower_char.
  destruct (N.eqb_spec c 304) as [|_]; [done|]. split; [done|].
  unfold is_word in Hw. cbn [isalnum excerpt] in Hw. unfold excerpt_isalnum in Hw.
  rewrite (proj2 (N.eqb_neq c 304) Hc), orb_false_r in Hw.
  assert (is_ascii c) as Ha.
  { unfold is_ascii, ascii_isalnum in *. char_prop. lia. }
  pose proof (ascii_lower_word c Ha Hw Hs) as Hl.
  destruct (lower_word_facts _ Hl) as (Ha' & _ & Hs' & _ & _ & _ & Hw').
  split; [|done]. unfold is_word. cbn [isalnum excerpt]. unfold excerpt_isalnum.
  destruct (ascii_isalnum (ascii_lower c)); [done|]. simpl in *.
  rewrite Hw'. apply orb_true_r.
Qed.

Lemma excerpt_lower_char_idem (c : N) :
  excerpt_lower_char c ≫= excerpt_lower_char = excerpt_lower_char c.
Proof.
  unfold excerpt_lower_char at 2 3. destruct (N.eqb_spec c 304) as [->|Hc]; [done|].
  cbn [mbind list_bind]. rewrite app_nil_r. unfold excerpt_lower_char.
  assert (ascii_lower c ≠ 304%N ∧ ascii_lower (ascii_lower c) = ascii_lower c) as [Hl ->].
  { unfold ascii_lower. destruct ((65 <=? c) && (c <=? 90))%N eqn:E.
    - assert (((65 <=? c + 32) && (c + 32 <=? 90))%N = false) as ->; char_prop; lia.
    - by rewrite E. }
  by rewrite (proj2 (N.eqb_neq _ _) Hl).
Qed.

Lemma excerpt_words : UnicodeWords excerpt.
Proof.
  split; try done.
  - intros s1 s2. cbn [lower excerpt]. by rewrite bind_app.
  - intros s Hne Hs. cbn [lower excerpt].
    assert (s ≫= excerpt_lower_char = ascii_lower <$> s
            ∧ Forall (word_char (U := excerpt)) (ascii_lower <$> s)) as [-> H].
    { clear Hne. induction Hs as [|c s [Hc Hc'] _ [IH1 IH2]]; [done|].
      destruct (excerpt_lower_char_word c Hc Hc') as [E Hw].
      cbn [mbind list_bind]. rewrite E. fold (s ≫= excerpt_lower_char). rewrite IH1.
      split; [done|]. rewrite fmap_cons. by constructor. }
    split; [by destruct s|done].
  - intros s. cbn [lower excerpt]. induction s as [|c s IH]; [done|].
    cbn [mbind list_bind]. fold (s ≫= excerpt_lower_char).
    by rewrite bind_app, IH, excerpt_lower_char_idem.
Qed.

Lemma C6_witness :
  normalize_body (U := excerpt)
    (normalize_body (U := excerpt)
       (of_ascii "  Buy NOW: http://x.co/a1, ok!! httpS//foo " ++ [74; 193; 32]%N))
  = normalize_body (U := excerpt)
      (of_ascii "  Buy NOW: http://x.co/a1, ok!! httpS//foo " ++ [74; 193; 32]%N).
Proof.
  apply (C6_normalize_body_idempotent (U := excerpt) (HW := excerpt_words)).
  vm_compute. repeat constructor; done.
Defined.

(** The capital I with dot above (U+0130) is a letter, so the first pass keeps
    it and lowercases it to [i] followed by the combining dot (U+0307); the
    second pass strips the combining dot, which is no word character. *)
Lemma C6_counterexample :
  normalize_body (U := excerpt) [304%N] = [105; 775]%N
  ∧ normalize_body (U := excerpt) (normalize_body (U := excerpt) [304%N]) = [105%N]
  ∧ normalize_body (U := excerpt) (normalize_body (U := excerpt) [304%N])
    ≠ normalize_body (U := excerpt) [304%N].
Proof. split_and!; by vm_compute. Qed.

(** ** Loading rows *)

Lemma omap_filter_length {A B} (f : A → option B) (l : list A) :
  (length (omap f l) + length (filter (λ x, f x = None) l))%nat = length l.
Proof.
  induction l as [|x l IH]; [done|]. rewrite filter_cons.
  change (omap f (x :: l)) with (match f x with Some y => y :: omap f l | None => omap f l end).
  destruct (f x) eqn:E.
  - rewrite decide_False by done. cbn [length]. lia.
  - rewrite decide_True by done. cbn [length]. lia.
Qed.

Lemma row_dict_fold_elem (l : list (list N * cell)) (d : gmap (list N) cell) k v :
  fold_left (λ d '(k, v), <[k := v]> d) l d !! k = Some v →
  d !! k = Some v ∨ (k, v) ∈ l.
Proof.
  revert d. induction l as [|[k' v'] l IH]; intros d; simpl; [by left|].
  intros [H|H]%IH; [|right; by right].
  destruct (decide (k' = k)) as [->|].
  - rewrite lookup_insert_eq in H. injection H as ->. right. by left.
  - rewrite lookup_insert_ne in H by done. by left.
Qed.

Lemma row_dict_elem header raw_row k v :
  row_dict header raw_row !! k = Some v → v ∈ raw_row.
Proof.
  unfold row_dict. intros [H|H]%row_dict_fold_elem; [by rewrite lookup_empty in H|].
  by apply elem_of_zip_r in H.
Qed.

Lemma get_elem header raw_row key v :
  get (row_dict header raw_row) key = v → truthy v = true → v ∈ raw_row.
Proof.
  unfold get. destruct (row_dict header raw_row !! of_ascii key) as [v'|] eqn:E; simpl.
  - intros <- _. by eapply row_dict_elem.
  - by intros <-.
Qed.

Section LoaderFacts.
Context {U : UnicodeData}.
Context (str_date : Z → list N) (parse_datetime : cell → option Z).

(** C9, as the code has it: a row whose body cell is empty ([None], the empty
    string, zero or false) yields no message, and the messages loaded are the
    same with or without it; a row whose body is white space only is kept,
    as a message with empty body and empty normalized body. *)
Theorem C9_empty_body_row (path_basename : list N) (header : list (list N))
    (raw_row : list cell) :
  let body_raw := py_or (get (row_dict header raw_row) "body")
                        (get (row_dict header raw_row) "texto") in
  (truthy body_raw = false →
   load_row str_date parse_datetime path_basename header raw_row = None
   ∧ ∀ header_row before after,
       (normalize_header str_date <$> header_row) = header →
       load_messages_from_workbook str_date parse_datetime path_basename
         (header_row :: before ++ raw_row :: after)
       = load_messages_from_workbook str_date parse_datetime path_basename
           (header_row :: before ++ after))
  ∧ (∀ s, body_raw = CStr s → s ≠ [] → strip s = [] →
     ∃ m, load_row str_date parse_datetime path_basename header raw_row = Some m
          ∧ body m = [] ∧ body_normalized m = []).
Proof.
  intros body_raw. split.
  - intros Hf.
    assert (load_row str_date parse_datetime path_basename header raw_row = None) as Hrow.
    { unfold load_row. destruct (negb (existsb truthy raw_row)); [done|].
      fold body_raw. by rewrite Hf. }
    split; [done|]. intros header_row before after <-.
    unfold load_messages_from_workbook. rewrite !omap_app. simpl. by rewrite Hrow.
  - intros s Hs Hne Hstrip.
    assert (truthy body_raw = true) as Ht.
    { rewrite Hs. simpl. by rewrite bool_decide_eq_false_2. }
    assert (body_raw ∈ raw_row) as Hel.
    { unfold body_raw, py_or in *.
      destruct (truthy (get (row_dict header raw_row) "body")) eqn:E.
      - by eapply get_elem.
      - by eapply get_elem. }
    assert (existsb truthy raw_row = true) as Hex.
    { apply existsb_exists. exists body_raw. split; [|done]. by apply list_elem_of_In. }
    unfold load_row. rewrite Hex. cbn [negb]. fold body_raw. rewrite Ht. cbn [negb].
    eexists. split; [done|]. cbn [body body_normalized]. rewrite Hs. cbn [str_of].
    split; [done|]. unfold normalize_body_cell, str_or_empty, py_or.
    rewrite <- Hs, Ht, Hs. cbn [str_of]. unfold normalize_body. by rewrite Hstrip.
Qed.

(** C4: the clusters returned hold the input messages, each one once, and
    their member counts add up to the number of messages; counted from the
    rows of a sheet, the member counts and the rows dropped by the loader add
    up to the number of rows below the header. *)
Theorem C4_cluster_completeness (ms : list Message) (t : Q) :
  (concat (messages <$> cluster_messages ms t) ≡ₚ ms
   ∧ sum_totals (cluster_messages ms t) = len ms
   ∧ length (assignment ms t) = length ms
   ∧ ∀ id c, clusters_created ms t !! id = Some c →
             messages c = members ms (assignment ms t) id)
  ∧ ∀ path_basename header_row rows_iter,
      sum_totals (cluster_messages
                    (load_messages_from_workbook str_date parse_datetime path_basename
                       (header_row :: rows_iter)) t)
      + dropped_count str_date parse_datetime path_basename (header_row :: rows_iter)
      = len rows_iter.
Proof.
  split; [apply cluster_messages_partition|].
  intros path_basename header_row rows_iter.
  destruct (cluster_messages_partition
              (load_messages_from_workbook str_date parse_datetime path_basename
                 (header_row :: rows_iter)) t) as (_ & -> & _).
  unfold load_messages_from_workbook, dropped_count, len.
  rewrite <- (omap_filter_length
    (load_row str_date parse_datetime path_basename (normalize_header str_date <$> header_row))
    rows_iter). lia.
Qed.

End LoaderFacts.

Lemma C9_witness :
  let body_raw := py_or (get (row_dict [of_ascii "body"; of_ascii "status"]
                                       [CStr (of_ascii "   "); CStr (of_ascii "delivered")]) "body")
                        (get (row_dict [of_ascii "body"; of_ascii "status"]
                                       [CStr (of_ascii "   "); CStr (of_ascii "delivered")]) "texto") in
  ∃ m, load_row (U := excerpt) (λ _, []) (λ _, None) (of_ascii "relatorio.xlsx")
         [of_ascii "body"; of_ascii "status"]
         [CStr (of_ascii "   "); CStr (of_ascii "delivered")] = Some m
       ∧ body m = [] ∧ body_normalized m = [].
Proof.
  intros body_raw.
  apply (proj2 (C9_empty_body_row (U := excerpt) (λ _, []) (λ _, None) (of_ascii "relatorio.xlsx")
                  [of_ascii "body"; of_ascii "status"]
                  [CStr (of_ascii "   "); CStr (of_ascii "delivered")]) (of_ascii "   "));
    [reflexivity | by vm_compute | reflexivity].
Defined.

(** A row whose body is three spaces is not dropped: it is loaded as a
    message without body, and that message makes a cluster. *)
Lemma C9_counterexample :
  (body <$> load_messages_from_workbook (U := excerpt) (λ _, []) (λ _, None)
              (of_ascii "relatorio.xlsx")
              [[CStr (of_ascii "Body"); CStr (of_ascii "Status")];
               [CStr (of_ascii "   "); CStr (of_ascii "delivered")]]) = [[]]
  ∧ length (cluster_messages
              (load_messages_from_workbook (U := excerpt) (λ _, []) (λ _, None)
                 (of_ascii "relatorio.xlsx")
                 [[CStr (of_ascii "Body"); CStr (of_ascii "Status")];
                  [CStr (of_ascii "   "); CStr (of_ascii "delivered")]]) (fl (7 # 10))) = 1%nat.
Proof. split; by vm_compute. Qed.

(** ** The synthesized template *)

Lemma split_go_tokens cur s :
  Forall (λ c, is_space c = false) cur →
  Forall (token_ok) (split_go cur s).
Proof.
  revert cur. induction s as [|c s IH]; intros cur Hcur; simpl.
  - case_bool_decide; [constructor|]. by apply Forall_singleton.
  - destruct (is_space c) eqn:E.
    + case_bool_decide; [by apply IH|]. constructor; [done|]. by apply IH.
    + apply IH. apply Forall_app. split; [done|]. by apply Forall_singleton.
Qed.

Lemma split_tokens s : Forall token_ok (split s).
Proof. by apply split_go_tokens. Qed.

Lemma variavel_token : token_ok variavel.
Proof. split; [done|]. by vm_compute; repeat constructor. Qed.

Lemma template_loop_tokens tpm idxs tt :
  Forall (Forall token_ok) tpm → Forall token_ok tt →
  Forall token_ok (template_loop tpm idxs tt).
Proof.
  intros Htpm. revert tt. induction idxs as [|idx idxs IH]; intros tt Htt; [done|].
  cbn [template_loop].
  set (tai := (λ tokens : list (list N), tokens !! idx) <$> tpm).
  set (hm := bool_decide (Exists (λ token, token = None) tai)).
  set (values := remove_dups (omap id tai)).
  destruct (bool_decide (values = []) && hm); [done|]. apply IH.
  assert (∀ v, v ∈ values → token_ok v) as Hv.
  { intros v. unfold values, tai. rewrite elem_of_remove_dups, list_elem_of_omap.
    intros (o & Ho & Hov). simpl in Hov. subst o.
    apply list_elem_of_fmap in Ho as (tokens & Hl & Hin).
    apply (proj1 (Forall_forall _ _) Htpm) in Hin.
    symmetry in Hl. apply list_elem_of_lookup_2 in Hl.
    by apply (proj1 (Forall_forall _ _) Hin). }
  assert (Forall token_ok
            (if bool_decide (tt = []) || bool_decide (last tt ≠ Some variavel)
             then tt ++ [variavel] else tt)) as Hvar.
  { destruct (_ || _); [|done]. apply Forall_app. split; [done|].
    apply Forall_singleton, variavel_token. }
  clearbody values hm. destruct values as [|v [|v' vs]]; [exact Hvar| |exact Hvar].
  destruct hm; [exact Hvar|]. apply Forall_app. split; [done|].
  apply Forall_singleton, Hv. by left.
Qed.

Lemma head_join tokens t c :
  head tokens = Some t → head t = Some c → head (join tokens) = Some c.
Proof.
  destruct tokens as [|t' [|t'' tokens]]; simpl; try done.
  - by intros [= ->].
  - intros [= ->]. by destruct t.
Qed.

Lemma last_join tokens t c :
  last tokens = Some t → last t = Some c → last (join tokens) = Some c.
Proof.
  induction tokens as [|t' tokens IH]; [done|].
  destruct tokens as [|t'' tokens].
  - simpl. by intros [= ->].
  - intros Hl Hc. change (join (t' :: t'' :: tokens)) with (t' ++ 32%N :: join (t'' :: tokens)).
    rewrite last_app. rewrite last_cons. rewrite (IH Hl Hc). done.
Qed.

Lemma join_stripped tokens : Forall token_ok tokens → strip (join tokens) = join tokens.
Proof.
  intros Ht. apply strip_id.
  - intros c Hc. destruct tokens as [|t tokens]; [done|].
    apply Forall_cons in Ht as [[Hne Hsp] _].
    destruct t as [|d t]; [done|].
    rewrite (head_join (_ :: tokens) (d :: t) d eq_refl eq_refl) in Hc.
    injection Hc as <-. by apply Forall_cons in Hsp as [? _].
  - intros c Hc. destruct (last tokens) as [t|] eqn:El.
    2:{ apply last_None in El. by subst. }
    pose proof (proj1 (Forall_forall _ _) Ht t (last_Some_elem_of _ _ El)) as [Hne Hsp].
    destruct (last t) as [d|] eqn:Ed.
    2:{ apply last_None in Ed. by subst. }
    rewrite (last_join tokens t d El Ed) in Hc. injection Hc as <-.
    by apply (proj1 (Forall_forall _ _) Hsp), last_Some_elem_of.
Qed.

(** The template that [body_template] returns has no white space at its ends. *)
Lemma body_template_stripped c : strip (body_template c) = body_template c.
Proof.
  unfold body_template. case_bool_decide; [done|].
  set (tpm := _ <$> filter _ (messages c)).
  assert (Forall (Forall token_ok) tpm) as Htpm.
  { unfold tpm. apply Forall_fmap, Forall_forall. intros m _. apply split_tokens. }
  clearbody tpm. destruct tpm as [|tokens [|tokens' tpm']]; [done| |].
  - apply join_stripped. by apply Forall_cons in Htpm as [? _].
  - apply join_stripped, template_loop_tokens; [exact Htpm|constructor].
Qed.

(** ** sanitize_template *)

Lemma Qle_bool_six_tenths v l :
  0 < l → Qle_bool (6 # 10) (Qmake v (Z.to_pos l)) = true ↔ 3 * l <= 5 * v.
Proof.
  intros Hl. unfold Qle_bool. simpl. rewrite Z2Pos.id by done.
  rewrite Z.leb_le. lia.
Qed.

(** C8: [sanitize_template] gives the cluster's [representative_raw] exactly
    when the synthesized template is empty, or all of its tokens are the
    placeholder, or the placeholders are at least 60% of its tokens; in every
    other case it gives the synthesized template.  It is a total function of
    the cluster. *)
Theorem C8_sanitize_template_fallback (c : MessageCluster) :
  let template := body_template c in
  let tokens := split template in
  let var_tokens := len (filter (λ token, token = variavel) tokens) in
  (template = [] ∨ var_tokens = len tokens ∨ 3 * len tokens <= 5 * var_tokens
   → sanitize_template c = representative_raw c)
  ∧ (¬ (template = [] ∨ var_tokens = len tokens ∨ 3 * len tokens <= 5 * var_tokens)
     → sanitize_template c = template).
Proof.
  cbv zeta. unfold sanitize_template. rewrite body_template_stripped.
  set (template := body_template c). set (tokens := split template).
  set (var_tokens := len (filter (λ token, token = variavel) tokens)).
  case_bool_decide as Ht; [split; [done|tauto]|].
  case_bool_decide as Htok.
  { split; [done|]. intros H. exfalso. apply H. right. left.
    unfold var_tokens. by rewrite Htok. }
  destruct (Z.eqb_spec var_tokens (len tokens)) as [Hv|Hv]; [split; [done|tauto]|].
  assert (0 < len tokens) as Hpos.
  { unfold len. destruct tokens; [done|]. simpl. lia. }
  destruct (Qle_bool _ _) eqn:Hq.
  - split; [done|]. apply Qle_bool_six_tenths in Hq; [|done]. tauto.
  - split; [|done]. intros [?|[?|Hle]]; try done.
    apply Qle_bool_six_tenths in Hle; [|done]. congruence.
Qed.

(** * Further properties of the clusters *)

(** Every cluster returned has a first member, and its representative and
    [representative_raw] are the normalized and the raw body of that member. *)
Theorem clusters_led_by_first_member (ms : list Message) (t : Q) :
  Forall (λ c, ∃ m0 rest, messages c = m0 :: rest
                          ∧ representative c = body_normalized m0
                          ∧ representative_raw c = body m0)
         (cluster_messages ms t).
Proof.
  unfold cluster_messages. rewrite sort_by_total_desc_Permutation.
  apply Forall_lookup. intros id c Hc.
  destruct (inv_rep _ _ _ (cluster_loop_inv t ms) id c Hc) as (m0 & Hh & ? & ?).
  destruct (messages c) as [|m rest] eqn:E; [done|]. injection Hh as ->. eauto.
Qed.

Lemma length_le_concat_nonempty (cs : list MessageCluster) :
  Forall (λ c, messages c ≠ []) cs →
  (length cs <= length (concat (messages <$> cs)))%nat.
Proof.
  induction 1 as [|c cs Hc _ IH]; [done|].
  rewrite fmap_cons, concat_cons, length_app. simpl.
  destruct (messages c); [done|]. simpl. lia.
Qed.

Lemma clusters_created_nonempty ms t :
  Forall (λ c, messages c ≠ []) (clusters_created ms t).
Proof.
  apply Forall_lookup. intros id c Hc.
  destruct (inv_rep _ _ _ (cluster_loop_inv t ms) id c Hc) as (m0 & Hh & _).
  intros E. by rewrite E in Hh.
Qed.

(** There are at most as many clusters as messages, and no cluster at all
    only when there is no message: the failure branch of [main] after
    clustering is never taken once messages were loaded. *)
Theorem cluster_count_bounds (ms : list Message) (t : Q) :
  (length (cluster_messages ms t) <= length ms)%nat
  ∧ (cluster_messages ms t = [] ↔ ms = []).
Proof.
  pose proof (cluster_loop_messages t ms) as Hperm.
  pose proof (length_le_concat_nonempty _ (clusters_created_nonempty ms t)) as Hle.
  rewrite Hperm in Hle.
  assert (length (cluster_messages ms t) = length (clusters_created ms t)) as Hlen.
  { unfold cluster_messages. by rewrite sort_by_total_desc_Permutation. }
  split; [lia|]. split.
  - intros E. rewrite E in Hlen. symmetry in Hlen. apply nil_length_inv in Hlen.
    rewrite Hlen in Hperm. simpl in Hperm. by apply Permutation_nil_l in Hperm.
  - by intros ->.
Qed.

Lemma representatives_alter_add (msg : Message) (id : nat) (cs : list MessageCluster) :
  representative <$> filter (λ c, representative c ≠ []) (alter (λ c, add c msg) id cs)
  = representative <$> filter (λ c, representative c ≠ []) cs.
Proof.
  revert id. induction cs as [|c cs IH]; intros id; [by destruct id|].
  destruct id as [|id].
  - change (alter (λ c, add c msg) 0%nat (c :: cs)) with (add c msg :: cs).
    rewrite !filter_cons. simpl. by destruct (decide (representative c ≠ [])).
  - change (alter (λ c, add c msg) (S id) (c :: cs))
      with (c :: alter (λ c, add c msg) id cs).
    rewrite !filter_cons. destruct (decide (representative c ≠ [])); simpl; by rewrite IH.
Qed.

Lemma representatives_created_NoDup ms t :
  NoDup (representative <$> filter (λ c, representative c ≠ []) (clusters_created ms t)).
Proof.
  unfold clusters_created.
  induction ms as [|msg ms IH] using rev_ind; [constructor|].
  rewrite cluster_loop_snoc. cbn [snd].
  pose proof (cluster_loop_inv t ms) as Hinv.
  set (st := snd (cluster_loop t ms init_state)) in *.
  destruct (find_cluster st (body_normalized msg) t) as [id0|] eqn:Hfind.
  - destruct (cluster_step_found t st msg id0 Hfind) as (_ & -> & _).
    by rewrite representatives_alter_add.
  - destruct (cluster_step_new t st msg Hfind) as (_ & -> & _).
    rewrite filter_app, fmap_app. apply NoDup_app. split_and!; [done| |].
    + intros r Hr Hr'. rewrite filter_cons, filter_nil in Hr'. simpl in Hr'.
      destruct (decide (body_normalized msg ≠ [])) as [Hn|]; [|by apply elem_of_nil in Hr'].
      simpl in Hr'. apply list_elem_of_singleton in Hr'. subst r.
      apply list_elem_of_fmap in Hr as (c & Hrep & [_ Hc]%list_elem_of_filter).
      apply list_elem_of_lookup in Hc as [id Hc].
      destruct (inv_rep _ _ _ Hinv id c Hc) as (m0 & Hh & Hrep' & _).
      assert (m0 ∈ members ms (fst (cluster_loop t ms init_state)) id)
        as (i & Hi & Hm)%elem_of_members.
      { rewrite <- (inv_members _ _ _ Hinv id c Hc). by apply head_Some_elem_of. }
      pose proof (inv_exact _ _ _ Hinv i m0 Hm ltac:(congruence)) as He.
      rewrite Hi, <- Hrep', <- Hrep in He.
      rewrite (find_cluster_exact st _ t id Hn He) in Hfind. done.
    + rewrite filter_cons, filter_nil. simpl. destruct (decide _); simpl; [|constructor].
      apply NoDup_singleton.
Qed.

(** No two clusters returned have the same non-empty representative. *)
Theorem representatives_distinct (ms : list Message) (t : Q) :
  NoDup (representative <$> filter (λ c, representative c ≠ []) (cluster_messages ms t)).
Proof.
  unfold cluster_messages. rewrite sort_by_total_desc_Permutation.
  apply representatives_created_NoDup.
Qed.

Lemma members_sublist ms ids id : length ids = length ms → members ms ids id `sublist_of` ms.
Proof.
  intros Hlen. unfold members.
  rewrite <- (snd_zip ids ms) at 2 by lia.
  apply fmap_sublist, sublist_filter.
Qed.

(** Inside a cluster the messages stand in the order of the input. *)
Theorem members_keep_input_order (ms : list Message) (t : Q) :
  Forall (λ c, messages c `sublist_of` ms) (cluster_messages ms t).
Proof.
  unfold cluster_messages. rewrite sort_by_total_desc_Permutation.
  apply Forall_lookup. intros id c Hc.
  pose proof (cluster_loop_inv t ms) as Hinv.
  rewrite (inv_members _ _ _ Hinv id c Hc). apply members_sublist, (inv_length _ _ _ Hinv).
Qed.

Lemma find_cluster_init n t : find_cluster init_state n t = None.
Proof.
  unfold find_cluster, init_state. cbn [exact_index prefix_index clusters].
  rewrite !lookup_empty. by destruct (bool_decide (n ≠ [])).
Qed.

Lemma identical_bodies_loop (t : Q) (m0 : Message) (rest : list Message) :
  body_normalized m0 ≠ [] →
  Forall (λ m, body_normalized m = body_normalized m0) rest →
  clusters (snd (cluster_loop t (m0 :: rest) init_state))
  = [mkCluster (body_normalized m0) (body m0) (m0 :: rest)]
  ∧ exact_index (snd (cluster_loop t (m0 :: rest) init_state)) !! body_normalized m0
    = Some 0%nat.
Proof.
  intros Hn. induction rest as [|msg rest IH] using rev_ind; intros Hrest.
  - change [m0] with ([] ++ [m0]). rewrite cluster_loop_snoc. cbn [snd cluster_loop fold_left].
    destruct (cluster_step_new t init_state m0 (find_cluster_init _ t)) as (Hid & Hcs & _).
    split; [done|]. rewrite cluster_step_exact_self by done. by rewrite Hid.
  - apply Forall_app in Hrest as [Hrest [Hmsg _]%Forall_cons].
    destruct (IH Hrest) as [Hcs He].
    change (m0 :: rest ++ [msg]) with ((m0 :: rest) ++ [msg]).
    rewrite cluster_loop_snoc. cbn [snd].
    set (st := snd (cluster_loop t (m0 :: rest) init_state)) in *.
    assert (find_cluster st (body_normalized msg) t = Some 0%nat) as Hfind.
    { rewrite Hmsg. by apply find_cluster_exact. }
    destruct (cluster_step_found t st msg 0%nat Hfind) as (_ & -> & _).
    split; [by rewrite Hcs|]. by apply cluster_step_exact_old.
Qed.

(** Messages that all have the same non-empty normalized body end in one
    cluster, in their input order, led by the first of them; the threshold
    plays no part. *)
Theorem identical_bodies_one_cluster (t : Q) (m0 : Message) (rest : list Message) :
  body_normalized m0 ≠ [] →
  Forall (λ m, body_normalized m = body_normalized m0) rest →
  cluster_messages (m0 :: rest) t
  = [mkCluster (body_normalized m0) (body m0) (m0 :: rest)].
Proof.
  intros Hn Hrest. unfold cluster_messages, clusters_created.
  by rewrite (proj1 (identical_bodies_loop t m0 rest Hn Hrest)).
Qed.

Lemma identical_bodies_witness :
  cluster_messages (msg_of "Promo: http://x.co/1" "promo"
                    :: [msg_of "PROMO!" "promo"; msg_of "promo" "promo"]) (fl (99 # 100))
  = [mkCluster (body_normalized (msg_of "Promo: http://x.co/1" "promo"))
               (body (msg_of "Promo: http://x.co/1" "promo"))
               (msg_of "Promo: http://x.co/1" "promo"
                :: [msg_of "PROMO!" "promo"; msg_of "promo" "promo"])].
Proof.
  apply identical_bodies_one_cluster; [done | by repeat constructor].
Defined.

Lemma unrelated_loop (t : Q) (ms : list Message) :
  (∀ i j mi mj, (i < j)%nat → ms !! i = Some mi → ms !! j = Some mj →
     are_similar (body_normalized mj) (body_normalized mi) t = false
     ∧ (body_normalized mj = [] ∨ body_normalized mi ≠ body_normalized mj)) →
  fst (cluster_loop t ms init_state) = seq 0 (length ms)
  ∧ length (clusters (snd (cluster_loop t ms init_state))) = length ms.
Proof.
  induction ms as [|msg ms IH] using rev_ind; intros Hun; [done|].
  destruct IH as [Hids Hlen].
  { intros i j mi mj Hij Hi Hj. apply (Hun i j); [done| |].
    - rewrite lookup_app_l; [done|]. by eapply lookup_lt_Some.
    - rewrite lookup_app_l; [done|]. by eapply lookup_lt_Some. }
  rewrite cluster_loop_snoc. cbn [fst snd].
  pose proof (cluster_loop_inv t ms) as Hinv.
  set (st := snd (cluster_loop t ms init_state)) in *.
  assert (∀ i mi, ms !! i = Some mi →
            are_similar (body_normalized msg) (body_normalized mi) t = false
            ∧ (body_normalized msg = [] ∨ body_normalized mi ≠ body_normalized msg)) as Hmsg.
  { intros i mi Hi. apply (Hun i (length ms)).
    - by eapply lookup_lt_Some.
    - rewrite lookup_app_l; [done|]. by eapply lookup_lt_Some.
    - by rewrite lookup_app_r, Nat.sub_diag by lia. }
  assert (find_cluster st (body_normalized msg) t = None) as Hfind.
  { destruct (find_cluster st (body_normalized msg) t) as [id|] eqn:E; [exfalso|done].
    pose proof (find_cluster_Some _ _ _ _ E) as [Hn [He|(c & Hc & Hs)]].
    - apply (inv_exact_dom _ _ _ Hinv) in He as (_ & i & m & Hm & Hb & _).
      destruct (Hmsg i m Hm) as [_ [?|?]]; done.
    - destruct (inv_rep _ _ _ Hinv id c Hc) as (m0 & Hh & Hrep & _).
      assert (m0 ∈ members ms (fst (cluster_loop t ms init_state)) id)
        as (i & _ & Hm)%elem_of_members.
      { rewrite <- (inv_members _ _ _ Hinv id c Hc). by apply head_Some_elem_of. }
      destruct (Hmsg i m0 Hm) as [Hf _]. rewrite Hrep in Hs. congruence. }
  destruct (cluster_step_new t st msg Hfind) as (-> & -> & _).
  rewrite !length_app, Hids, Hlen. simpl. split; [|done].
  by rewrite Nat.add_1_r, seq_S.
Qed.

(** Messages of which none is similar to an earlier one, nor repeats its
    normalized body, each open a cluster: there are as many clusters as
    messages. *)
Theorem unrelated_messages_separate (t : Q) (ms : list Message) :
  (∀ i j mi mj, (i < j)%nat → ms !! i = Some mi → ms !! j = Some mj →
     are_similar (body_normalized mj) (body_normalized mi) t = false
     ∧ (body_normalized mj = [] ∨ body_normalized mi ≠ body_normalized mj)) →
  assignment ms t = seq 0 (length ms)
  ∧ length (cluster_messages ms t) = length ms.
Proof.
  intros Hun. destruct (unrelated_loop t ms Hun) as [Hids Hlen].
  split; [done|]. unfold cluster_messages. by rewrite sort_by_total_desc_Permutation.
Qed.

Lemma unrelated_messages_witness :
  assignment [msg_of "Your code is 1234" "your code is 1234";
              msg_of "Black Friday sale!" "black friday sale"] (fl (7 # 10))
  = seq 0 (length [msg_of "Your code is 1234" "your code is 1234";
                   msg_of "Black Friday sale!" "black friday sale"])
  ∧ length (cluster_messages [msg_of "Your code is 1234" "your code is 1234";
                              msg_of "Black Friday sale!" "black friday sale"] (fl (7 # 10)))
    = length [msg_of "Your code is 1234" "your code is 1234";
              msg_of "Black Friday sale!" "black friday sale"].
Proof.
  apply unrelated_messages_separate.
  intros i j mi mj Hij Hi Hj.
  destruct j as [|[|j]]; [lia| |done]. destruct i as [|i]; [|lia].
  injection Hi as <-. injection Hj as <-. split; [by vm_compute|right; by vm_compute].
Defined.

(** * Further properties of the similarity test *)

Lemma ratio_le_1 a b : (ratio a b <= 1)%Q.
Proof.
  unfold ratio, calculate_ratio.
  destruct (Z.eqb_spec (len a + len b) 0); [apply Qle_refl|].
  pose proof (ratio_matches_bounds a b) as (? & _ & ?).
  pose proof (len_nonneg a). pose proof (len_nonneg b).
  apply Qle_trans with (fl 1); [|by rewrite fl_1]. apply fl_mono.
  unfold Qle. simpl. rewrite Z2Pos.id by lia. lia.
Qed.

(** Every non-empty text is similar to itself at every threshold that
    [main] accepts (at most 1). *)
Theorem are_similar_reflexive (a : list N) (t : Q) :
  a ≠ [] → (t <= 1)%Q → are_similar a a t = true.
Proof.
  intros Ha Ht. apply are_similar_true. repeat split; [done..|].
  by rewrite ratio_self.
Qed.

Lemma are_similar_reflexive_witness :
  are_similar (of_ascii "oferta") (of_ascii "oferta") (fl (85 # 100)) = true.
Proof. apply are_similar_reflexive; [done|]. unfold Qle. simpl. lia. Defined.

(** With a threshold above 1 no two texts are ever similar, not even a text
    and itself. *)
Theorem are_similar_above_one (a b : list N) (t : Q) :
  (1 < t)%Q → are_similar a b t = false.
Proof.
  intros Ht. apply not_true_iff_false. intros (_ & _ & H)%are_similar_true.
  apply (Qlt_not_le _ _ Ht). eapply Qle_trans; [exact H|apply ratio_le_1].
Qed.

Lemma are_similar_above_one_witness :
  are_similar (of_ascii "oferta") (of_ascii "oferta") (fl (101 # 100)) = false.
Proof. apply are_similar_above_one. unfold Qlt. simpl. lia. Defined.


(** * Counting and reporting *)

Lemma len_filter_cons {A} (P : A → Prop) `{∀ x, Decision (P x)} (x : A) (l : list A) :
  len (filter P (x :: l)) = (if decide (P x) then 1 else 0) + len (filter P l).
Proof.
  rewrite filter_cons. destruct (decide (P x)); unfold len; simpl length; lia.
Qed.

Lemma len_filter_nonneg {A} (P : A → Prop) `{∀ x, Decision (P x)} (l : list A) :
  0 <= len (filter P l) <= len l.
Proof. unfold len. pose proof (length_filter P l). lia. Qed.

Lemma len_filter_split {A} (P : A → Prop) `{∀ x, Decision (P x)} (l : list A) :
  len (filter P l) + len (filter (λ x, ¬ P x) l) = len l.
Proof.
  induction l as [|x l IH]; [done|].
  rewrite !len_filter_cons. unfold len in *. simpl length.
  destruct (decide (P x)), (decide (¬ P x)); try tauto; lia.
Qed.

(** ** [counts_totals] *)

Lemma totals_fold_lookup (l : list Message) (m : gmap (list N) Z) (s : list N) :
  fold_left (λ totals msg,
               <[status_mapped msg := default 0 (totals !! status_mapped msg) + 1]> totals) l m !! s
  = if decide (count_status s l = 0) then m !! s
    else Some (default 0 (m !! s) + count_status s l).
Proof.
  revert m. induction l as [|x l IH]; intros m; [done|].
  cbn [fold_left]. rewrite IH. unfold count_status. rewrite len_filter_cons.
  pose proof (len_filter_nonneg (λ m, status_mapped m = s) l).
  destruct (decide (status_mapped x = s)) as [->|Hne].
  - rewrite lookup_insert_eq. simpl.
    repeat case_decide; try lia; f_equal; lia.
  - rewrite lookup_insert_ne by done.
    repeat case_decide; try lia; f_equal; lia.
Qed.

Lemma sum_values_insert {K} `{Countable K} (k : K) (v : Z) (m : gmap K Z) :
  sum_values (<[k := v]> m) = v + sum_values m - default 0 (m !! k).
Proof.
  unfold sum_values.
  assert (∀ (m' : gmap K Z) v', m' !! k = None →
            map_fold (λ _ v acc, v + acc) 0 (<[k := v']> m')
            = v' + map_fold (λ _ v acc, v + acc) 0 m') as Hins.
  { intros m' v' Hn. apply (map_fold_insert_L (λ _ v acc, v + acc)); [|done].
    intros. lia. }
  destruct (m !! k) as [old|] eqn:E; simpl.
  - rewrite <- insert_delete_eq, Hins by apply lookup_delete_eq.
    rewrite (map_fold_delete_L (λ _ v acc, v + acc) 0 k old m); [lia| |done].
    intros. lia.
  - rewrite Hins by done. lia.
Qed.

Lemma totals_fold_sum (l : list Message) (m : gmap (list N) Z) :
  sum_values (fold_left (λ totals msg,
               <[status_mapped msg := default 0 (totals !! status_mapped msg) + 1]> totals) l m) = sum_values m + len l.
Proof.
  revert m. induction l as [|x l IH]; intros m.
  - unfold len. simpl. lia.
  - cbn [fold_left]. rewrite IH. rewrite sum_values_insert.
    unfold len. simpl length. lia.
Qed.

(** [counts_totals] counts the members by mapped status: a status is a key
    exactly when some member has it, its value is the number of such
    members, and the values add up to the size of the cluster. *)
Theorem counts_totals_counts (c : MessageCluster) :
  (∀ s n, counts_totals c !! s = Some n
          ↔ 0 < n ∧ n = count_status s (messages c))
  ∧ sum_values (counts_totals c) = total c.
Proof.
  split.
  - intros s n. unfold counts_totals. rewrite totals_fold_lookup.
    pose proof (len_filter_nonneg (λ m, status_mapped m = s) (messages c)) as Hn.
    fold (count_status s (messages c)) in Hn.
    case_decide as E.
    + rewrite lookup_empty. split; [done|]. lia.
    + rewrite lookup_empty. simpl. split; [intros [= <-]; lia|]. intros [_ ->]. done.
  - unfold counts_totals. rewrite totals_fold_sum. done.
Qed.

(** The two figures printed for a cluster, delivered and not delivered, are
    the numbers of members with and without the delivered status; they add
    up to the size of the cluster. *)
Theorem cluster_delivered_other (c : MessageCluster) :
  cluster_delivered c = count_status NORMALIZED_STATUS_DELIVERED (messages c)
  ∧ cluster_other c
    = len (filter (λ m, status_mapped m ≠ NORMALIZED_STATUS_DELIVERED) (messages c))
  ∧ cluster_delivered c + cluster_other c = total c.
Proof.
  assert (cluster_delivered c = count_status NORMALIZED_STATUS_DELIVERED (messages c)) as Hd.
  { unfold cluster_delivered, counts_totals.
    rewrite totals_fold_lookup. case_decide as E; [by rewrite lookup_empty|].
    rewrite lookup_empty. simpl. lia. }
  assert (sum_values (counts_totals c) = total c) as Hs.
  { unfold counts_totals. by rewrite totals_fold_sum. }
  pose proof (len_filter_split (λ m, status_mapped m = NORMALIZED_STATUS_DELIVERED)
                (messages c)) as Hsplit.
  unfold cluster_other. rewrite Hs, Hd. unfold count_status, total in *.
  repeat split; lia.
Qed.

(** ** [counts_by_date] *)

Lemma by_date_fold (l : list Message) (counts : gmap Z (gmap (list N) Z)) (d : Z) :
  let r := fold_left (λ counts msg,
               match date msg with
               | None => counts
               | Some d =>
                   let inner := default ∅ (counts !! d) in
                   <[d := <[status_mapped msg := default 0 (inner !! status_mapped msg) + 1]>
                            inner]> counts
               end) l counts in
  (r !! d = None ↔ counts !! d = None ∧ count_date d l = 0)
  ∧ sum_values (default ∅ (r !! d)) = sum_values (default ∅ (counts !! d)) + count_date d l
  ∧ ∀ s, default 0 (default ∅ (r !! d) !! s)
         = default 0 (default ∅ (counts !! d) !! s)
           + len (filter (λ m, date m = Some d ∧ status_mapped m = s) l).
Proof.
  revert counts. induction l as [|x l IH]; intros counts.
  - cbn [fold_left]. unfold count_date, len. simpl. repeat split; try tauto; intros; lia.
  - cbn [fold_left]. cbv zeta in *.
    match goal with |- context [fold_left _ l ?c] => specialize (IH c) end.
    destruct IH as (IH1 & IH2 & IH3).
    unfold count_date in *. rewrite len_filter_cons.
    pose proof (len_filter_nonneg (λ m, date m = Some d) l) as Hn.
    destruct (date x) as [d'|] eqn:Ed.
    + destruct (decide (d' = d)) as [->|Hne].
      * rewrite lookup_insert_eq in IH1, IH2, IH3. simpl in IH2, IH3.
        rewrite decide_True by done.
        split; [|split].
        -- rewrite IH1. split; [by intros [? _]|]. intros [_ ?]. lia.
        -- rewrite IH2, sum_values_insert. lia.
        -- intros s. rewrite IH3, len_filter_cons.
           destruct (decide (status_mapped x = s)) as [->|Hs].
           ++ rewrite lookup_insert_eq, decide_True by done. simpl. lia.
           ++ rewrite lookup_insert_ne, decide_False by tauto. lia.
      * rewrite lookup_insert_ne in IH1, IH2, IH3 by done.
        rewrite decide_False by congruence.
        split; [|split].
        -- rewrite IH1. split; intros [? ?]; split; try done; lia.
        -- rewrite IH2. lia.
        -- intros s. rewrite IH3, len_filter_cons, decide_False; [lia|].
           intros [? _]. congruence.
    + rewrite decide_False by done.
      split; [|split].
      -- rewrite IH1. split; intros [? ?]; split; try done; lia.
      -- rewrite IH2. lia.
      -- intros s. rewrite IH3, len_filter_cons, decide_False; [lia|].
         intros [? _]. congruence.
Qed.

(** [counts_by_date] has a key for exactly the dates that some member
    carries; under a date, the values add up to the number of members of
    that date, and the value of a status is the number of members with that
    date and that status. Members without date are counted nowhere. *)
Theorem counts_by_date_counts (c : MessageCluster) (d : Z) :
  (counts_by_date c !! d = None ↔ count_date d (messages c) = 0)
  ∧ sum_values (default ∅ (counts_by_date c !! d)) = count_date d (messages c)
  ∧ ∀ s, default 0 (default ∅ (counts_by_date c !! d) !! s)
         = len (filter (λ m, date m = Some d ∧ status_mapped m = s) (messages c)).
Proof.
  destruct (by_date_fold (messages c) ∅ d) as (H1 & H2 & H3).
  unfold counts_by_date. split; [|split].
  - rewrite H1, lookup_empty. tauto.
  - etrans; [exact H2|]. rewrite lookup_empty. simpl. unfold sum_values.
    rewrite map_fold_empty. lia.
  - intros s. etrans; [exact (H3 s)|]. rewrite lookup_empty. simpl.
    rewrite lookup_empty. simpl. lia.
Qed.

(** ** [summarize_overall] *)

Lemma overall_fold (l : list Message) (dc : gmap Z Z) (dl ot : Z) :
  ∃ dc', fold_left overall_step l (dc, dl, ot)
         = (dc', dl + count_status NORMALIZED_STATUS_DELIVERED l,
            ot + len (filter (λ m, status_mapped m ≠ NORMALIZED_STATUS_DELIVERED) l))
         ∧ ∀ d, dc' !! d = if decide (count_date d l = 0) then dc !! d
                           else Some (default 0 (dc !! d) + count_date d l).
Proof.
  revert dc dl ot. induction l as [|x l IH]; intros dc dl ot.
  - exists dc. cbn [fold_left]. unfold count_status, count_date, len. simpl.
    split; [repeat f_equal; lia|]. done.
  - cbn [fold_left]. unfold overall_step at 2.
    set (dc1 := match date x with
                | Some d => <[d := default 0 (dc !! d) + 1]> dc
                | None => dc
                end).
    assert (∀ d, dc1 !! d = if decide (date x = Some d)
                            then Some (default 0 (dc !! d) + 1) else dc !! d) as Hdc1.
    { intros d. unfold dc1. destruct (date x) as [d'|].
      - destruct (decide (d' = d)) as [->|Hne].
        + by rewrite lookup_insert_eq, decide_True.
        + rewrite lookup_insert_ne, decide_False by congruence. done.
      - by rewrite decide_False. }
    clearbody dc1.
    unfold count_status, count_date. 
    assert (∀ d, 0 <= len (filter (λ m, date m = Some d) l)) as Hn.
    { intros d. apply len_filter_nonneg. }
    case_bool_decide as Es.
    + destruct (IH dc1 (dl + 1) ot) as (dc' & -> & Hdc').
      exists dc'. split.
      * rewrite !len_filter_cons. unfold count_status.
        repeat case_decide; try tauto; (apply (f_equal2 pair); [apply (f_equal2 pair); [done|lia]|lia]).
      * intros d. rewrite Hdc', Hdc1, len_filter_cons. unfold count_date.
        specialize (Hn d).
        repeat case_decide; try lia; simpl; try done; f_equal; lia.
    + destruct (IH dc1 dl (ot + 1)) as (dc' & -> & Hdc').
      exists dc'. split.
      * rewrite !len_filter_cons. unfold count_status.
        repeat case_decide; try tauto; (apply (f_equal2 pair); [apply (f_equal2 pair); [done|lia]|lia]).
      * intros d. rewrite Hdc', Hdc1, len_filter_cons. unfold count_date.
        specialize (Hn d).
        repeat case_decide; try lia; simpl; try done; f_equal; lia.
Qed.

Lemma overall_fold_concat (cs : list MessageCluster) (acc : gmap Z Z * Z * Z) :
  fold_left (λ acc cluster, fold_left overall_step (messages cluster) acc) cs acc
  = fold_left overall_step (concat (messages <$> cs)) acc.
Proof.
  revert acc. induction cs as [|c cs IH]; intros acc; [done|].
  rewrite fmap_cons, concat_cons, fold_left_app. cbn [fold_left]. apply IH.
Qed.

Lemma summarize_overall_concat (cs : list MessageCluster) :
  let all := concat (messages <$> cs) in
  total_messages (summarize_overall cs) = len all
  ∧ total_clusters (summarize_overall cs) = len cs
  ∧ total_entregue (summarize_overall cs) = count_status NORMALIZED_STATUS_DELIVERED all
  ∧ total_nao_entregue (summarize_overall cs)
    = len (filter (λ m, status_mapped m ≠ NORMALIZED_STATUS_DELIVERED) all)
  ∧ ∀ d n, dates (summarize_overall cs) !! d = Some n ↔ 0 < n ∧ n = count_date d all.
Proof.
  intros all. unfold summarize_overall. rewrite overall_fold_concat. fold all.
  destruct (overall_fold all ∅ 0 0) as (dc' & -> & Hdc'). cbn.
  split; [apply sum_totals_concat|]. split; [done|]. split; [lia|]. split; [lia|].
  intros d n. rewrite Hdc', lookup_empty.
  pose proof (len_filter_nonneg (λ m, date m = Some d) all) as Hn.
  fold (count_date d all) in Hn.
  case_decide; simpl; [split; [done|lia]|].
  split; [intros [= <-]; lia|]. intros [_ ->]. done.
Qed.

(** For any list of clusters, the overview counts every member once:
    delivered and not delivered add up to the total number of messages, no
    count is negative, and a date is listed, with a positive count, exactly
    when some member carries it. *)
Theorem summarize_overall_counts (cs : list MessageCluster) :
  total_entregue (summarize_overall cs) + total_nao_entregue (summarize_overall cs)
  = total_messages (summarize_overall cs)
  ∧ 0 <= total_entregue (summarize_overall cs)
  ∧ 0 <= total_nao_entregue (summarize_overall cs)
  ∧ ∀ d n, dates (summarize_overall cs) !! d = Some n
           ↔ 0 < n ∧ n = count_date d (concat (messages <$> cs)).
Proof.
  destruct (summarize_overall_concat cs) as (-> & _ & -> & -> & Hd).
  pose proof (len_filter_split (λ m, status_mapped m = NORMALIZED_STATUS_DELIVERED)
                (concat (messages <$> cs))) as Hsplit.
  pose proof (len_filter_nonneg (λ m, status_mapped m = NORMALIZED_STATUS_DELIVERED)
                (concat (messages <$> cs))).
  pose proof (len_filter_nonneg (λ m, status_mapped m ≠ NORMALIZED_STATUS_DELIVERED)
                (concat (messages <$> cs))).
  cbv beta in Hsplit. unfold count_status.
  split; [lia|]. split; [lia|]. split; [lia|]. exact Hd.
Qed.

Lemma len_filter_Permutation {A} (P : A → Prop) `{∀ x, Decision (P x)} (l1 l2 : list A) :
  l1 ≡ₚ l2 → len (filter P l1) = len (filter P l2).
Proof. intros Hp. unfold len. by rewrite Hp. Qed.

(** The overview of a clustering is that of the input messages, whatever
    the threshold: the total is the number of messages, the delivered count
    and the count per date are those of the input, and there are at most as
    many clusters as messages. *)
Theorem summarize_overall_clustered (ms : list Message) (t : Q) :
  let o := summarize_overall (cluster_messages ms t) in
  total_messages o = len ms
  ∧ total_entregue o = count_status NORMALIZED_STATUS_DELIVERED ms
  ∧ total_nao_entregue o = len ms - count_status NORMALIZED_STATUS_DELIVERED ms
  ∧ (∀ d n, dates o !! d = Some n ↔ 0 < n ∧ n = count_date d ms)
  ∧ 0 <= total_clusters o <= len ms.
Proof.
  intros o. subst o.
  destruct (summarize_overall_concat (cluster_messages ms t)) as (-> & -> & -> & -> & Hd).
  destruct (cluster_messages_partition ms t) as (Hperm & _).
  pose proof (len_filter_split (λ m, status_mapped m = NORMALIZED_STATUS_DELIVERED) ms)
    as Hsplit.
  cbv beta in Hsplit. unfold count_status, count_date in *.
  split; [unfold len; by rewrite Hperm|].
  split; [by apply len_filter_Permutation|].
  split; [rewrite (len_filter_Permutation _ _ _ Hperm); lia|].
  split.
  { intros d n. rewrite Hd. by rewrite (len_filter_Permutation _ _ _ Hperm). }
  pose proof (length_le_concat_nonempty _ (clusters_created_nonempty ms t)) as Hle.
  rewrite (cluster_loop_messages t ms) in Hle.
  unfold cluster_messages, len. rewrite sort_by_total_desc_Permutation. lia.
Qed.

(** ** [collect_sample_messages] *)

Lemma counter_add_spec (ct : list (list N * Z)) (x : list N) :
  NoDup (fst <$> ct) →
  NoDup (fst <$> counter_add ct x)
  ∧ (∀ y, y ∈ (fst <$> counter_add ct x) ↔ y = x ∨ y ∈ (fst <$> ct))
  ∧ ∀ y n, (y, n) ∈ counter_add ct x →
           match decide (y = x) with
           | left _ => ((x ∉ (fst <$> ct)) ∧ n = 1) ∨ (x, n - 1) ∈ ct
           | right _ => (y, n) ∈ ct
           end.
Proof.
  induction ct as [|[z k] ct IH]; intros Hnd.
  - simpl. split; [apply NoDup_singleton|]. split.
    + intros y. rewrite list_elem_of_singleton, elem_of_nil. tauto.
    + intros y n [= -> ->]%list_elem_of_singleton. rewrite decide_True by done.
      left. split; [apply not_elem_of_nil|done].
  - rewrite fmap_cons in Hnd. apply NoDup_cons in Hnd as [Hz Hnd]. simpl in Hz.
    cbn [counter_add]. case_bool_decide as E.
    + subst z. rewrite !fmap_cons. simpl. split; [by apply NoDup_cons|]. split.
      * intros y. rewrite elem_of_cons. tauto.
      * intros y n [[= -> ->]|Hin]%elem_of_cons.
        -- rewrite decide_True by done. right. replace (k + 1 - 1) with k by lia.
           apply elem_of_cons. by left.
        -- rewrite decide_False; [apply elem_of_cons; by right|].
           intros ->. apply Hz. apply list_elem_of_fmap. by exists (x, n).
    + destruct (IH Hnd) as (IH1 & IH2 & IH3). rewrite !fmap_cons. simpl. split; [|split].
      * apply NoDup_cons. split; [|done]. rewrite IH2. intros [?|?]; congruence.
      * intros y. rewrite !elem_of_cons, IH2. tauto.
      * intros y n [[= -> ->]|Hin]%elem_of_cons.
        -- rewrite decide_False by done. apply elem_of_cons. by left.
        -- specialize (IH3 y n Hin). destruct (decide (y = x)) as [->|Hne].
           ++ destruct IH3 as [[Hx ->]|Hx].
              ** left. split; [|done]. rewrite elem_of_cons. intros [?|?]; congruence.
              ** right. apply elem_of_cons. by right.
           ++ apply elem_of_cons. by right.
Qed.

Lemma occurrences_snoc (y x : list N) (xs : list (list N)) :
  occurrences y (xs ++ [x]) = occurrences y xs + (if decide (x = y) then 1 else 0).
Proof.
  unfold occurrences. rewrite filter_app, len_app. f_equal.
  rewrite filter_cons, filter_nil. by destruct (decide (x = y)).
Qed.

Lemma occurrences_pos (y : list N) (xs : list (list N)) :
  0 <= occurrences y xs ∧ (0 < occurrences y xs ↔ y ∈ xs).
Proof.
  unfold occurrences. induction xs as [|x xs [IH1 IH2]].
  - split; [done|]. rewrite elem_of_nil. unfold len. simpl. lia.
  - rewrite len_filter_cons, elem_of_cons. destruct (decide (x = y)) as [->|Hne].
    + split; [lia|]. split; [by left|lia].
    + split; [lia|]. rewrite Z.add_0_l, IH2. split; [by right|].
      intros [?|?]; [congruence|done].
Qed.

Lemma Counter_snoc (xs : list (list N)) (x : list N) :
  Counter (xs ++ [x]) = counter_add (Counter xs) x.
Proof. unfold Counter. by rewrite fold_left_app. Qed.

Lemma Counter_spec (xs : list (list N)) :
  NoDup (fst <$> Counter xs)
  ∧ (∀ y, y ∈ (fst <$> Counter xs) ↔ y ∈ xs)
  ∧ ∀ y n, (y, n) ∈ Counter xs → n = occurrences y xs.
Proof.
  induction xs as [|x xs (IH1 & IH2 & IH3)] using rev_ind.
  - split; [apply NoDup_nil_2|]. split; [done|]. intros y n H. by apply elem_of_nil in H.
  - rewrite Counter_snoc. destruct (counter_add_spec (Counter xs) x IH1) as (H1 & H2 & H3).
    split; [done|]. split.
    + intros y. rewrite H2, IH2, elem_of_app, list_elem_of_singleton. tauto.
    + intros y n Hin. specialize (H3 y n Hin). rewrite occurrences_snoc.
      destruct (decide (y = x)) as [->|Hne].
      * rewrite decide_True by done. destruct H3 as [[Hx ->]|Hx].
        -- rewrite IH2 in Hx. destruct (occurrences_pos x xs) as [? Hiff].
           assert (¬ 0 < occurrences x xs) by (by rewrite Hiff). lia.
        -- apply IH3 in Hx. lia.
      * rewrite decide_False by done. apply IH3 in H3. lia.
Qed.

Lemma insert_by_count_Permutation p l : insert_by_count p l ≡ₚ p :: l.
Proof.
  induction l as [|q l IH]; [done|]. simpl. destruct (snd q <=? snd p); [done|].
  rewrite IH. apply Permutation_swap.
Qed.

Lemma sort_by_count_Permutation l : foldr insert_by_count [] l ≡ₚ l.
Proof.
  induction l as [|p l IH]; [done|]. simpl. by rewrite insert_by_count_Permutation, IH.
Qed.

Lemma insert_by_count_sorted p l :
  StronglySorted (λ p q : list N * Z, snd q <= snd p) l →
  StronglySorted (λ p q : list N * Z, snd q <= snd p) (insert_by_count p l).
Proof.
  induction 1 as [|q l Hs IH Hq]; [repeat constructor|].
  simpl. destruct (Z.leb_spec (snd q) (snd p)).
  - constructor; [by constructor|]. constructor; [done|].
    eapply Forall_impl; [exact Hq|]. simpl. intros. lia.
  - constructor; [done|]. rewrite insert_by_count_Permutation.
    constructor; [lia|done].
Qed.

Lemma sort_by_count_sorted l :
  StronglySorted (λ p q : list N * Z, snd q <= snd p) (foldr insert_by_count [] l).
Proof.
  induction l as [|p l IH]; [constructor|]. simpl. by apply insert_by_count_sorted.
Qed.

Lemma StronglySorted_fmap_elem {A B} (R : relation A) (R' : relation B) (f : A → B)
      (l : list A) :
  (∀ p q, p ∈ l → q ∈ l → R p q → R' (f p) (f q)) →
  StronglySorted R l → StronglySorted R' (f <$> l).
Proof.
  intros HR Hs. induction Hs as [|p l Hs IH Hp]; [constructor|].
  rewrite fmap_cons. constructor.
  - apply IH. intros ????. apply HR; by apply elem_of_cons; right.
  - apply Forall_fmap, Forall_forall. intros q Hq. simpl.
    apply HR; [apply elem_of_cons; by left|apply elem_of_cons; by right|].
    by apply (proj1 (Forall_forall _ _) Hp).
Qed.

Lemma elem_of_take_in {A} (n : nat) (l : list A) (x : A) : x ∈ take n l → x ∈ l.
Proof. intros H. rewrite <- (take_drop n l). apply elem_of_app. by left. Qed.

(** The samples of a cluster are distinct non-blank member texts (stripped),
    as many as the limit allows, in descending order of frequency, and no
    text left out is more frequent than a text chosen. *)
Theorem collect_sample_messages_most_frequent (c : MessageCluster) (limit : Z) :
  let bodies := stripped_bodies c in
  let samples := collect_sample_messages c limit in
  NoDup samples
  ∧ length samples = (Z.to_nat limit `min` length (remove_dups bodies))%nat
  ∧ (∀ x, x ∈ samples → x ≠ [] ∧ ∃ m, m ∈ messages c ∧ strip (body m) = x)
  ∧ StronglySorted (λ x y, occurrences y bodies <= occurrences x bodies) samples
  ∧ ∀ x y, x ∈ samples → y ∈ bodies → y ∉ samples →
           occurrences y bodies <= occurrences x bodies.
Proof.
  intros bodies samples.
  destruct (Counter_spec bodies) as (Hnd & Hkeys & Hocc).
  set (sorted := foldr insert_by_count [] (Counter bodies)).
  assert (sorted ≡ₚ Counter bodies) as Hperm by apply sort_by_count_Permutation.
  assert (StronglySorted (λ p q : list N * Z, snd q <= snd p) sorted) as Hsorted
    by apply sort_by_count_sorted.
  assert (samples = fst <$> take (Z.to_nat limit) sorted) as Hs by done.
  clearbody samples sorted.
  assert (∀ p, p ∈ sorted → snd p = occurrences (fst p) bodies) as Hocc'.
  { intros [y n] Hin. rewrite Hperm in Hin. simpl. by apply Hocc. }
  assert (∀ x, x ∈ samples → x ∈ bodies) as Hsub.
  { intros x Hx. subst samples. apply list_elem_of_fmap in Hx as (p & -> & Hp).
    apply Hkeys. rewrite <- Hperm. apply list_elem_of_fmap. exists p. split; [done|].
    by eapply elem_of_take_in. }
  split; [|split; [|split; [|split]]].
  - subst samples. rewrite fmap_take. eapply sublist_NoDup; [|apply sublist_take].
    by rewrite Hperm.
  - subst samples. rewrite length_fmap, length_take. f_equal.
    rewrite Hperm, <- (length_fmap fst). apply Permutation_length.
    apply NoDup_Permutation; [done|apply NoDup_remove_dups|].
    intros y. rewrite Hkeys, elem_of_remove_dups. done.
  - intros x Hx%Hsub. unfold bodies, stripped_bodies in Hx.
    apply list_elem_of_fmap in Hx as (m & -> & Hm).
    apply list_elem_of_filter in Hm as [Hne Hm]. split; [done|]. by exists m.
  - subst samples. eapply StronglySorted_fmap_elem.
    2:{ rewrite <- (take_drop (Z.to_nat limit) sorted) in Hsorted.
        apply StronglySorted_app in Hsorted. apply Hsorted. }
    intros p q Hp Hq Hpq. simpl.
    rewrite <- !Hocc'; [done|by eapply elem_of_take_in..].
  - intros x y Hx Hy Hny. subst samples.
    apply list_elem_of_fmap in Hx as (p & -> & Hp).
    apply Hkeys in Hy. rewrite <- Hperm in Hy.
    apply list_elem_of_fmap in Hy as (q & -> & Hq).
    rewrite <- (take_drop (Z.to_nat limit) sorted) in Hq, Hsorted.
    apply elem_of_app in Hq as [Hq|Hq].
    { exfalso. apply Hny. apply list_elem_of_fmap. by exists q. }
    pose proof (StronglySorted_app_1_elem_of _ _ _ _ _ Hsorted Hp Hq) as Hle.
    simpl in Hle. rewrite <- !Hocc'; [done| |].
    + by eapply elem_of_take_in.
    + rewrite <- (take_drop (Z.to_nat limit) sorted). apply elem_of_app. by right.
Qed.

(** ** [format_int] *)

Lemma filter_Forall_id {A} (P : A → Prop) `{∀ x, Decision (P x)} (l : list A) :
  Forall P l → filter P l = l.
Proof.
  induction 1 as [|x l Hx _ IH]; [done|]. by rewrite filter_cons_True, IH.
Qed.

Lemma string_of_uint_digits (d : Decimal.uint) :
  Forall (λ c, (48 <= c <= 57)%N) (of_ascii (NilEmpty.string_of_uint d)).
Proof.
  unfold of_ascii.
  induction d; simpl; constructor; try done; simpl; lia.
Qed.

Lemma group3_ind (P : list N → Prop) :
  P [] → (∀ d1, P [d1]) → (∀ d1 d2, P [d1; d2]) → (∀ d1 d2 d3, P [d1; d2; d3]) →
  (∀ d1 d2 d3 d4 rest, P (d4 :: rest) → P (d1 :: d2 :: d3 :: d4 :: rest)) →
  ∀ l, P l.
Proof.
  intros H0 H1 H2 H3 H4 l.
  assert (∀ n l, (length l <= n)%nat → P l) as Hn; [|by apply (Hn (length l))].
  clear l. induction n as [|n IH]; intros l Hl.
  - destruct l; [done|simpl in Hl; lia].
  - destruct l as [|d1 [|d2 [|d3 [|d4 rest]]]]; try done.
    apply H4, IH. simpl in *. lia.
Qed.

Lemma group3_filter (sep : N) (l : list N) :
  Forall (λ c, c ≠ sep) l → filter (λ c, c ≠ sep) (group3 sep l) = l.
Proof.
  induction l as [| | | |d1 d2 d3 d4 rest IH] using group3_ind; intros Hl.
  1-4: cbn [group3]; by apply filter_Forall_id.
  change (group3 sep (d1 :: d2 :: d3 :: d4 :: rest))
    with (d1 :: d2 :: d3 :: sep :: group3 sep (d4 :: rest)).
  apply Forall_cons in Hl as [? Hl]. apply Forall_cons in Hl as [? Hl].
  apply Forall_cons in Hl as [? Hl].
  rewrite !filter_cons_True by done. rewrite filter_cons_False by tauto.
  by rewrite IH.
Qed.

Lemma group3_lookup (sep : N) (l : list N) (i : nat) :
  Forall (λ c, c ≠ sep) l → (i < length (group3 sep l))%nat →
  group3 sep l !! i = Some sep ↔ (i mod 4 = 3)%nat.
Proof.
  revert i. induction l as [|d1|d1 d2|d1 d2 d3|d1 d2 d3 d4 rest IH] using group3_ind;
    intros i Hl Hi.
  - simpl in Hi. lia.
  - apply Forall_cons in Hl as [? _]. destruct i as [|i]; [|simpl in Hi; lia].
    simpl. split; [congruence|done].
  - apply Forall_cons in Hl as [? Hl]. apply Forall_cons in Hl as [? _].
    destruct i as [|[|i]]; [..|simpl in Hi; lia]; simpl; (split; [congruence|done]).
  - apply Forall_cons in Hl as [? Hl]. apply Forall_cons in Hl as [? Hl].
    apply Forall_cons in Hl as [? _].
    destruct i as [|[|[|i]]]; [..|simpl in Hi; lia]; simpl; (split; [congruence|done]).
  - change (group3 sep (d1 :: d2 :: d3 :: d4 :: rest))
      with (d1 :: d2 :: d3 :: sep :: group3 sep (d4 :: rest)) in *.
    apply Forall_cons in Hl as [? Hl]. apply Forall_cons in Hl as [? Hl].
    apply Forall_cons in Hl as [? Hl].
    destruct i as [|[|[|[|i]]]].
    1-3: simpl; (split; [congruence|done]).
    + simpl. done.
    + change ((d1 :: d2 :: d3 :: sep :: group3 sep (d4 :: rest)) !! S (S (S (S i))))
        with (group3 sep (d4 :: rest) !! i).
      rewrite IH; [|done|cbn [length] in Hi; lia].
      replace (S (S (S (S i)))) with (i + 1 * 4)%nat by lia.
      by rewrite Nat.Div0.mod_add.
Qed.

Lemma comma_to_dot_filter (l : list N) :
  Forall (λ c, c ≠ 46%N) l →
  filter (λ c, c ≠ 46%N) ((λ c, if (c =? 44)%N then 46%N else c) <$> l)
  = filter (λ c, c ≠ 44%N) l.
Proof.
  induction 1 as [|c l Hc _ IH]; [done|].
  rewrite fmap_cons, !filter_cons, IH.
  destruct (N.eqb_spec c 44) as [->|Hne].
  - by rewrite decide_False, decide_False by tauto.
  - by rewrite !decide_True by done.
Qed.

Lemma group3_Forall (P : N → Prop) (sep : N) (l : list N) :
  P sep → Forall P l → Forall P (group3 sep l).
Proof.
  intros Hs. induction l as [| | | |d1 d2 d3 d4 rest IH] using group3_ind; intros Hl.
  1-4: done.
  change (group3 sep (d1 :: d2 :: d3 :: d4 :: rest))
    with (d1 :: d2 :: d3 :: sep :: group3 sep (d4 :: rest)).
  apply Forall_cons in Hl as [? Hl]. apply Forall_cons in Hl as [? Hl].
  apply Forall_cons in Hl as [? Hl]. repeat (constructor; [done|]). by apply IH.
Qed.

Lemma grouped_digits (d : Decimal.uint) :
  let g := reverse (group3 44%N (reverse (of_ascii (NilEmpty.string_of_uint d)))) in
  filter (λ c, c ≠ 46%N) ((λ c, if (c =? 44)%N then 46%N else c) <$> g)
  = of_ascii (NilEmpty.string_of_uint d).
Proof.
  intros g. pose proof (string_of_uint_digits d) as Hd.
  rewrite comma_to_dot_filter.
  - unfold g. rewrite filter_reverse, group3_filter, reverse_involutive; [done|].
    apply Forall_reverse. eapply Forall_impl; [exact Hd|]. simpl. intros; lia.
  - unfold g. apply Forall_reverse, group3_Forall; [done|].
    apply Forall_reverse. eapply Forall_impl; [exact Hd|]. simpl. intros; lia.
Qed.

(** Taking the dots out of [format_int value] gives the decimal notation of
    [value], sign included: the separator changes no digit. *)
Theorem format_int_without_dots (value : Z) :
  filter (λ c, c ≠ 46%N) (format_int value)
  = of_ascii (NilEmpty.string_of_int (Z.to_int value)).
Proof.
  unfold format_int, format_thousands.
  destruct (Z.to_int value) as [d|d]; cbn [NilEmpty.string_of_int].
  - apply grouped_digits.
  - rewrite fmap_cons. change (45 =? 44)%N with false. cbv iota.
    rewrite filter_cons_True by done.
    unfold of_ascii at 2. cbn [String.list_ascii_of_string fmap list_fmap].
    fold (of_ascii (NilEmpty.string_of_uint d)).
    f_equal. apply grouped_digits.
Qed.

(** For a number that is not negative, the dots of [format_int] stand
    exactly at every fourth place counted from the right: groups of three
    digits. *)
Theorem format_int_groups_of_three (value : Z) (i : nat) :
  0 <= value → (i < length (format_int value))%nat →
  reverse (format_int value) !! i = Some 46%N ↔ (i mod 4 = 3)%nat.
Proof.
  intros Hv Hi. unfold format_int, format_thousands in *.
  assert (∃ d, Z.to_int value = Decimal.Pos d) as [d Hd].
  { destruct value; [by eexists..|lia]. }
  rewrite Hd in *. rewrite <- fmap_reverse, reverse_involutive.
  rewrite length_fmap, length_reverse in Hi.
  pose proof (string_of_uint_digits d) as Hdig.
  assert (Forall (λ c, c ≠ 44%N) (reverse (of_ascii (NilEmpty.string_of_uint d)))) as Hne.
  { apply Forall_reverse. eapply Forall_impl; [exact Hdig|]. simpl. intros; lia. }
  rewrite <- (group3_lookup 44 _ i Hne Hi).
  assert (Forall (λ c, c ≠ 46%N)
            (group3 44 (reverse (of_ascii (NilEmpty.string_of_uint d))))) as H46.
  { apply group3_Forall; [done|]. apply Forall_reverse.
    eapply Forall_impl; [exact Hdig|]. simpl. intros; lia. }
  rewrite list_lookup_fmap.
  destruct (group3 44 (reverse (of_ascii (NilEmpty.string_of_uint d))) !! i) as [c|] eqn:E;
    [|done].
  simpl. pose proof (proj1 (Forall_lookup _ _) H46 i c E) as Hc. simpl in Hc.
  destruct (N.eqb_spec c 44) as [->|Hc44]; [done|].
  split; intros [= ->]; done.
Qed.

Lemma format_int_groups_of_three_witness :
  reverse (format_int 1234567) !! 3%nat = Some 46%N ↔ (3 mod 4 = 3)%nat.
Proof. apply format_int_groups_of_three; [lia|vm_compute; lia]. Defined.

(** * Further properties of the template *)

Lemma body_template_member_tokens (c : MessageCluster) :
  body_template c
  = match member_tokens c with
    | [] => []
    | [tokens] => join tokens
    | tpm => join (template_loop tpm (seq 0 (foldr Nat.max O (length <$> tpm))) [])
    end.
Proof.
  unfold body_template, member_tokens. case_bool_decide as E; [by rewrite E|].
  by destruct (_ <$> _) as [|? [|? ?]].
Qed.

Lemma split_go_app_token (cur t s : list N) :
  Forall (λ c, is_space c = false) t → split_go cur (t ++ s) = split_go (cur ++ t) s.
Proof.
  intros Ht. revert cur. induction Ht as [|c t Hc _ IH]; intros cur.
  - by rewrite app_nil_r.
  - simpl. rewrite Hc, IH. by rewrite <- app_assoc.
Qed.

Lemma split_join (tokens : list (list N)) :
  Forall token_ok tokens → split (join tokens) = tokens.
Proof.
  unfold split. induction 1 as [|t rest [Hne Ht] Hrest IH]; [done|].
  destruct rest as [|t' rest].
  - simpl. rewrite <- (app_nil_r t) at 1. rewrite split_go_app_token by done.
    simpl. by rewrite bool_decide_eq_false_2.
  - change (join (t :: t' :: rest)) with (t ++ 32%N :: join (t' :: rest)).
    rewrite split_go_app_token by done. cbn [split_go app].
    change (is_space 32) with true. cbv iota.
    by rewrite bool_decide_eq_false_2, IH.
Qed.

Lemma remove_dups_replicate {A} `{EqDecision A} (n : nat) (x : A) :
  remove_dups (replicate (S n) x) = [x].
Proof.
  induction n as [|n IH]; [done|].
  change (replicate (S (S n)) x) with (x :: replicate (S n) x).
  cbn [remove_dups].
  destruct (decide_rel elem_of x (replicate (S n) x)) as [_|Hn]; [exact IH|].
  exfalso. apply Hn, elem_of_cons. by left.
Qed.

Lemma Forall_eq_replicate {A} (x : A) (l : list A) :
  Forall (λ y, y = x) l → l = replicate (length l) x.
Proof. induction 1 as [|y l -> _ IH]; [done|]. simpl. by rewrite <- IH. Qed.

Lemma template_loop_same (n0 : nat) (toks : list (list N)) (n k : nat)
      (acc : list (list N)) :
  (k + n = length toks)%nat →
  template_loop (replicate (S n0) toks) (seq k n) acc = acc ++ drop k toks.
Proof.
  revert k acc. induction n as [|n IH]; intros k acc Hk.
  - simpl. rewrite drop_ge by lia. by rewrite app_nil_r.
  - destruct (lookup_lt_is_Some_2 toks k) as [tok Htok]; [lia|].
    cbn [seq template_loop]. cbv zeta.
    rewrite fmap_replicate, Htok.
    assert (omap id (replicate (S n0) (Some tok)) = replicate (S n0) tok) as ->.
    { generalize (S n0). intros m. induction m as [|m IHm]; [done|].
      change (replicate (S m) (Some tok)) with (Some tok :: replicate m (Some tok)).
      change (replicate (S m) tok) with (tok :: replicate m tok).
      by rewrite <- IHm. }
    rewrite remove_dups_replicate.
    rewrite (bool_decide_eq_false_2 (Exists _ _)).
    2:{ intros (x & Hx & ->)%Exists_exists. by apply elem_of_replicate in Hx as [? _]. }
    rewrite (bool_decide_eq_false_2 ([tok] = [])) by done. cbn [andb].
    rewrite IH by lia. rewrite <- app_assoc. f_equal.
    by rewrite (drop_S _ _ _ Htok).
Qed.

(** When all members with a non-blank body have the same words, the
    template is those words joined by single spaces, without placeholder. *)
Theorem body_template_same_words (c : MessageCluster) (toks : list (list N)) :
  member_tokens c ≠ [] → Forall (λ tokens, tokens = toks) (member_tokens c) →
  body_template c = join toks.
Proof.
  intros Hne Hall. rewrite body_template_member_tokens.
  apply Forall_eq_replicate in Hall. destruct (member_tokens c) as [|t1 [|t2 tpm]]; [done|..].
  - by injection Hall as ->.
  - rewrite Hall. cbn [length].
    assert (∀ m, foldr Nat.max O (length <$> replicate (S m) toks) = length toks) as ->.
    { intros m. induction m as [|m IHm]; [simpl; lia|].
      change (replicate (S (S m)) toks) with (toks :: replicate (S m) toks).
      rewrite fmap_cons. cbn [foldr]. rewrite IHm. lia. }
    by rewrite template_loop_same.
Qed.

Lemma body_template_same_words_witness :
  body_template (mkCluster (of_ascii "oferta valida") (of_ascii "Oferta  valida")
                   [msg_of "Oferta  valida" "oferta valida";
                    msg_of " Oferta valida " "oferta valida"])
  = join [of_ascii "Oferta"; of_ascii "valida"].
Proof. apply body_template_same_words; [done|]. by repeat constructor. Defined.

(** The two invariants of the loop of [body_template]. *)
Lemma template_loop_common (tpm : list (list (list N))) (idxs : list nat)
      (acc : list (list N)) :
  Forall (λ tok, tok = variavel ∨ Forall (λ tokens, tok ∈ tokens) tpm) acc →
  Forall (λ tok, tok = variavel ∨ Forall (λ tokens, tok ∈ tokens) tpm)
         (template_loop tpm idxs acc).
Proof.
  revert acc. induction idxs as [|idx idxs IH]; intros acc Hacc; [done|].
  cbn [template_loop]. cbv zeta.
  set (at_idx := (λ tokens : list (list N), tokens !! idx) <$> tpm).
  set (missing := bool_decide (Exists (λ token, token = None) at_idx)).
  destruct (bool_decide (remove_dups (omap id at_idx) = []) && missing); [done|].
  apply IH.
  destruct (remove_dups (omap id at_idx)) as [|v [|v' vs]] eqn:Ev.
  - case_match; [|done]. apply Forall_app. split; [done|]. constructor; [by left|constructor].
  - destruct missing eqn:Em.
    + case_match; [|done]. apply Forall_app. split; [done|]. constructor; [by left|constructor].
    + apply Forall_app. split; [done|]. constructor; [|constructor]. right.
      apply bool_decide_eq_false in Em. apply Forall_forall. intros tokens Hin.
      destruct (tokens !! idx) as [tok|] eqn:Etok.
      * assert (tok ∈ remove_dups (omap id at_idx)) as Htok.
        { apply elem_of_remove_dups, list_elem_of_omap. exists (Some tok). split; [|done].
          apply list_elem_of_fmap. by exists tokens. }
        rewrite Ev in Htok. apply list_elem_of_singleton in Htok as ->.
        by eapply list_elem_of_lookup_2.
      * exfalso. apply Em, Exists_exists. exists None. split; [|done].
        apply list_elem_of_fmap. by exists tokens.
  - case_match; [|done]. apply Forall_app. split; [done|]. constructor; [by left|constructor].
Qed.

(** Every word of the template other than the placeholder occurs in every
    member with a non-blank body. *)
Theorem body_template_common_words (c : MessageCluster) :
  Forall (λ tok, tok = variavel ∨ Forall (λ tokens, tok ∈ tokens) (member_tokens c))
         (split (body_template c)).
Proof.
  rewrite body_template_member_tokens.
  assert (Forall (Forall token_ok) (member_tokens c)) as Hok.
  { unfold member_tokens. apply Forall_fmap, Forall_forall. intros m _. apply split_tokens. }
  destruct (member_tokens c) as [|t1 [|t2 tpm]] eqn:E; [done|..].
  - apply Forall_cons in Hok as [Hok _]. rewrite split_join by done.
    apply Forall_forall. intros tok Htok. right. by repeat constructor.
  - rewrite split_join by (by apply template_loop_tokens).
    by apply template_loop_common.
Qed.

Lemma apart_snoc (acc : list (list N)) (x : list N) :
  (∀ i, acc !! i = Some variavel → acc !! S i ≠ Some variavel) →
  (x = variavel → last acc ≠ Some variavel) →
  ∀ i, (acc ++ [x]) !! i = Some variavel → (acc ++ [x]) !! S i ≠ Some variavel.
Proof.
  intros Hacc Hx i Hi HS.
  destruct (decide (S i < length acc)%nat) as [Hlt|Hge].
  - rewrite lookup_app_l in Hi, HS by lia. by apply (Hacc i).
  - apply lookup_lt_Some in HS as Hlen. rewrite length_app in Hlen. simpl in Hlen.
    assert (S i = length acc) as Hi' by lia.
    rewrite lookup_app_l in Hi by lia.
    rewrite lookup_app_r, Hi', Nat.sub_diag in HS by lia. injection HS as ->.
    apply Hx; [done|]. rewrite last_lookup. rewrite <- Hi'. simpl. done.
Qed.

Lemma template_loop_apart (tpm : list (list (list N))) (idxs : list nat)
      (acc : list (list N)) :
  Forall (λ tokens, variavel ∉ tokens) tpm →
  (∀ i, acc !! i = Some variavel → acc !! S i ≠ Some variavel) →
  ∀ i, template_loop tpm idxs acc !! i = Some variavel →
       template_loop tpm idxs acc !! S i ≠ Some variavel.
Proof.
  intros Htpm. revert acc. induction idxs as [|idx idxs IH]; intros acc Hacc; [done|].
  cbn [template_loop]. cbv zeta.
  set (at_idx := (λ tokens : list (list N), tokens !! idx) <$> tpm).
  set (missing := bool_decide (Exists (λ token, token = None) at_idx)).
  destruct (bool_decide (remove_dups (omap id at_idx) = []) && missing); [done|].
  apply IH.
  assert (∀ l, (if bool_decide (acc = []) || bool_decide (last acc ≠ Some variavel)
                then acc ++ [variavel] else acc) = l →
               ∀ i, l !! i = Some variavel → l !! S i ≠ Some variavel) as Hvar.
  { intros l <-. destruct (decide (acc = [])) as [->|Hne].
    - simpl. intros [|i]; [done|]. by destruct i.
    - rewrite (bool_decide_eq_false_2 (acc = [])) by done. cbn [orb].
      case_bool_decide as El; [|done]. apply apart_snoc; done. }
  destruct (remove_dups (omap id at_idx)) as [|v [|v' vs]] eqn:Ev; [by eapply Hvar| |by eapply Hvar].
  destruct missing; [by eapply Hvar|].
  apply apart_snoc; [done|]. intros ->. exfalso.
  assert (variavel ∈ remove_dups (omap id at_idx)) as Hin.
  { rewrite Ev. apply elem_of_cons. by left. }
  apply elem_of_remove_dups, list_elem_of_omap in Hin as (o & Ho & Heq).
  simpl in Heq. subst o. apply list_elem_of_fmap in Ho as (tokens & Hl & Htok).
  symmetry in Hl. apply list_elem_of_lookup_2 in Hl.
  by apply (proj1 (Forall_forall _ _) Htpm tokens).
Qed.

(** When no member's text contains the placeholder itself as a word, the
    template never has two placeholders in a row: a run of differing words
    is replaced by a single placeholder. *)
Theorem body_template_placeholders_apart (c : MessageCluster) (i : nat) :
  Forall (λ tokens, variavel ∉ tokens) (member_tokens c) →
  split (body_template c) !! i = Some variavel →
  split (body_template c) !! S i ≠ Some variavel.
Proof.
  intros Hno. rewrite body_template_member_tokens.
  assert (Forall (Forall token_ok) (member_tokens c)) as Hok.
  { unfold member_tokens. apply Forall_fmap, Forall_forall. intros m _. apply split_tokens. }
  destruct (member_tokens c) as [|t1 [|t2 tpm]] eqn:E; [done|..].
  - apply Forall_cons in Hok as [Hok _]. apply Forall_cons in Hno as [Hno _].
    rewrite split_join by done. intros Hi%list_elem_of_lookup_2. done.
  - rewrite split_join by (by apply template_loop_tokens).
    by apply template_loop_apart.
Qed.

Lemma body_template_placeholders_apart_witness :
  split (body_template (mkCluster [] []
           [msg_of "Ola Ana Maria seu codigo 123" "";
            msg_of "Ola Joao Pedro seu codigo 456" ""])) !! 2%nat ≠ Some variavel.
Proof.
  apply body_template_placeholders_apart.
  - apply (bool_decide_unpack _). by vm_compute.
  - by vm_compute.
Defined.

(** * Further properties of the loader *)

Lemma strip_strip (s : list N) : strip (strip s) = strip s.
Proof. apply strip_id; [apply head_strip|apply last_strip]. Qed.

Lemma ws_sub_no_space (repl : list N) (k : nat) (p : option N) (s : list N) :
  Forall (λ c, is_space c = false) repl →
  Forall (λ c, is_space c = false) (re_sub MULTI_WS_PATTERN repl k p s).
Proof.
  intros Hr. revert k p. induction s as [|c s IH]; intros k p; [constructor|].
  destruct k as [|k]; [|apply IH].
  cbn [re_sub]. unfold MULTI_WS_PATTERN at 1. cbn [run_length].
  destruct (is_space c) eqn:Ec.
  - apply Forall_app. split; [done|apply IH].
  - constructor; [done|apply IH].
Qed.

Lemma row_fold_preserve (header : list (list N)) (raw_row : list cell)
      (d : gmap (list N) cell) (k : list N) :
  (∀ j, (j < length raw_row)%nat → header !! j ≠ Some k) →
  fold_left (λ d '(k, v), <[k := v]> d) (zip header raw_row) d !! k = d !! k.
Proof.
  revert raw_row d. induction header as [|k0 header IH]; intros raw_row d Hk; [done|].
  destruct raw_row as [|v0 raw_row]; [done|].
  cbn [zip zip_with fold_left]. rewrite IH.
  - apply lookup_insert_ne. intros ->. by apply (Hk 0%nat); [simpl; lia|].
  - intros j Hj. apply (Hk (S j)). simpl. lia.
Qed.

Lemma row_fold_lookup (header : list (list N)) (raw_row : list cell)
      (d : gmap (list N) cell) (i : nat) (k : list N) (v : cell) :
  header !! i = Some k → raw_row !! i = Some v →
  (∀ j, (i < j)%nat → (j < length raw_row)%nat → header !! j ≠ Some k) →
  fold_left (λ d '(k, v), <[k := v]> d) (zip header raw_row) d !! k = Some v.
Proof.
  revert raw_row d i. induction header as [|k0 header IH]; intros raw_row d i Hh Hr Hlast;
    [done|].
  destruct raw_row as [|v0 raw_row]; [done|].
  cbn [zip zip_with fold_left]. destruct i as [|i].
  - injection Hh as ->. injection Hr as ->. rewrite row_fold_preserve.
    + apply lookup_insert_eq.
    + intros j Hj. apply (Hlast (S j)); simpl; lia.
  - apply (IH _ _ i); [done..|]. intros j Hij Hj. apply (Hlast (S j)); simpl; lia.
Qed.

(** [dict(zip(header, raw_row))]: the cell under a column name is the cell
    of the last column of that name which the row reaches. *)
Theorem row_dict_lookup (header : list (list N)) (raw_row : list cell)
        (i : nat) (k : list N) (v : cell) :
  header !! i = Some k → raw_row !! i = Some v →
  (∀ j, (i < j)%nat → (j < length raw_row)%nat → header !! j ≠ Some k) →
  row_dict header raw_row !! k = Some v.
Proof. apply row_fold_lookup. Qed.

Lemma row_dict_lookup_witness :
  row_dict [of_ascii "body"; of_ascii "status"; of_ascii "body"]
           [CStr (of_ascii "a"); CStr (of_ascii "sent"); CStr (of_ascii "b")]
    !! of_ascii "body" = Some (CStr (of_ascii "b")).
Proof.
  apply (row_dict_lookup _ _ 2); [reflexivity..|]. simpl. intros j ? ?. lia.
Defined.

(** A column name that the row does not reach is no key of the row: a row
    shorter than the header reads as [None] in the missing columns. *)
Theorem row_dict_missing (header : list (list N)) (raw_row : list cell) (key : string) :
  (∀ j, (j < length raw_row)%nat → header !! j ≠ Some (of_ascii key)) →
  row_dict header raw_row !! of_ascii key = None
  ∧ get (row_dict header raw_row) key = CNone.
Proof.
  intros Hk. unfold get, row_dict. by rewrite row_fold_preserve.
Qed.

Lemma row_dict_missing_witness :
  row_dict [of_ascii "body"; of_ascii "status"] [CStr (of_ascii "a")]
    !! of_ascii "status" = None
  ∧ get (row_dict [of_ascii "body"; of_ascii "status"] [CStr (of_ascii "a")]) "status" = CNone.
Proof.
  apply row_dict_missing. simpl. intros [|j] ?; [done|lia].
Defined.

Section LoaderMore.
Context {U : UnicodeData}.
Context (str_date : Z → list N) (parse_datetime : cell → option Z).

(** A normalized header holds no white space: every run of white space
    inside the title has become one underscore. *)
Theorem normalize_header_no_space (value : cell) :
  Forall (λ c, is_space c = false) (normalize_header str_date value).
Proof. apply ws_sub_no_space. by repeat constructor. Qed.

(** [extract_date] reads the five date columns in their order: a
    [date_sent] that parses wins; a column that is absent or does not parse
    is passed over; the result is [None] only when no column parses, and a
    date returned was parsed from one of the columns. *)
Theorem extract_date_priority (row : gmap (list N) cell) :
  let keys := ["date_sent"; "data_envio"; "sent_at"; "date_created"; "data_criacao"]%string in
  (∀ v d, row !! of_ascii "date_sent" = Some v → parse_datetime v = Some d →
          extract_date parse_datetime row = Some d)
  ∧ (extract_date parse_datetime row = None
     ↔ Forall (λ key, ∀ v, row !! of_ascii key = Some v → parse_datetime v = None) keys)
  ∧ (∀ d, extract_date parse_datetime row = Some d →
          Exists (λ key, ∃ v, row !! of_ascii key = Some v ∧ parse_datetime v = Some d) keys).
Proof.
  intros keys. unfold extract_date. fold keys.
  split; [|split].
  - intros v d Hv Hd. unfold keys. cbn [foldr]. by rewrite Hv, Hd.
  - induction keys as [|key keys IH]; [done|]. cbn [foldr]. rewrite Forall_cons, <- IH.
    destruct (row !! of_ascii key) as [v|] eqn:E.
    + destruct (parse_datetime v) as [d|] eqn:Ed.
      * split; [done|]. intros [H _]. specialize (H v eq_refl). congruence.
      * split; [|tauto]. intros H. split; [|done]. by intros ? [= <-].
    + split; [|tauto]. intros H. split; [|done]. done.
  - intros d. induction keys as [|key keys IH]; [done|]. cbn [foldr].
    destruct (row !! of_ascii key) as [v|] eqn:E.
    + destruct (parse_datetime v) as [d'|] eqn:Ed.
      * intros [= ->]. apply Exists_cons_hd. by exists v.
      * intros H. apply Exists_cons_tl. by apply IH.
    + intros H. apply Exists_cons_tl. by apply IH.
Qed.

(** Every message loaded from a workbook carries the name of the file, a
    stripped body, the normalized form of that very body, one of the two
    status labels, the date that [extract_date] finds in its row, and the
    five metadata fields; no more messages are loaded than there are rows
    below the header. *)
Theorem loaded_messages_well_formed (path_basename : list N) (rows : list (list cell)) :
  Forall (λ m, source_file m = path_basename
               ∧ strip (body m) = body m
               ∧ body_normalized m = normalize_body (body m)
               ∧ (status_mapped m = NORMALIZED_STATUS_DELIVERED
                  ∨ status_mapped m = NORMALIZED_STATUS_OTHER)
               ∧ dom (metadata m)
                 = list_to_set (of_ascii <$> ["to"; "status_original"; "date_sent";
                                              "date_created"; "sid"]%string))
         (load_messages_from_workbook str_date parse_datetime path_basename rows)
  ∧ (length (load_messages_from_workbook str_date parse_datetime path_basename rows)
     <= length rows - 1)%nat.
Proof.
  destruct rows as [|header_row rows_iter]; [split; [constructor|simpl; lia]|].
  unfold load_messages_from_workbook. split.
  - apply Forall_forall. intros m (raw_row & _ & Hm)%list_elem_of_omap.
    unfold load_row in Hm. destruct (negb (existsb truthy raw_row)); [done|].
    cbv zeta in Hm.
    set (body_raw := py_or _ _) in Hm.
    destruct (truthy body_raw) eqn:Et; [|done]. cbn [negb] in Hm.
    injection Hm as <-. cbn.
    split; [done|]. split; [apply strip_strip|]. split; [|split].
    + unfold normalize_body_cell, str_or_empty, py_or. rewrite Et.
      unfold normalize_body. by rewrite strip_strip.
    + unfold map_status. case_bool_decide; tauto.
    + rewrite !dom_insert_L, dom_empty_L. set_solver.
  - pose proof (omap_filter_length
                  (load_row str_date parse_datetime path_basename
                     (normalize_header str_date <$> header_row)) rows_iter).
    simpl. lia.
Qed.

End LoaderMore.

(** * Further properties of the normalization *)

(** ** Substitution up to a space

    None of the three patterns that [normalize_body] replaces first can
    match across a space, so the substitution works on the text before a
    space and on the text after it separately. *)

Lemma re_sub_skip_all m repl (k : nat) prev (s : list N) :
  (length s <= k)%nat → re_sub m repl k prev s = [].
Proof.
  revert k prev. induction s as [|c s IH]; intros k prev Hk; [done|].
  destruct k as [|k]; [simpl in Hk; lia|]. cbn [re_sub]. apply IH. simpl in Hk. lia.
Qed.

Lemma re_sub_app_space (m : option N → list N → option nat) (repl : list N) :
  (∀ prev s2 t, m prev (s2 ++ 32%N :: t) = m prev s2) →
  (∀ prev s n, m prev s = Some n → (1 <= n <= length s)%nat) →
  ∀ s k prev t, (k <= length s)%nat →
    re_sub m repl k prev (s ++ 32%N :: t)
    = re_sub m repl k prev s ++ 32%N :: re_sub m repl 0 (Some 32%N) t.
Proof.
  intros Hloc Hbound. induction s as [|c s IH]; intros k prev t Hk.
  - destruct k; [|simpl in Hk; lia]. cbn [app re_sub].
    rewrite (Hloc prev [] t : m prev (32%N :: t) = m prev []).
    destruct (m prev []) as [n|] eqn:E; [|done]. apply Hbound in E. simpl in E. lia.
  - destruct k as [|k].
    + cbn [re_sub]. rewrite <- app_comm_cons. cbn [re_sub].
      rewrite (Hloc prev (c :: s) t : m prev (c :: s ++ 32%N :: t) = m prev (c :: s)).
      destruct (m prev (c :: s)) as [n|] eqn:E.
      * apply Hbound in E. simpl in E. rewrite IH by lia. by rewrite app_assoc.
      * rewrite IH by lia. done.
    + rewrite <- app_comm_cons. cbn [re_sub]. rewrite IH by (simpl in Hk; lia). done.
Qed.

Lemma run_length_app_stop (p : N → bool) (s2 : list N) (c : N) (t : list N) :
  p c = false → run_length p (s2 ++ c :: t) = run_length p s2.
Proof.
  intros Hc. induction s2 as [|d s2 IH]; simpl; [by rewrite Hc|].
  destruct (p d); [by rewrite IH|done].
Qed.

Lemma run_length_le (p : N → bool) (s : list N) : (run_length p s <= length s)%nat.
Proof. induction s as [|c s IH]; simpl; [lia|]. destruct (p c); simpl; lia. Qed.

Lemma run_length_full (p : N → bool) (s : list N) :
  run_length p s = length s → Forall (λ c, p c = true) s.
Proof.
  induction s as [|c s IH]; [constructor|]. simpl. destruct (p c) eqn:E; [|done].
  intros [= H]. constructor; [done|by apply IH].
Qed.

Lemma nonspace_plus_local (s2 t : list N) :
  nonspace_plus (s2 ++ 32%N :: t) = nonspace_plus s2.
Proof. unfold nonspace_plus. by rewrite run_length_app_stop. Qed.

Lemma nonspace_plus_bound (s : list N) (n : nat) :
  nonspace_plus s = Some n → (1 <= n <= length s)%nat.
Proof.
  unfold nonspace_plus. pose proof (run_length_le (λ c, negb (is_space c)) s).
  destruct (run_length _ s); [done|]. intros [= <-]. lia.
Qed.

Lemma colon_slashes_local (s2 t : list N) :
  colon_slashes (s2 ++ 32%N :: t) = colon_slashes s2.
Proof.
  destruct s2 as [|c1 [|c2 [|c3 s2]]]; cbn [app colon_slashes].
  - by destruct t as [|? [|? ?]].
  - destruct t as [|? ?]; [done|]. by rewrite andb_false_r.
  - by rewrite andb_false_r.
  - destruct (_ && _); [|done]. by rewrite nonspace_plus_local.
Qed.

Lemma colon_slashes_bound (s : list N) (n : nat) :
  colon_slashes s = Some n → (1 <= n <= length s)%nat.
Proof.
  destruct s as [|c1 [|c2 [|c3 s]]]; try done. cbn [colon_slashes].
  destruct (_ && _); [|done]. destruct (nonspace_plus s) as [k|] eqn:E; [|done].
  intros [= <-]. apply nonspace_plus_bound in E. simpl. lia.
Qed.

Lemma slashes_local (s2 t : list N) : slashes (s2 ++ 32%N :: t) = slashes s2.
Proof.
  destruct s2 as [|c1 [|c2 s2]]; cbn [app slashes].
  - by destruct t as [|? ?].
  - by rewrite andb_false_r.
  - destruct (_ && _); [|done]. by rewrite nonspace_plus_local.
Qed.

Lemma slashes_bound (s : list N) (n : nat) :
  slashes s = Some n → (1 <= n <= length s)%nat.
Proof.
  destruct s as [|c1 [|c2 s]]; try done. cbn [slashes].
  destruct (_ && _); [|done]. destruct (nonspace_plus s) as [k|] eqn:E; [|done].
  intros [= <-]. apply nonspace_plus_bound in E. simpl. lia.
Qed.

Lemma opt_s_local (tail : list N → option nat) (s2 t : list N) :
  (∀ s2 t, tail (s2 ++ 32%N :: t) = tail s2) →
  opt_s tail (s2 ++ 32%N :: t) = opt_s tail s2.
Proof.
  intros Htail. destruct s2 as [|c s2]; unfold opt_s; cbn [app].
  - change (ci_s 32) with false. cbv iota. apply (Htail [] t).
  - rewrite Htail. by rewrite (Htail (c :: s2) t : tail (c :: s2 ++ 32%N :: t) = _).
Qed.

Lemma opt_s_bound (tail : list N → option nat) (s : list N) (n : nat) :
  (∀ s n, tail s = Some n → (1 <= n <= length s)%nat) →
  opt_s tail s = Some n → (1 <= n <= length s)%nat.
Proof.
  intros Htail. unfold opt_s. destruct s as [|c s]; [apply Htail|].
  destruct (ci_s c); [|apply Htail].
  destruct (tail s) as [k|] eqn:E; [|apply Htail].
  simpl. intros [= <-]. apply Htail in E. lia.
Qed.

Lemma http_local (tail : list N → option nat) (s2 t : list N) :
  (∀ s2 t, tail (s2 ++ 32%N :: t) = tail s2) →
  http tail (s2 ++ 32%N :: t) = http tail s2.
Proof.
  intros Htail. destruct s2 as [|c1 [|c2 [|c3 [|c4 s2]]]]; cbn [app http].
  - by destruct t as [|? [|? [|? ?]]].
  - destruct t as [|? [|? ?]]; try done. by rewrite andb_false_r.
  - destruct t as [|? ?]; try done. by rewrite andb_false_r.
  - by rewrite andb_false_r.
  - destruct (_ && _); [|done]. by rewrite opt_s_local.
Qed.

Lemma http_bound (tail : list N → option nat) (s : list N) (n : nat) :
  (∀ s n, tail s = Some n → (1 <= n <= length s)%nat) →
  http tail s = Some n → (1 <= n <= length s)%nat.
Proof.
  intros Htail. destruct s as [|c1 [|c2 [|c3 [|c4 s]]]]; try done. cbn [http].
  destruct (_ && _); [|done]. destruct (opt_s tail s) as [k|] eqn:E; [|done].
  intros [= <-]. apply (opt_s_bound _ _ _ Htail) in E. simpl. lia.
Qed.

(** A text that [URL_PATTERN] matches entirely holds no white space. *)
Lemma colon_slashes_full (s : list N) :
  colon_slashes s = Some (length s) → Forall (λ c, is_space c = false) s.
Proof.
  destruct s as [|c1 [|c2 [|c3 s]]]; try done. cbn [colon_slashes].
  destruct (_ && _) eqn:Ec; [|done].
  apply andb_prop in Ec as [Ec E3]. apply andb_prop in Ec as [E1 E2].
  apply N.eqb_eq in E1, E2, E3. subst.
  unfold nonspace_plus. destruct (run_length _ s) as [|k] eqn:Er; [done|].
  intros [= H]. rewrite <- Er in H. apply run_length_full in H.
  repeat (constructor; [done|]).
  eapply Forall_impl; [exact H|]. simpl. intros c Hc. by apply negb_true_iff.
Qed.

Lemma ci_s_nonspace (c : N) : ci_s c = true → is_space c = false.
Proof.
  unfold ci_s. intros H. apply orb_prop in H as [H|H]; [apply orb_prop in H as [H|H]|];
    apply N.eqb_eq in H; by subst.
Qed.

Lemma opt_s_full (s : list N) :
  opt_s colon_slashes s = Some (length s) → Forall (λ c, is_space c = false) s.
Proof.
  unfold opt_s. destruct s as [|c s]; [done|].
  destruct (ci_s c) eqn:Es; [|apply colon_slashes_full].
  destruct (colon_slashes s) as [k|] eqn:E; [|apply colon_slashes_full].
  simpl. intros [= ->]. constructor; [by apply ci_s_nonspace|by apply colon_slashes_full].
Qed.

Lemma URL_PATTERN_full (u : list N) :
  URL_PATTERN None u = Some (length u) → u ≠ [] ∧ Forall (λ c, is_space c = false) u.
Proof.
  unfold URL_PATTERN. destruct u as [|c1 [|c2 [|c3 [|c4 s]]]]; try done. cbn [http].
  destruct (_ && _) eqn:Ec; [|done].
  apply andb_prop in Ec as [Ec E4]. apply andb_prop in Ec as [Ec E3].
  apply andb_prop in Ec as [E1 E2].
  destruct (opt_s colon_slashes s) as [k|] eqn:E; [|done].
  simpl. intros [= ->]. split; [done|].
  assert (∀ c, (c =? 104)%N || (c =? 72)%N || ((c =? 116)%N || (c =? 84)%N)
               || ((c =? 112)%N || (c =? 80)%N) = true → is_space c = false) as Hl.
  { intros c H. repeat (apply orb_prop in H as [H|H]); apply N.eqb_eq in H; by subst. }
  constructor; [apply Hl; unfold ci_h in E1; by rewrite E1|].
  constructor; [apply Hl; unfold ci_t in E2; rewrite E2; by rewrite !orb_true_r|].
  constructor; [apply Hl; unfold ci_t in E3; rewrite E3; by rewrite !orb_true_r|].
  constructor; [apply Hl; unfold ci_p in E4; rewrite E4; by rewrite !orb_true_r|].
  by apply opt_s_full.
Qed.

(** ** Trailing white space under the collapse of white space *)

Lemma run_length_all (p : N → bool) (s : list N) :
  Forall (λ c, p c = true) s → run_length p s = length s.
Proof. induction 1 as [|c s Hc _ IH]; [done|]. simpl. by rewrite Hc, IH. Qed.

Lemma run_length_app_all (p : N → bool) (s t : list N) :
  run_length p s = length s → run_length p (s ++ t) = (length s + run_length p t)%nat.
Proof.
  induction s as [|c s IH]; [done|]. simpl. destruct (p c); [|done].
  intros [= H]. by rewrite IH.
Qed.

Lemma run_length_app_short (p : N → bool) (s t : list N) :
  (run_length p s < length s)%nat → run_length p (s ++ t) = run_length p s.
Proof.
  induction s as [|c s IH]; [simpl; lia|]. simpl. destruct (p c); [|done].
  intros H. rewrite IH; [done|lia].
Qed.

Lemma ws_all_space (k : nat) (p : option N) (S : list N) :
  Forall (λ c, is_space c = true) S →
  re_sub MULTI_WS_PATTERN [32%N] k p S = []
  ∨ re_sub MULTI_WS_PATTERN [32%N] k p S = [32%N].
Proof.
  intros HS. revert k p. induction HS as [|c S Hc HS IH]; intros k p; [by left|].
  destruct k as [|k]; [|apply IH].
  right. cbn [re_sub]. unfold MULTI_WS_PATTERN at 1. cbn [run_length]. rewrite Hc.
  cbn [pred]. rewrite re_sub_skip_all; [done|]. by rewrite run_length_all.
Qed.

Lemma ws_app_spaces (X S : list N) (k : nat) (p : option N) :
  Forall (λ c, is_space c = true) S →
  re_sub MULTI_WS_PATTERN [32%N] k p (X ++ S) = re_sub MULTI_WS_PATTERN [32%N] k p X
  ∨ re_sub MULTI_WS_PATTERN [32%N] k p (X ++ S)
    = re_sub MULTI_WS_PATTERN [32%N] k p X ++ [32%N].
Proof.
  intros HS. revert k p. induction X as [|c X IH]; intros k p.
  - cbn [app]. destruct (ws_all_space k p S HS) as [->| ->].
    + left. by destruct k.
    + right. by destruct k.
  - rewrite <- app_comm_cons. destruct k as [|k]; [|apply IH].
    cbn [re_sub].
    assert (∀ q s, MULTI_WS_PATTERN q s
                   = match run_length is_space s with O => None | n => Some n end) as Hm
      by done.
    rewrite !Hm. cbn [run_length].
    destruct (is_space c) eqn:Ec.
    + cbn [pred].
      destruct (decide (run_length is_space X < length X)%nat) as [Hlt|Hge].
      * rewrite run_length_app_short by done.
        destruct (IH (run_length is_space X) (Some c)) as [-> | ->];
          [by left|right; by rewrite <- ?app_assoc].
      * pose proof (run_length_le is_space X).
        assert (run_length is_space X = length X) as Hall by lia.
        rewrite run_length_app_all by done.
        rewrite !re_sub_skip_all; [by left|lia|].
        rewrite length_app. pose proof (run_length_all is_space S HS). lia.
    + destruct (IH 0%nat (Some c)) as [-> | ->]; [by left|by right].
Qed.

Lemma lstrip_app_space (s : list N) (c : N) :
  is_space c = true →
  lstrip (s ++ [c]) = lstrip s ++ [c] ∨ (lstrip (s ++ [c]) = [] ∧ lstrip s = []).
Proof.
  intros Hc. induction s as [|d s IH].
  - right. simpl. by rewrite Hc.
  - simpl. destruct (is_space d); [done|]. by left.
Qed.

Lemma rstrip_app_space (s : list N) (c : N) :
  is_space c = true → rstrip (s ++ [c]) = rstrip s.
Proof.
  intros Hc. unfold rstrip. rewrite reverse_app. simpl. by rewrite Hc.
Qed.

Lemma strip_app_space (s : list N) (c : N) :
  is_space c = true → strip (s ++ [c]) = strip s.
Proof.
  intros Hc. unfold strip. destruct (lstrip_app_space s c Hc) as [-> | [-> ->]]; [|done].
  by apply rstrip_app_space.
Qed.

Section NormalizeMore.
Context {U : UnicodeData}.

Lemma URL_PATTERN_ALT_local (prev : option N) (s2 t : list N) :
  URL_PATTERN_ALT prev (s2 ++ 32%N :: t) = URL_PATTERN_ALT prev s2.
Proof.
  unfold URL_PATTERN_ALT. destruct s2 as [|c s2].
  - cbn [app]. assert (http slashes (32%N :: t) = None) as ->.
    { by destruct t as [|? [|? [|? ?]]]. }
    by destruct (word_boundary _ _), (word_boundary _ _).
  - cbn [app]. unfold word_boundary. cbn [head].
    destruct (xorb _ _); [|done].
    apply (http_local slashes (c :: s2) t). apply slashes_local.
Qed.

Lemma URL_PATTERN_ALT_bound (prev : option N) (s : list N) (n : nat) :
  URL_PATTERN_ALT prev s = Some n → (1 <= n <= length s)%nat.
Proof.
  unfold URL_PATTERN_ALT. destruct (word_boundary _ _); [|done].
  apply http_bound, slashes_bound.
Qed.

Lemma NON_WORD_PATTERN_local (prev : option N) (s2 t : list N) :
  NON_WORD_PATTERN prev (s2 ++ 32%N :: t) = NON_WORD_PATTERN prev s2.
Proof.
  destruct s2 as [|c s2]; [|done]. cbn [app NON_WORD_PATTERN].
  change (is_space 32) with true. by rewrite andb_false_r.
Qed.

Lemma NON_WORD_PATTERN_bound (prev : option N) (s : list N) (n : nat) :
  NON_WORD_PATTERN prev s = Some n → (1 <= n <= length s)%nat.
Proof.
  destruct s as [|c s]; [done|]. cbn [NON_WORD_PATTERN].
  destruct (_ && _); [|done]. intros [= <-]. simpl. lia.
Qed.

(** A web address at the end of a message leaves no trace in the normalized
    body: for a text [w] without surrounding white space and not empty, and
    a text [u] that [URL_PATTERN] matches entirely, [w], a space and [u]
    normalize as [w] alone does.  Messages that differ only in that address
    therefore have the same normalized body. *)
Theorem normalize_body_trailing_url (w u : list N) :
  w ≠ [] → strip w = w → URL_PATTERN None u = Some (length u) →
  normalize_body (w ++ 32%N :: u) = normalize_body w.
Proof.
  intros Hw Hstrip Hu. apply URL_PATTERN_full in Hu as Hfull. destruct Hfull as [Hne Hns].
  assert (strip (w ++ 32%N :: u) = w ++ 32%N :: u) as Hraw.
  { apply strip_id.
    - intros c Hc. destruct w as [|c' w]; [done|]. simpl in Hc. injection Hc as ->.
      apply (head_strip (c :: w)). by rewrite Hstrip.
    - intros c Hc. rewrite last_app, last_cons in Hc.
      destruct (last u) as [d|] eqn:El.
      + simpl in Hc. injection Hc as ->.
        apply last_Some_elem_of in El. by apply (proj1 (Forall_forall _ _) Hns c).
      + apply last_None in El. done. }
  assert (re_sub URL_PATTERN [32%N] 0 (Some 32%N) u = [32%N]) as Hurl.
  { destruct u as [|c u']; [done|]. cbn [re_sub].
    change (URL_PATTERN (Some 32%N) (c :: u')) with (URL_PATTERN None (c :: u')).
    rewrite Hu. cbn [length pred]. by rewrite re_sub_skip_all. }
  unfold normalize_body. rewrite Hraw, Hstrip.
  rewrite (bool_decide_eq_false_2 (w ++ _ = [])) by (by destruct w).
  rewrite (bool_decide_eq_false_2 (w = [])) by done.
  f_equal. unfold sub.
  rewrite (re_sub_app_space URL_PATTERN [32%N]
             (λ _ s2 t, http_local colon_slashes s2 t colon_slashes_local)
             (λ _ s n, http_bound colon_slashes s n colon_slashes_bound)) by lia.
  rewrite Hurl.
  rewrite (re_sub_app_space URL_PATTERN_ALT [32%N]
             URL_PATTERN_ALT_local URL_PATTERN_ALT_bound) by lia.
  assert (re_sub URL_PATTERN_ALT [32%N] 0 (Some 32%N) [32%N] = [32%N]) as ->.
  { cbn [re_sub]. unfold URL_PATTERN_ALT. by destruct (word_boundary _ _). }
  rewrite (re_sub_app_space NON_WORD_PATTERN [32%N]
             NON_WORD_PATTERN_local NON_WORD_PATTERN_bound) by lia.
  assert (re_sub NON_WORD_PATTERN [32%N] 0 (Some 32%N) [32%N] = [32%N]) as ->.
  { cbn [re_sub NON_WORD_PATTERN]. change (is_space 32) with true.
    by rewrite andb_false_r. }
  match goal with
  | |- strip (re_sub _ _ _ _ (?C ++ ?S)) = _ =>
      destruct (ws_app_spaces C S 0 None) as [-> | ->]
  end.
  - by repeat constructor.
  - done.
  - by apply strip_app_space.
Qed.

End NormalizeMore.

Lemma normalize_body_trailing_url_witness :
  normalize_body (U := excerpt)
    (of_ascii "Sua fatura chegou" ++ 32%N :: of_ascii "https://x.co/a1?b=2")
  = normalize_body (U := excerpt) (of_ascii "Sua fatura chegou").
Proof.
  apply (normalize_body_trailing_url (U := excerpt)); [done|by vm_compute|by vm_compute].
Defined.

Section NormalizeAscii.
Context {U : UnicodeData} {HA : UnicodeAscii U}.

(** The normalized form of an ASCII text is made of lower-case letters,
    digits and underscores, in words separated by single spaces, with no
    space at either end. *)
Theorem normalize_body_ascii_shape (x : list N) :
  Forall is_ascii x →
  Forall (λ c, lower_word c = true ∨ c = 32%N) (normalize_body x)
  ∧ single_spaced (normalize_body x)
  ∧ head (normalize_body x) ≠ Some 32%N
  ∧ last (normalize_body x) ≠ Some 32%N.
Proof. intros Hx. by apply normalize_body_normal. Qed.

End NormalizeAscii.

Lemma normalize_body_ascii_shape_witness :
  Forall (λ c, lower_word c = true ∨ c = 32%N)
         (normalize_body (U := excerpt) (of_ascii " Ola, MUNDO!  2x "))
  ∧ single_spaced (normalize_body (U := excerpt) (of_ascii " Ola, MUNDO!  2x "))
  ∧ head (normalize_body (U := excerpt) (of_ascii " Ola, MUNDO!  2x ")) ≠ Some 32%N
  ∧ last (normalize_body (U := excerpt) (of_ascii " Ola, MUNDO!  2x ")) ≠ Some 32%N.
Proof.
  apply (normalize_body_ascii_shape (U := excerpt) (HA := excerpt_ascii)).
  vm_compute. repeat constructor.
Defined.

